(** * Verification of the slang developer scripts

    Two Python scripts are modelled here:
    - [scripts/refactor_parser.py], a regular-expression based rewriter of
      heap-allocation call sites, together with its helper injection and
      its command-line naming of the output file;
    - [generate_large_module.py], a templated generator of test modules.

    Text is a list of 8-bit characters (code points below 256). *)

From Stdlib Require Import Ascii String DecimalString DecimalNat.
From Stdlib Require Import ZArith Lia Bool Arith List.
Import ListNotations.
Open Scope list_scope.

(** ** Text *)

Definition text := list ascii.

Definition T (s : string) : text := list_ascii_of_string s.

Definition nl : ascii := "010"%char.

(** [s.startswith(p)] *)
Fixpoint starts_with (p s : text) : bool :=
  match p with
  | [] => true
  | c :: p' =>
      match s with
      | [] => false
      | x :: s' => Ascii.eqb x c && starts_with p' s'
      end
  end.

(** First index [i >= 0] at which [sub] occurs in [s], counted from [base]. *)
Fixpoint find_at (sub s : text) (base : nat) : option nat :=
  if starts_with sub s then Some base
  else match s with
       | [] => None
       | _ :: s' => find_at sub s' (S base)
       end.

(** Python clamps a slice start: a negative start counts from the end and
    is cut at 0. *)
Definition clamp_start (start : Z) (len : nat) : Z :=
  if (start <? 0)%Z then Z.max 0 (start + Z.of_nat len) else start.

(** [s.find(sub, start)]: the lowest index at or after the clamped start
    where [sub] occurs, or [-1]. *)
Definition py_find (s sub : text) (start : Z) : Z :=
  let st := clamp_start start (length s) in
  if (Z.of_nat (length s) <? st)%Z then (-1)%Z
  else
    let k := Z.to_nat st in
    match find_at sub (skipn k s) k with
    | Some i => Z.of_nat i
    | None => (-1)%Z
    end.

(** [s.replace(old, new)] and [s.replace(old, new, count)] for a non-empty
    [old]: occurrences are taken left to right and do not overlap.  The
    counter [skip] is the number of characters of the current occurrence
    still to be dropped. *)
Fixpoint replace_go (old new : text) (limit : option nat) (skip : nat)
  (s : text) : text :=
  match s with
  | [] => []
  | c :: s' =>
      match skip with
      | S k => replace_go old new limit k s'
      | O =>
          let hit := match limit with Some O => false | _ => true end in
          if hit && starts_with old s
          then new ++ replace_go old new
                        (option_map Nat.pred limit) (Nat.pred (length old)) s'
          else c :: replace_go old new limit O s'
      end
  end.

Definition py_replace (s old new : text) : text :=
  replace_go old new None 0 s.

Definition py_replace_n (s old new : text) (count : nat) : text :=
  replace_go old new (Some count) 0 s.

(** [s.count('\n')] *)
Definition count_nl (s : text) : nat :=
  length (filter (Ascii.eqb nl) s).

(** The texts that follow each occurrence (overlapping ones included) of
    a non-empty [p] in [s], from left to right. *)
Fixpoint hits (p s : text) : list text :=
  match s with
  | [] => []
  | _ :: s' =>
      (if starts_with p s then [skipn (length p) s] else []) ++ hits p s'
  end.

(** Number of occurrences of [p] in [s]. *)
Definition occurrences (p s : text) : nat := length (hits p s).

Definition is_digit (c : ascii) : bool :=
  (48 <=? nat_of_ascii c) && (nat_of_ascii c <=? 57).

(** The decimal digits at the start of [s]. *)
Fixpoint take_digits (s : text) : text :=
  match s with
  | c :: s' => if is_digit c then c :: take_digits s' else []
  | [] => []
  end.

(** The numbers written right after each occurrence of [p] in [s]. *)
Definition numbers_after (p s : text) : list text :=
  map take_digits (hits p s).

(** [sub in s] *)
Fixpoint contains (sub s : text) : bool :=
  starts_with sub s ||
  match s with
  | [] => false
  | _ :: s' => contains sub s'
  end.

(** ** Regular expressions of the script

    The patterns of [refactor_parser.py] are sequences of literal
    characters, greedy repetitions of a character class, an optional
    character, capture groups and one negative lookahead.  The matcher
    backtracks like Python's [re]: a greedy repetition first takes as much
    as it can and gives characters back while the rest of the pattern
    fails. *)

Inductive regex : Type :=
| Done                                      (* end of the pattern *)
| Chr (c : ascii) (r : regex)               (* a literal character *)
| Star (p : ascii -> bool) (r : regex)      (* class*   *)
| Plus (p : ascii -> bool) (r : regex)      (* class+   *)
| Opt (c : ascii) (r : regex)               (* c?       *)
| Open (n : nat) (r : regex)                (* start of group n *)
| Close (n : nat) (r : regex)               (* end of group n *)
| NotAhead (q : regex) (r : regex).         (* (?!q)    *)

(** A literal string followed by [r]. *)
Fixpoint lit (t : text) (r : regex) : regex :=
  match t with
  | [] => r
  | c :: t' => Chr c (lit t' r)
  end.

Definition code (c : ascii) : nat := nat_of_ascii c.

Definition in_range (lo hi : nat) (c : ascii) : bool :=
  (lo <=? code c) && (code c <=? hi).

(** [\s] on a [str] pattern: the characters for which [str.isspace()]
    holds. *)
Definition is_space (c : ascii) : bool :=
  in_range 9 13 c || in_range 28 32 c
  || (code c =? 133) || (code c =? 160).

(** [\w] on a [str] pattern: alphanumeric characters and the underscore. *)
Definition is_word (c : ascii) : bool :=
  in_range 48 57 c || in_range 65 90 c || in_range 97 122 c
  || (code c =? 95)
  || (code c =? 170) || (code c =? 178) || (code c =? 179)
  || (code c =? 181) || (code c =? 185) || (code c =? 186)
  || in_range 188 190 c || in_range 192 214 c
  || in_range 216 246 c || in_range 248 255 c.

(** [[^)]] and [[^,]] *)
Definition not_rparen (c : ascii) : bool := negb (Ascii.eqb c ")"%char).
Definition not_comma (c : ascii) : bool := negb (Ascii.eqb c ","%char).

(** Capture state: the groups closed so far and, for each group opened,
    the position at which it opened and the text still to be read
    there.  Positions count the characters read since the start of the
    match. *)
Record caps : Type := mkCaps {
  opened : list (nat * (nat * text));
  closed : list (nat * text)
}.

Definition no_caps : caps := mkCaps [] [].

Fixpoint assoc {A : Type} (n : nat) (l : list (nat * A)) : option A :=
  match l with
  | [] => None
  | (k, v) :: l' => if Nat.eqb k n then Some v else assoc n l'
  end.

Definition open_group (n pos : nat) (s : text) (st : caps) : caps :=
  mkCaps ((n, (pos, s)) :: opened st) (closed st).

Definition close_group (n pos : nat) (st : caps) : caps :=
  match assoc n (opened st) with
  | Some (pos0, s0) =>
      mkCaps (opened st) ((n, firstn (pos - pos0) s0) :: closed st)
  | None => st
  end.

(** [m.group(n)]; a group that took no part in the match expands to the
    empty string. *)
Definition group (n : nat) (st : caps) : text :=
  match assoc n (closed st) with
  | Some v => v
  | None => []
  end.

(** The greedy loop of a repetition: take characters of class [p] while
    possible, then try the continuation [k], giving characters back one by
    one while [k] fails. *)
Fixpoint greedy {A : Type} (p : ascii -> bool) (k : text -> nat -> option A)
  (s : text) (pos : nat) : option A :=
  match s with
  | x :: s' =>
      if p x
      then match greedy p k s' (S pos) with
           | Some res => Some res
           | None => k s pos
           end
      else k s pos
  | [] => k s pos
  end.

(** [mt r s pos st] tries [r] at the start of [s], which stands at
    position [pos] of the match; on success it returns the text left
    after the match and the captures. *)
Fixpoint mt (r : regex) (s : text) (pos : nat) (st : caps) {struct r}
  : option (text * caps) :=
  match r with
  | Done => Some (s, st)
  | Chr c r' =>
      match s with
      | x :: s' => if Ascii.eqb x c then mt r' s' (S pos) st else None
      | [] => None
      end
  | Star p r' => greedy p (fun s1 pos1 => mt r' s1 pos1 st) s pos
  | Plus p r' =>
      match s with
      | x :: s' =>
          if p x
          then greedy p (fun s1 pos1 => mt r' s1 pos1 st) s' (S pos)
          else None
      | [] => None
      end
  | Opt c r' =>
      match s with
      | x :: s' =>
          if Ascii.eqb x c
          then match mt r' s' (S pos) st with
               | Some res => Some res
               | None => mt r' s pos st
               end
          else mt r' s pos st
      | [] => mt r' s pos st
      end
  | Open n r' => mt r' s pos (open_group n pos s st)
  | Close n r' => mt r' s pos (close_group n pos st)
  | NotAhead q r' =>
      match mt q s pos st with
      | Some _ => None
      | None => mt r' s pos st
      end
  end.

(** A match of [r] at the start of [s]. *)
Definition match_at (r : regex) (s : text) : option (text * caps) :=
  mt r s 0 no_caps.

(** Replacement templates: literal text and group references [\n]. *)
Inductive titem : Type :=
| TLit (t : text)
| TGrp (n : nat).

Definition template := list titem.

Definition expand (tp : template) (st : caps) : text :=
  concat (map (fun i => match i with
                        | TLit t => t
                        | TGrp n => group n st
                        end) tp).

(** [re.sub(r, tp, s)]: matches are taken left to right and do not
    overlap; [skip] counts the characters of the current match still to
    be dropped.  None of the script's patterns matches the empty string. *)
Fixpoint sub_go (r : regex) (tp : template) (skip : nat) (s : text) : text :=
  match s with
  | [] => []
  | c :: s' =>
      match skip with
      | S k => sub_go r tp k s'
      | O =>
          match match_at r s with
          | Some (rest, st) =>
              expand tp st
              ++ (if length rest <? length s
                  then sub_go r tp (length s' - length rest) s'
                  else c :: sub_go r tp 0 s')
          | None => c :: sub_go r tp 0 s'
          end
      end
  end.

Definition re_sub (r : regex) (tp : template) (s : text) : text :=
  sub_go r tp 0 s.

(** [re.finditer(r, s)] as the list of [(m.start(), m.group(0))]. *)
Fixpoint finditer_go (r : regex) (skip pos : nat) (s : text)
  : list (nat * text) :=
  match s with
  | [] => []
  | _ :: s' =>
      match skip with
      | S k => finditer_go r k (S pos) s'
      | O =>
          match match_at r s with
          | Some (rest, _) =>
              (pos, firstn (length s - length rest) s)
              :: finditer_go r (length s' - length rest) (S pos) s'
          | None => finditer_go r 0 (S pos) s'
          end
      end
  end.

Definition finditer (r : regex) (s : text) : list (nat * text) :=
  finditer_go r 0 0 s.

(** A pattern written as the sequence of its parts. *)
Definition pat (parts : list (regex -> regex)) : regex :=
  fold_right (fun f r => f r) Done parts.

Definition group_of (n : nat) (parts : list (regex -> regex))
  : regex -> regex :=
  fun r => Open n (fold_right (fun f r => f r) (Close n r) parts).

Definition ws : regex -> regex := Star is_space.
Definition dq : ascii := "034"%char.

(** ** scripts/refactor_parser.py *)

Module Refactor.

(** ['#include "utils/allocators.h"\n'] *)
Definition includes : text :=
  T "#include " ++ [dq] ++ T "utils/allocators.h" ++ [dq] ++ [nl].

(** ['#include "parser/parser.h"'] *)
Definition anchor : text :=
  T "#include " ++ [dq] ++ T "parser/parser.h" ++ [dq].

(** [r'#include <stdlib\.h>\n'] *)
Definition stdlib_pattern : regex :=
  pat [lit (T "#include <stdlib.h>"); Chr nl].

Definition alloc_expr : string := "allocators_get(ALLOC_SYSTEM_PARSER)".

(** [r'malloc\s*\(\s*sizeof\s*\(\s*(\w+)\s*\)\s*\)'] *)
Definition malloc_sizeof : regex :=
  pat [lit (T "malloc"); ws; Chr "("; ws; lit (T "sizeof"); ws; Chr "(";
       ws; group_of 1 [Plus is_word]; ws; Chr ")"; ws; Chr ")"].

(** [r'malloc\s*\(\s*(\w+)\s*\*\s*sizeof\s*\(\s*(\w+\*?)\s*\)\s*\)'] *)
Definition malloc_array : regex :=
  pat [lit (T "malloc"); ws; Chr "("; ws; group_of 1 [Plus is_word]; ws;
       Chr "*"; ws; lit (T "sizeof"); ws; Chr "("; ws;
       group_of 2 [Plus is_word; Opt "*"]; ws; Chr ")"; ws; Chr ")"].

(** [r'calloc\s*\(\s*1\s*,\s*sizeof\s*\(\s*(\w+)\s*\)\s*\)'] *)
Definition calloc_one : regex :=
  pat [lit (T "calloc"); ws; Chr "("; ws; Chr "1"; ws; Chr ","; ws;
       lit (T "sizeof"); ws; Chr "("; ws; group_of 1 [Plus is_word]; ws;
       Chr ")"; ws; Chr ")"].

(** [r'calloc\s*\(\s*(\w+)\s*,\s*sizeof\s*\(\s*(\w+\*?)\s*\)\s*\)'] *)
Definition calloc_array : regex :=
  pat [lit (T "calloc"); ws; Chr "("; ws; group_of 1 [Plus is_word]; ws;
       Chr ","; ws; lit (T "sizeof"); ws; Chr "("; ws;
       group_of 2 [Plus is_word; Opt "*"]; ws; Chr ")"; ws; Chr ")"].

(** [r'malloc\s*\(\s*([^)]+)\s*\)(?!\s*\*\s*sizeof)'] *)
Definition malloc_simple : regex :=
  pat [lit (T "malloc"); ws; Chr "("; ws; group_of 1 [Plus not_rparen]; ws;
       Chr ")";
       NotAhead (pat [ws; Chr "*"; ws; lit (T "sizeof")])].

(** [r'strdup\s*\(\s*([^)]+)\s*\)'] *)
Definition strdup_call : regex :=
  pat [lit (T "strdup"); ws; Chr "("; ws; group_of 1 [Plus not_rparen]; ws;
       Chr ")"].

(** [r'MEM_NEW(allocators_get(ALLOC_SYSTEM_PARSER), \1)'] *)
Definition mem_new : template :=
  [TLit (T "MEM_NEW(allocators_get(ALLOC_SYSTEM_PARSER), "); TGrp 1;
   TLit (T ")")].

(** [r'MEM_NEW_ARRAY(allocators_get(ALLOC_SYSTEM_PARSER), \2, \1)'] *)
Definition mem_new_array : template :=
  [TLit (T "MEM_NEW_ARRAY(allocators_get(ALLOC_SYSTEM_PARSER), "); TGrp 2;
   TLit (T ", "); TGrp 1; TLit (T ")")].

(** [r'MEM_ALLOC(allocators_get(ALLOC_SYSTEM_PARSER), \1)'] *)
Definition mem_alloc : template :=
  [TLit (T "MEM_ALLOC(allocators_get(ALLOC_SYSTEM_PARSER), "); TGrp 1;
   TLit (T ")")].

(** [r'MEM_STRDUP(allocators_get(ALLOC_SYSTEM_PARSER), \1)'] *)
Definition mem_strdup : template :=
  [TLit (T "MEM_STRDUP(allocators_get(ALLOC_SYSTEM_PARSER), "); TGrp 1;
   TLit (T ")")].

Definition replacements : list (regex * template) :=
  [ (malloc_sizeof, mem_new);
    (malloc_array, mem_new_array);
    (calloc_one, mem_new);
    (calloc_array, mem_new_array);
    (malloc_simple, mem_alloc);
    (strdup_call, mem_strdup) ].

(** [r'free\s*\(\s*([^)]+)\s*\)'] *)
Definition free_pattern : regex :=
  pat [lit (T "free"); ws; Chr "("; ws; group_of 1 [Plus not_rparen]; ws;
       Chr ")"].

(** [r'realloc\s*\(\s*([^,]+)\s*,\s*([^)]+)\s*\)'] *)
Definition realloc_pattern : regex :=
  pat [lit (T "realloc"); ws; Chr "("; ws; group_of 1 [Plus not_comma]; ws;
       Chr ","; ws; group_of 2 [Plus not_rparen]; ws; Chr ")"].

(** The text after the include injection and the removal of stdlib.h. *)
Definition fix_includes (content : text) : text :=
  let content := py_replace_n content anchor (anchor ++ [nl] ++ includes) 1 in
  re_sub stdlib_pattern [] content.

(** [for pattern, replacement in replacements:
       content = re.sub(pattern, replacement, content)] *)
Definition apply_rules (rules : list (regex * template)) (content : text)
  : text :=
  fold_left (fun c pr => re_sub (fst pr) (snd pr) c) rules content.

(** One printed line of a report: [line_num] and [match.group(0)]. *)
Definition report_line (content : text) (m : nat * text) : nat * text :=
  (count_nl (firstn (fst m) content) + 1, snd m).

Definition report (p : regex) (content : text) : list (nat * text) :=
  map (report_line content) (finditer p content).

(** What [refactor_parser_memory] returns and what it prints. *)
Record outcome : Type := mkOutcome {
  returned : text;
  free_report : list (nat * text);
  realloc_report : list (nat * text)
}.

Definition refactor_parser_memory (content : text) : outcome :=
  let content := fix_includes content in
  let content := apply_rules replacements content in
  mkOutcome content
            (report free_pattern content)
            (report realloc_pattern content).

Definition lines (l : list string) : text :=
  concat (map (fun x => T x ++ [nl]) l).

Definition helpers : text :=
  nl :: lines
  [ "// Helper function to duplicate token lexeme using parser allocator";
    "static char* parser_strdup_lexeme(const char* lexeme, size_t length)";
    "{";
    "    Allocator* alloc = allocators_get(ALLOC_SYSTEM_PARSER);";
    "    char* result = MEM_ALLOC(alloc, length + 1);";
    "    if (result) {";
    "        memcpy(result, lexeme, length);";
    "        result[length] = '\0';";
    "    }";
    "    return result;";
    "}";
    "";
    "// Helper to free string allocated by parser";
    "static void parser_free_string(char* str)";
    "{";
    "    if (str) {";
    "        Allocator* alloc = allocators_get(ALLOC_SYSTEM_PARSER);";
    "        MEM_FREE(alloc, str, strlen(str) + 1);";
    "    }";
    "}";
    "" ]%string.

Definition add_allocator_helpers (content : text) : text :=
  let insert_pos :=
    py_find content [nl; nl] (py_find content (T "#include") 0) in
  if (0 <? insert_pos)%Z
  then firstn (Z.to_nat insert_pos) content ++ [nl] ++ helpers
       ++ skipn (Z.to_nat insert_pos) content
  else content.

(** The text written by the command line. *)
Definition pipeline (content : text) : text :=
  add_allocator_helpers (returned (refactor_parser_memory content)).

(** [filename.replace('.c', '_refactored.c')] *)
Definition output_filename (filename : text) : text :=
  py_replace filename (T ".c") (T "_refactored.c").

End Refactor.

(** ** generate_large_module.py *)

Module Generator.

(** [str(n)] for a non-negative integer. *)
Definition str (n : nat) : text :=
  T (NilZero.string_of_uint (Nat.to_uint n)).

Definition header (num : nat) : text :=
  T "// Large module for performance testing" ++ [nl]
  ++ T "// This module contains " ++ str num
  ++ T " functions to test compilation and loading performance" ++ [nl]
  ++ [nl].

Definition private_helper (i : nat) : text :=
  T "func privateHelper" ++ str i ++ T "(x) {" ++ [nl]
  ++ T "    let result = x * " ++ str (i + 1) ++ [nl]
  ++ T "    return result" ++ [nl]
  ++ T "}" ++ [nl]
  ++ [nl].

Definition public_function (i : nat) : text :=
  T "export func publicFunction" ++ str i ++ T "(a, b) {" ++ [nl]
  ++ T "    let temp = privateHelper" ++ str (i mod 10) ++ T "(a)" ++ [nl]
  ++ T "    return temp + b" ++ [nl]
  ++ T "}" ++ [nl]
  ++ [nl].

Definition footer (num : nat) : text :=
  T "// Module initialization" ++ [nl]
  ++ T "print(" ++ [dq] ++ T "[Large Module] Loaded with " ++ str num
  ++ T " functions" ++ [dq] ++ T ")" ++ [nl].

(** [for i in range(k): code += block(i)] *)
Definition append_blocks (block : nat -> text) (k : nat) (code : text)
  : text :=
  fold_left (fun c i => c ++ block i) (seq 0 k) code.

Definition generate_large_module (num_functions : nat) : text :=
  let code := header num_functions in
  let code := append_blocks private_helper (num_functions / 2) code in
  let code := append_blocks public_function (num_functions / 2) code in
  code ++ footer num_functions.

End Generator.

(** ** The command lines

    The file system is a map from file names to contents, a content
    being the characters that the file stores.  Reading a name that is
    not there raises an error that the scripts do not catch.  Three
    things are taken for granted: the stored characters are the ones that
    [open] decodes and encodes (one character for each byte), writing
    succeeds, and the line separator of the platform is the newline
    character, so that [open(name, 'w')] stores the text it is given as
    it is.  [open(name, 'r')] reads with universal newlines: see
    [universal_newlines].  What a script prints is the list of the texts
    given to [print], each of which ends a line. *)

Definition disk := text -> option text.

Definition write (d : disk) (name content : text) : disk :=
  fun n => if list_eq_dec ascii_dec n name then Some content else d n.

Definition cr : ascii := "013"%char.

(** What [f.read()] returns for the stored characters [s] of a file
    opened by [open(name, 'r')]: a carriage return followed by a newline
    is read as one newline, and any other carriage return as a newline.
    [after_cr] tells that the character before was a carriage return. *)
Fixpoint read_newlines (after_cr : bool) (s : text) : text :=
  match s with
  | [] => []
  | c :: s' =>
      if Ascii.eqb c cr then nl :: read_newlines true s'
      else if Ascii.eqb c nl then
        if after_cr then read_newlines false s'
        else nl :: read_newlines false s'
      else c :: read_newlines false s'
  end.

Definition universal_newlines (s : text) : text := read_newlines false s.

(** How a run ends: [sys.exit(code)], the end of the script (exit status
    0), or an error raised by [open]. *)
Inductive status : Type :=
| Exit (code : nat)
| Finished
| Raised.

Record run : Type := mkRun {
  stdout : list text;
  files : disk;
  ended : status
}.

Module RefactorMain.

Import Refactor.

(** [print(f"Found {len(matches)} ...")] and one line for each match,
    when there are matches. *)
Definition print_report (before after : text) (rep : list (nat * text))
  : list text :=
  match rep with
  | [] => []
  | _ :: _ =>
      (before ++ Generator.str (length rep) ++ after)
      :: map (fun m => T "  Line ~" ++ Generator.str (fst m) ++ T ": "
                       ++ snd m) rep
  end.

(** What [refactor_parser_memory] prints. *)
Definition printed (o : outcome) : list text :=
  print_report (T "Found ")
    (T " free() calls that need manual size tracking:") (free_report o)
  ++ print_report ([nl] ++ T "Found ")
       (T " realloc() calls that need special handling:")
       (realloc_report o).

Definition usage : text := T "Usage: python refactor_parser.py <parser.c>".

Definition closing (output_name : text) : list text :=
  [ [nl] ++ T "Refactored parser written to: " ++ output_name;
    [nl] ++ T "Manual review needed for:";
    T "1. All free() calls - need to track sizes";
    T "2. All realloc() calls - need old and new sizes";
    T "3. Complex allocation patterns";
    T "4. Ensure all allocations use ALLOC_SYSTEM_PARSER" ].

(** The script run with [sys.argv = argv] on the file system [d];
    [content = f.read()] is the stored text with its line ends read as
    newlines. *)
Definition main (argv : list text) (d : disk) : run :=
  match argv with
  | [_; filename] =>
      match d filename with
      | None => mkRun [] d Raised
      | Some stored =>
          let content := universal_newlines stored in
          let o := refactor_parser_memory content in
          let content := add_allocator_helpers (returned o) in
          let out := output_filename filename in
          mkRun (printed o ++ closing out) (write d out content) Finished
      end
  | _ => mkRun [usage] d (Exit 1)
  end.

End RefactorMain.

Module GeneratorMain.

Import Generator.

(** [f"large_module_{size}.swift"] *)
Definition module_filename (size : nat) : text :=
  T "large_module_" ++ str size ++ T ".swift".

(** [f"Generated {filename} with {size} functions"] *)
Definition generated_line (size : nat) : text :=
  T "Generated " ++ module_filename size ++ T " with " ++ str size
  ++ T " functions".

(** [for size in sizes: ...] *)
Definition write_modules (sizes : list nat) (r : run) : run :=
  fold_left
    (fun r size =>
       mkRun (stdout r ++ [generated_line size])
             (write (files r) (module_filename size)
                    (generate_large_module size))
             (ended r))
    sizes r.

Definition sizes : list nat := [100; 500; 1000].

Definition main (d : disk) : run := write_modules sizes (mkRun [] d Finished).

End GeneratorMain.

(** ** Vocabulary of the statements *)

(** The two helper definitions as they stand in the output after the
    blank line: the text of [helpers] without its leading newline, and
    the blank line that then precedes the rest of the file. *)
Definition helper_block : text := tl Refactor.helpers ++ [nl; nl].

(** [a] can be continued to a text that starts with [p]. *)
Fixpoint compat (p a : text) : bool :=
  match p, a with
  | c :: p', x :: a' => Ascii.eqb x c && compat p' a'
  | _, _ => true
  end.

(** No occurrence of [p] starts inside [a], whatever follows [a]. *)
Fixpoint clean (p a : text) : bool :=
  match a with
  | [] => true
  | _ :: a' => negb (compat p a) && clean p a'
  end.

(** The places of the generated module the statements look at: the name
    of a private helper, the factor it multiplies by, the name of an
    exported function and the helper it calls. *)
Definition helper_name : text := T "func privateHelper".
Definition helper_factor : text := T "let result = x * ".
Definition export_name : text := T "export func publicFunction".
Definition helper_call : text := T "let temp = privateHelper".

(** ** Declarative reading of the patterns *)

(** [M r s rest]: the pattern [r] can read a prefix of [s] and leave
    [rest], whatever the choices of the repetitions; lookaheads are not
    looked at. *)
Inductive M : regex -> text -> text -> Prop :=
| M_done s : M Done s s
| M_chr c r s rest : M r s rest -> M (Chr c r) (c :: s) rest
| M_star_stop p r s rest : M r s rest -> M (Star p r) s rest
| M_star_more p r x s rest :
    p x = true -> M (Star p r) s rest -> M (Star p r) (x :: s) rest
| M_plus p r x s rest :
    p x = true -> M (Star p r) s rest -> M (Plus p r) (x :: s) rest
| M_opt_take c r s rest : M r s rest -> M (Opt c r) (c :: s) rest
| M_opt_skip c r s rest : M r s rest -> M (Opt c r) s rest
| M_open n r s rest : M r s rest -> M (Open n r) s rest
| M_close n r s rest : M r s rest -> M (Close n r) s rest
| M_notahead q r s rest : M r s rest -> M (NotAhead q r) s rest.

(** The points of a pattern at which the reading of a text can stand. *)
Fixpoint states (r : regex) : list regex :=
  r :: match r with
       | Done => []
       | Chr _ r' => states r'
       | Star _ r' => states r'
       | Plus p r' => Star p r' :: states r'
       | Opt _ r' => states r'
       | Open _ r' => states r'
       | Close _ r' => states r'
       | NotAhead _ r' => states r'
       end.

(** The loop of a repetition in [alive]. *)
Fixpoint alive_loop (k : text -> bool -> bool) (p : ascii -> bool)
  (t : text) (c : bool) : bool :=
  if k t c then true
  else match t with
       | x :: t' => if p x then alive_loop k p t' true else false
       | [] => c
       end.

(** [alive q t c]: some reading of [q] takes at least one character of
    [t] ([c] tells that one was taken already) and ends inside [t] or
    runs over its end. *)
Fixpoint alive (q : regex) (t : text) (c : bool) {struct q} : bool :=
  match q with
  | Done => c
  | Chr a r =>
      match t with
      | x :: t' => if Ascii.eqb x a then alive r t' true else false
      | [] => c
      end
  | Star p r => alive_loop (alive r) p t c
  | Plus p r =>
      match t with
      | x :: t' => if p x then alive_loop (alive r) p t' true else false
      | [] => c
      end
  | Opt a r =>
      if alive r t c then true
      else match t with
           | x :: t' => if Ascii.eqb x a then alive r t' true else false
           | [] => c
           end
  | Open _ r => alive r t c
  | Close _ r => alive r t c
  | NotAhead _ r => alive r t c
  end.

(** No match of [r] that starts before an occurrence of [t] reaches into
    it. *)
Definition apart (r : regex) (t : text) : bool :=
  forallb (fun q => if alive q t false then false else true) (tl (states r)).

(** The literal text a pattern starts with. *)
Fixpoint head_lit (r : regex) : text :=
  match r with
  | Chr c r' => c :: head_lit r'
  | _ => []
  end.

(** The shape of the patterns with a [[^)]+] argument:
    [name\s*\(\s*([^)]+)\s*\)] followed by [tail]. *)
Definition call_re (name : text) (tail : regex) : regex :=
  lit name (ws (Chr "(" (ws (Open 1 (Plus not_rparen (Close 1
    (ws (Chr ")" tail)))))))).

(** [t] cut at its first closing parenthesis. *)
Fixpoint cut_rparen (t : text) : text * text :=
  match t with
  | [] => ([], [])
  | c :: t' =>
      if Ascii.eqb c ")"%char then ([], t')
      else let (a, b) := cut_rparen t' in (c :: a, b)
  end.

Definition has_rparen (t : text) : bool :=
  existsb (Ascii.eqb ")"%char) t.

Definition mem (c : ascii) (l : text) : bool := existsb (Ascii.eqb c) l.

(** The call sites the statements speak of. *)
Definition array_call : text :=
  T "MEM_NEW_ARRAY(allocators_get(ALLOC_SYSTEM_PARSER), Bar, n)".
Definition plain_malloc : text := T "malloc(100)".
Definition plain_call : text :=
  T "MEM_ALLOC(allocators_get(ALLOC_SYSTEM_PARSER), 100)".

(** No occurrence of [l] in [pre ++ rest] starts inside [pre]. *)
Definition quiet (l pre rest : text) : Prop :=
  forall a1 a2, pre = a1 ++ a2 -> a2 <> [] ->
                starts_with l (a2 ++ rest) = false.

(** The non-empty proper suffixes of a text. *)
Fixpoint proper_suffixes (l : text) : list text :=
  match l with
  | [] => []
  | _ :: l' =>
      match l' with
      | [] => []
      | _ :: _ => l' :: proper_suffixes l'
      end
  end.

(** No occurrence of [l] can end inside the start of [t]. *)
Definition no_overhang (l t : text) : bool :=
  forallb (fun l2 => negb (compat l2 t)) (proper_suffixes l).

(** None of the texts [ls] occurs in [s]. *)
Definition free_of (ls : list text) (s : text) : bool :=
  forallb (fun l => negb (contains l s)) ls.

(** ['#include <stdlib.h>\n'] *)
Definition stdlib_line : text := T "#include <stdlib.h>" ++ [nl].

(** The texts the rewriting steps look for, and those the two reports
    look for. *)
Definition rewrite_targets : list text :=
  [Refactor.anchor; stdlib_line; T "malloc"; T "calloc"; T "strdup"].

Definition report_targets : list text := [T "free"; T "realloc"].

(** [\s*\*\s*sizeof], the suffix the generic rule refuses. *)
Definition sizeof_suffix : regex :=
  pat [ws; Chr "*"; ws; lit (T "sizeof")].

(** [r] followed by [tail]. *)
Fixpoint followed (r tail : regex) : regex :=
  match r with
  | Done => tail
  | Chr c r' => Chr c (followed r' tail)
  | Star p r' => Star p (followed r' tail)
  | Plus p r' => Plus p (followed r' tail)
  | Opt c r' => Opt c (followed r' tail)
  | Open n r' => Open n (followed r' tail)
  | Close n r' => Close n (followed r' tail)
  | NotAhead q r' => NotAhead q (followed r' tail)
  end.

(** No rewriting step finds anything in [t] or across its start. *)
Definition idle (t : text) : bool :=
  forallb (fun l => no_overhang l t && clean l t) rewrite_targets.

(** The patterns the claims call target patterns. *)
Definition all_targets : list text :=
  [T "malloc"; T "calloc"; T "realloc"; T "free"; T "strdup"; stdlib_line].

(** The text the include injection puts after the anchor. *)
Definition injected : text := [nl] ++ Refactor.includes.

(** The number a text of decimal digits stands for. *)
Definition nat_of_text (t : text) : option nat :=
  option_map Nat.of_uint (NilZero.uint_of_string (string_of_list_ascii t)).

(** The texts before the counts that the generated header and footer
    state, and the start of any function definition. *)
Definition header_count : text := T "// This module contains ".
Definition footer_count : text := T "Loaded with ".
Definition any_function : text := T "func ".

(** The names the six substitution rules start with, and the two texts
    the include steps look for. *)
Definition call_names : list text := [T "malloc"; T "calloc"; T "strdup"].
Definition include_targets : list text := [Refactor.anchor; stdlib_line].

(** The call sites the rules are written for, with any type name, count
    or argument, and the calls the rules put in their place. *)
Definition sizeof_malloc (ty : text) : text :=
  T "malloc(sizeof(" ++ ty ++ T "))".
Definition sizeof_calloc (ty : text) : text :=
  T "calloc(1, sizeof(" ++ ty ++ T "))".
Definition times_malloc (n ty : text) : text :=
  T "malloc(" ++ n ++ T " * sizeof(" ++ ty ++ T "))".
Definition times_calloc (n ty : text) : text :=
  T "calloc(" ++ n ++ T ", sizeof(" ++ ty ++ T "))".
Definition arg_malloc (arg : text) : text := T "malloc(" ++ arg ++ T ")".
Definition arg_strdup (arg : text) : text := T "strdup(" ++ arg ++ T ")".

Definition new_call (ty : text) : text :=
  T "MEM_NEW(allocators_get(ALLOC_SYSTEM_PARSER), " ++ ty ++ T ")".
Definition new_array_call (ty n : text) : text :=
  T "MEM_NEW_ARRAY(allocators_get(ALLOC_SYSTEM_PARSER), " ++ ty ++ T ", "
  ++ n ++ T ")".
Definition alloc_call (arg : text) : text :=
  T "MEM_ALLOC(allocators_get(ALLOC_SYSTEM_PARSER), " ++ arg ++ T ")".
Definition strdup_result (arg : text) : text :=
  T "MEM_STRDUP(allocators_get(ALLOC_SYSTEM_PARSER), " ++ arg ++ T ")".

(** A text that [\w+] reads as a whole. *)
Definition is_name (w : text) : bool :=
  match w with
  | [] => false
  | _ :: _ => forallb is_word w
  end.

Definition word_or_space (c : ascii) : bool := is_word c || is_space c.

(** The shape all six rules have: a name, [\s*], an opening parenthesis
    and the rest of the pattern. *)
Definition call_rule (name : text) (r : regex) : Prop :=
  exists r', r = lit name (ws (Chr "("%char r')).

(** [x] is neither [c] nor [d]. *)
Definition neither (c d x : ascii) : bool :=
  negb (Ascii.eqb x c || Ascii.eqb x d).

Definition no_paren (t : text) : bool :=
  forallb (neither "("%char ")"%char) t.

(** Whatever [r] reads holds the character [c], with neither [c] nor [d]
    before it. *)
Fixpoint reads_first (c d : ascii) (r : regex) : bool :=
  match r with
  | Done => false
  | Chr a r' =>
      if Ascii.eqb a c then true
      else if Ascii.eqb a d then false
      else reads_first c d r'
  | Star p r' => negb (p c) && negb (p d) && reads_first c d r'
  | Plus p r' => negb (p c) && negb (p d) && reads_first c d r'
  | Opt a r' => neither c d a && reads_first c d r'
  | Open _ r' => reads_first c d r'
  | Close _ r' => reads_first c d r'
  | NotAhead _ r' => reads_first c d r'
  end.

(** An argument that [\s*([^)]+)\s*\)] reads as a whole: it is not empty,
    does not start with white space and holds no parenthesis. *)
Definition plain_arg (arg : text) : bool :=
  match arg with
  | [] => false
  | c :: _ => negb (is_space c) && no_paren arg
  end.

(** [malloc(sizeof(T))] with white space at the six places where the
    first rule allows it. *)
Definition spaced_sizeof_malloc (s1 s2 s3 s4 s5 s6 ty : text) : text :=
  T "malloc" ++ s1 ++ T "(" ++ s2 ++ T "sizeof" ++ s3 ++ T "(" ++ s4
  ++ ty ++ s5 ++ T ")" ++ s6 ++ T ")".

Definition all_spaces (l : list text) : bool := forallb (forallb is_space) l.

(** A call of realloc with two arguments. *)
Definition realloc_of (a b : text) : text :=
  T "realloc(" ++ (a ++ T ", " ++ b) ++ T ")".

(** The two lines printed for one reported realloc call. *)
Definition realloc_lines (line : nat) (call : text) : list text :=
  [ [nl] ++ T "Found 1 realloc() calls that need special handling:";
    T "  Line ~" ++ Generator.str line ++ T ": " ++ call ].

(** An array allocation whose count is an expression in parentheses. *)
Definition grouped_malloc (inner ty : text) : text :=
  T "malloc((" ++ inner ++ T ") * sizeof(" ++ ty ++ T "))".

(** A call of free with one argument, and the two lines printed for one
    reported free call. *)
Definition free_of_arg (arg : text) : text := T "free(" ++ arg ++ T ")".

Definition free_lines (line : nat) (call : text) : list text :=
  [ T "Found 1 free() calls that need manual size tracking:";
    T "  Line ~" ++ Generator.str line ++ T ": " ++ call ].

(** The part of [a] after its last closing parenthesis: all of [a] when
    it has none. *)
Fixpoint open_tail (a : text) : text :=
  match a with
  | [] => []
  | c :: a' => if has_rparen (c :: a') then open_tail a' else c :: a'
  end.

Fixpoint drop_spaces (s : text) : text :=
  match s with
  | [] => []
  | c :: s' => if is_space c then drop_spaces s' else c :: s'
  end.

(** [y] begins with [name], white space and an opening parenthesis. *)
Definition calls (name y : text) : bool :=
  starts_with name y
  && match drop_spaces (skipn (length name) y) with
     | c :: _ => Ascii.eqb c "("%char
     | [] => false
     end.

Fixpoint any_suffix (f : text -> bool) (s : text) : bool :=
  f s || match s with
         | [] => false
         | _ :: s' => any_suffix f s'
         end.

(** A call of [name] is begun in [a] and not closed: [name], white space
    and an opening parenthesis stand after the last closing parenthesis
    of [a]. *)
Definition open_call (name a : text) : bool :=
  any_suffix (calls name) (open_tail a).

(** No call of [malloc], [calloc] or [strdup] begins in [arg]. *)
Definition no_call (arg : text) : bool :=
  forallb (fun name => negb (any_suffix (calls name) arg)) call_names.

(** The text without its stdlib.h lines: the second step of
    [fix_includes]. *)
Definition without_stdlib (s : text) : text :=
  re_sub Refactor.stdlib_pattern [] s.

(** The pattern reads nothing. *)
Fixpoint silent (r : regex) : bool :=
  match r with
  | Done => true
  | Open _ r' => silent r'
  | Close _ r' => silent r'
  | NotAhead _ r' => silent r'
  | _ => false
  end.

(** The last character that the pattern reads is a closing
    parenthesis. *)
Fixpoint ends_rparen (r : regex) : bool :=
  match r with
  | Done => false
  | Chr c r' => if silent r' then Ascii.eqb c ")"%char else ends_rparen r'
  | Star _ r' => ends_rparen r'
  | Plus _ r' => ends_rparen r'
  | Opt _ r' => ends_rparen r'
  | Open _ r' => ends_rparen r'
  | Close _ r' => ends_rparen r'
  | NotAhead _ r' => ends_rparen r'
  end.

(** * Properties *)

(** ** Occurrences of a text in a text *)

(** [sub] occurs in [s] at index [i]. *)
Definition occurs_at (sub s : text) (i : nat) : Prop :=
  i <= length s /\ starts_with sub (skipn i s) = true.

(** [p] is the first index at or after [q] where [sub] occurs. *)
Definition first_from (sub s : text) (q p : nat) : Prop :=
  q <= p /\ occurs_at sub s p /\
  forall j, q <= j < p -> ~ occurs_at sub s j.

Lemma starts_with_app (p s : text) : starts_with p (p ++ s) = true.
Proof.
  induction p as [|c p IH]; simpl; [reflexivity|].
  now rewrite Ascii.eqb_refl.
Qed.

Lemma starts_with_split (p s : text) :
  starts_with p s = true -> s = p ++ skipn (length p) s.
Proof.
  revert s; induction p as [|c p IH]; intros [|x s]; simpl; try easy.
  destruct (Ascii.eqb_spec x c) as [->|]; simpl; [|easy].
  intros H; f_equal; now apply IH.
Qed.

Lemma starts_with_short (p s : text) :
  length s < length p -> starts_with p s = false.
Proof.
  revert s; induction p as [|c p IH]; intros [|x s]; simpl; try lia; auto.
  intros H; rewrite IH by lia. apply andb_false_r.
Qed.

Lemma find_at_short (sub s : text) (b : nat) :
  length s < length sub -> find_at sub s b = None.
Proof.
  revert b; induction s as [|x s IH]; intros b H; simpl.
  - now rewrite starts_with_short.
  - rewrite starts_with_short by exact H.
    apply IH; simpl in H; lia.
Qed.

Lemma find_at_some (sub s : text) (b i : nat) :
  find_at sub s b = Some i ->
  exists k, i = b + k /\ occurs_at sub s k /\
            forall j, j < k -> ~ occurs_at sub s j.
Proof.
  revert b i; induction s as [|x s IH]; intros b i; simpl.
  - destruct (starts_with sub []) eqn:E; [|discriminate].
    intros [= <-]; exists 0; repeat split; auto with arith; lia.
  - destruct (starts_with sub (x :: s)) eqn:E.
    + intros [= <-]; exists 0; repeat split; auto with arith; lia.
    + intros H; apply IH in H as (k & -> & [Hk Ho] & Hm).
      exists (S k); repeat split; simpl; try lia; auto.
      intros [|j] Hj [Hl Hs]; simpl in Hs; [congruence|].
      apply (Hm j); [lia|]. split; [simpl in Hl; lia | exact Hs].
Qed.

Lemma find_at_none (sub s : text) (b : nat) :
  find_at sub s b = None -> forall j, ~ occurs_at sub s j.
Proof.
  revert b; induction s as [|x s IH]; intros b; simpl.
  - destruct (starts_with sub []) eqn:E; [discriminate|].
    intros _ j [Hl Hs]; simpl in Hl.
    assert (j = 0) by lia; subst; simpl in Hs; congruence.
  - destruct (starts_with sub (x :: s)) eqn:E; [discriminate|].
    intros H [|j] [Hl Hs]; simpl in *; [congruence|].
    apply (IH _ H j); split; [lia | exact Hs].
Qed.

Lemma occurs_at_skipn (sub s : text) (k j : nat) :
  k <= length s ->
  occurs_at sub (skipn k s) j <-> occurs_at sub s (k + j).
Proof.
  intros Hk; unfold occurs_at.
  rewrite skipn_skipn, length_skipn, (Nat.add_comm j k).
  split; intros [H1 H2]; split; auto; lia.
Qed.

(** [s.find(sub, q)] for an index [q] inside [s]. *)
Lemma py_find_some (s sub : text) (q p : nat) :
  first_from sub s q p -> py_find s sub (Z.of_nat q) = Z.of_nat p.
Proof.
  intros (Hq & [Hl Ho] & Hm).
  unfold py_find, clamp_start.
  destruct (Z.ltb_spec (Z.of_nat q) 0); [lia|].
  destruct (Z.ltb_spec (Z.of_nat (length s)) (Z.of_nat q)); [lia|].
  rewrite Nat2Z.id.
  destruct (find_at sub (skipn q s) q) as [i|] eqn:E.
  - apply find_at_some in E as (k & -> & Hk & Hmin).
    apply occurs_at_skipn in Hk; [|lia].
    destruct (Nat.lt_trichotomy (q + k) p) as [Hlt|[->|Hgt]]; auto.
    + exfalso; apply (Hm (q + k)); [lia | exact Hk].
    + exfalso; apply (Hmin (p - q)); [lia|].
      apply occurs_at_skipn; [lia|].
      replace (q + (p - q)) with p by lia. now split.
  - exfalso; apply (find_at_none _ _ _ E (p - q)).
    apply occurs_at_skipn; [lia|].
    replace (q + (p - q)) with p by lia. now split.
Qed.

Lemma py_find_none (s sub : text) (q : nat) :
  (forall p, q <= p -> ~ occurs_at sub s p) ->
  py_find s sub (Z.of_nat q) = (-1)%Z.
Proof.
  intros Hn. unfold py_find, clamp_start.
  destruct (Z.ltb_spec (Z.of_nat q) 0); [lia|].
  destruct (Z.ltb_spec (Z.of_nat (length s)) (Z.of_nat q)); [reflexivity|].
  rewrite Nat2Z.id.
  destruct (find_at sub (skipn q s) q) as [i|] eqn:E; [|reflexivity].
  apply find_at_some in E as (k & -> & Hk & _).
  apply occurs_at_skipn in Hk; [|lia].
  exfalso; apply (Hn (q + k)); [lia | exact Hk].
Qed.

(** [s.find(sub, -1)] looks at the last character only. *)
Lemma py_find_from_minus_one (s sub : text) :
  2 <= length sub -> py_find s sub (-1) = (-1)%Z.
Proof.
  intros Hs. unfold py_find.
  replace (clamp_start (-1) (length s))
    with (Z.max 0 (-1 + Z.of_nat (length s))) by reflexivity.
  destruct (Z.ltb_spec (Z.of_nat (length s))
              (Z.max 0 (-1 + Z.of_nat (length s)))); [reflexivity|].
  rewrite find_at_short; [reflexivity|].
  rewrite length_skipn. lia.
Qed.

Lemma find_at_contains (sub s : text) (b : nat) :
  contains sub s = false -> find_at sub s b = None.
Proof.
  revert b; induction s as [|x s IH]; intros b; simpl;
    destruct (starts_with sub _); simpl; try discriminate; auto.
Qed.

Lemma first_from_find (sub s : text) (q p : nat) :
  q <= length s ->
  find_at sub (skipn q s) q = Some p -> first_from sub s q p.
Proof.
  intros Hq E. apply find_at_some in E as (k & -> & Hk & Hmin).
  repeat split; [lia | apply occurs_at_skipn in Hk; [apply Hk | lia]
                | apply occurs_at_skipn in Hk; [apply Hk | lia] |].
  intros j Hj Ho. apply (Hmin (j - q)); [lia|].
  apply occurs_at_skipn; [lia|].
  now replace (q + (j - q)) with j by lia.
Qed.

Lemma firstn_skipn_two (s : text) (p : nat) :
  occurs_at [nl; nl] s p ->
  skipn p s = nl :: nl :: skipn (p + 2) s /\
  firstn (p + 2) s = firstn p s ++ [nl; nl].
Proof.
  intros [Hl Hs]. apply starts_with_split in Hs.
  rewrite skipn_skipn in Hs. simpl in Hs.
  rewrite (Nat.add_comm p 2). split; [exact Hs|].
  rewrite <- (firstn_skipn p s) at 1.
  rewrite firstn_app, firstn_firstn.
  replace (Nat.min (2 + p) p) with p by lia.
  rewrite length_firstn.
  replace (2 + p - Nat.min p (length s)) with 2 by lia.
  now rewrite Hs.
Qed.

Section AddAllocatorHelpers.

Import Refactor.

(** C10: a text without any [#include] is returned unchanged by
    [add_allocator_helpers]: the search for the blank line then starts
    at index -1, the last character, where two newlines cannot fit. *)
Theorem add_allocator_helpers_without_include (content : text) :
  contains (T "#include") content = false ->
  add_allocator_helpers content = content.
Proof.
  intros H. unfold add_allocator_helpers.
  assert (E : py_find content (T "#include") 0 = (-1)%Z).
  { apply (py_find_none content (T "#include") 0).
    intros p _. apply (find_at_none _ _ 0). now apply find_at_contains. }
  rewrite E, py_find_from_minus_one by (simpl; lia).
  reflexivity.
Qed.

Lemma add_allocator_helpers_without_include_witness :
  contains (T "#include") (T "int x;

int y;") = false /\
  add_allocator_helpers (T "int x;

int y;") = T "int x;

int y;".
Proof.
  split; [reflexivity|].
  apply add_allocator_helpers_without_include. reflexivity.
Defined.

Lemma helpers_inserted (content : text) (q : nat) :
  first_from (T "#include") content 0 q ->
  (forall p, first_from [nl; nl] content q p ->
     add_allocator_helpers content
     = firstn (p + 2) content ++ helper_block ++ skipn (p + 2) content)
  /\ ((forall p, q <= p -> ~ occurs_at [nl; nl] content p) ->
      add_allocator_helpers content = content).
Proof.
  intros Hq. unfold add_allocator_helpers.
  pose proof (py_find_some content (T "#include") 0 q Hq) as E.
  change (Z.of_nat 0) with 0%Z in E. rewrite E. clear E.
  split.
  - intros p Hp. rewrite (py_find_some content [nl; nl] q p Hp).
    destruct Hp as (Hqp & Ho & _).
    destruct (Z.ltb_spec 0 (Z.of_nat p)) as [Hpos|Hz].
    + rewrite Nat2Z.id.
      destruct (firstn_skipn_two content p Ho) as [Hs Hf].
      rewrite Hf, Hs. unfold helper_block.
      change helpers with (nl :: tl helpers).
      rewrite <- !app_assoc. reflexivity.
    + exfalso. assert (p = 0) by lia; subst p.
      assert (q = 0) by lia; subst q.
      destruct Hq as (_ & [_ H1] & _), Ho as [_ H2].
      simpl skipn in *. destruct content as [|c content]; [discriminate|].
      simpl in H1, H2.
      destruct (Ascii.eqb_spec c "#"); [subst c; discriminate|discriminate].
  - intros Hn. now rewrite (py_find_none content [nl; nl] q Hn).
Qed.

(** C3: when [q] is the index of the first [#include], the helper block
    is inserted right after the first blank line at or after [q] (the
    two newlines at [p] and [p + 1]); when no blank line follows, the
    text is returned unchanged. *)
Theorem add_allocator_helpers_after_blank_line (content : text) (q : nat) :
  first_from (T "#include") content 0 q ->
  (forall p, first_from [nl; nl] content q p ->
     add_allocator_helpers content
     = firstn (p + 2) content ++ helper_block ++ skipn (p + 2) content)
  /\ ((forall p, q <= p -> ~ occurs_at [nl; nl] content p) ->
      add_allocator_helpers content = content).
Proof. exact (helpers_inserted content q). Qed.

Lemma add_allocator_helpers_after_blank_line_witness :
  let c := T "#include <a.h>

int x;" in
  let d := T "#include <a.h>
int x;" in
  first_from (T "#include") c 0 0 /\ first_from [nl; nl] c 0 14 /\
  add_allocator_helpers c = firstn 16 c ++ helper_block ++ skipn 16 c /\
  first_from (T "#include") d 0 0 /\ add_allocator_helpers d = d.
Proof.
  intros c d.
  assert (Hc : first_from (T "#include") c 0 0)
    by (apply first_from_find; [simpl; lia | reflexivity]).
  assert (Hp : first_from [nl; nl] c 0 14)
    by (apply first_from_find; [simpl; lia | reflexivity]).
  assert (Hd : first_from (T "#include") d 0 0)
    by (apply first_from_find; [simpl; lia | reflexivity]).
  split; [exact Hc|]. split; [exact Hp|]. split; [|split; [exact Hd|]].
  - exact (proj1 (add_allocator_helpers_after_blank_line c 0 Hc) 14 Hp).
  - apply (proj2 (add_allocator_helpers_after_blank_line d 0 Hd)).
    intros p _. apply (find_at_none [nl; nl] d 0). reflexivity.
Defined.

End AddAllocatorHelpers.

(** ** Scanning a text built from fixed parts and numbers *)

Lemma compat_starts_with (p a b : text) :
  starts_with p (a ++ b) = true -> compat p a = true.
Proof.
  revert a; induction p as [|c p IH]; intros [|x a]; simpl; auto.
  destruct (Ascii.eqb x c); simpl; [apply IH | discriminate].
Qed.

Lemma hits_clean (p a b : text) :
  clean p a = true -> hits p (a ++ b) = hits p b.
Proof.
  induction a as [|x a IH]; simpl; [reflexivity|].
  intros H; apply andb_prop in H as [H1 H2].
  destruct (starts_with p (x :: a ++ b)) eqn:E.
  - apply (compat_starts_with p (x :: a) b) in E.
    rewrite E in H1; discriminate.
  - simpl; auto.
Qed.

Lemma hits_hit (p : text) (x : ascii) (a b : text) :
  p = x :: a -> hits p (p ++ b) = b :: hits p (a ++ b).
Proof.
  intros ->. cbn [hits app]. change (x :: a ++ b) with ((x :: a) ++ b).
  rewrite starts_with_app, skipn_app, skipn_all, Nat.sub_diag.
  reflexivity.
Qed.

Lemma hits_app_clean_tail (p : text) (x : ascii) (a b : text) :
  p = x :: a -> clean p a = true ->
  hits p (p ++ b) = b :: hits p b.
Proof.
  intros E H. rewrite (hits_hit p x a b E). now rewrite hits_clean.
Qed.

Lemma clean_digits (p ds : text) (c : ascii) (p' : text) :
  p = c :: p' -> is_digit c = false ->
  forallb is_digit ds = true -> clean p ds = true.
Proof.
  intros -> Hc. induction ds as [|x ds IH]; simpl; [reflexivity|].
  intros H; apply andb_prop in H as [H1 H2]. rewrite (IH H2).
  destruct (Ascii.eqb_spec x c) as [->|]; [congruence|reflexivity].
Qed.

Lemma take_digits_app (ds : text) (c : ascii) (b : text) :
  forallb is_digit ds = true -> is_digit c = false ->
  take_digits (ds ++ c :: b) = ds.
Proof.
  intros H Hc. induction ds as [|x ds IH]; simpl in *.
  - now rewrite Hc.
  - apply andb_prop in H as [H1 H2]. rewrite H1. f_equal; auto.
Qed.

Lemma contains_app_r (sub a b : text) :
  contains sub b = true -> contains sub (a ++ b) = true.
Proof.
  intros H; induction a as [|x a IH]; simpl; [exact H|].
  rewrite IH. apply orb_true_r.
Qed.

Lemma contains_prefix (sub b : text) : contains sub (sub ++ b) = true.
Proof.
  destruct sub; simpl; [now destruct b|].
  now rewrite Ascii.eqb_refl, starts_with_app.
Qed.

Lemma contains_middle (sub a b : text) : contains sub (a ++ sub ++ b) = true.
Proof. apply contains_app_r, contains_prefix. Qed.

Lemma numbers_after_clean (p a b : text) :
  clean p a = true -> numbers_after p (a ++ b) = numbers_after p b.
Proof. intros H; unfold numbers_after; now rewrite hits_clean. Qed.

Lemma numbers_after_digits (p ds b : text) :
  negb (is_digit (hd "0"%char p)) && forallb is_digit ds = true ->
  numbers_after p (ds ++ b) = numbers_after p b.
Proof.
  intros H; apply andb_prop in H as [H1 H2].
  destruct p as [|c p']; simpl in H1.
  - discriminate.
  - apply numbers_after_clean, (clean_digits _ _ c p' eq_refl); auto.
    now destruct (is_digit c).
Qed.

Lemma numbers_after_hit (p ds seg b : text) :
  clean p (tl p) && negb (is_digit (hd "0"%char p))
  && negb (is_digit (hd "0"%char seg)) = true ->
  forallb is_digit ds = true ->
  numbers_after p (p ++ ds ++ seg ++ b) = ds :: numbers_after p (seg ++ b).
Proof.
  intros H Hd. apply andb_prop in H as [H H3]. apply andb_prop in H as [H1 H2].
  destruct p as [|x a]; [discriminate|]. simpl in H1, H2.
  unfold numbers_after.
  rewrite (hits_app_clean_tail (x :: a) x a _ eq_refl H1).
  cbn [map]. f_equal.
  - destruct seg as [|c seg']; simpl in H3; [discriminate|].
    cbn [app]. apply take_digits_app; auto. now destruct (is_digit c).
  - apply (numbers_after_digits (x :: a)). simpl. now rewrite H2.
Qed.

Lemma occurrences_numbers (p s : text) :
  occurrences p s = length (numbers_after p s).
Proof. unfold occurrences, numbers_after. now rewrite length_map. Qed.

Module GeneratorFacts.

Import Generator.

Lemma uint_digits (d : Decimal.uint) :
  forallb is_digit (T (NilEmpty.string_of_uint d)) = true.
Proof. induction d; simpl; auto. Qed.

Lemma str_digits (n : nat) : forallb is_digit (str n) = true.
Proof.
  unfold str, NilZero.string_of_uint.
  destruct (Nat.to_uint n) eqn:E; try apply uint_digits. reflexivity.
Qed.

Lemma append_blocks_concat (block : nat -> text) (k : nat) (code : text) :
  append_blocks block k code = code ++ concat (map block (seq 0 k)).
Proof.
  unfold append_blocks. generalize (seq 0 k) as l. intros l; revert code.
  induction l as [|i l IH]; intros code; simpl.
  - now rewrite app_nil_r.
  - now rewrite IH, app_assoc.
Qed.

Lemma generate_shape (n : nat) :
  generate_large_module n
  = header n ++ concat (map private_helper (seq 0 (n / 2)))
    ++ concat (map public_function (seq 0 (n / 2))) ++ footer n.
Proof.
  unfold generate_large_module.
  now rewrite !append_blocks_concat, <- !app_assoc.
Qed.

Ltac scan_step :=
  first
    [ rewrite numbers_after_hit by (reflexivity || apply str_digits)
    | rewrite numbers_after_clean by reflexivity
    | rewrite numbers_after_digits by (rewrite str_digits; reflexivity) ].

Ltac scan := rewrite <- ?app_assoc; repeat scan_step.

Lemma split_result_line :
  T "    let result = x * " = T "    " ++ helper_factor.
Proof. reflexivity. Qed.

Lemma split_temp_line :
  T "    let temp = privateHelper" = T "    " ++ helper_call.
Proof. reflexivity. Qed.

Lemma scan_header (n : nat) (b : text) :
  numbers_after helper_name (header n ++ b) = numbers_after helper_name b
  /\ numbers_after helper_factor (header n ++ b)
     = numbers_after helper_factor b
  /\ numbers_after export_name (header n ++ b) = numbers_after export_name b
  /\ numbers_after helper_call (header n ++ b) = numbers_after helper_call b.
Proof. unfold header. repeat split; scan; reflexivity. Qed.

Lemma scan_footer (n : nat) :
  numbers_after helper_name (footer n) = []
  /\ numbers_after helper_factor (footer n) = []
  /\ numbers_after export_name (footer n) = []
  /\ numbers_after helper_call (footer n) = [].
Proof.
  rewrite <- (app_nil_r (footer n)). unfold footer.
  repeat split; scan; reflexivity.
Qed.

Lemma scan_private_helper (i : nat) (b : text) :
  numbers_after helper_name (private_helper i ++ b)
  = str i :: numbers_after helper_name b
  /\ numbers_after helper_factor (private_helper i ++ b)
     = str (i + 1) :: numbers_after helper_factor b
  /\ numbers_after export_name (private_helper i ++ b)
     = numbers_after export_name b
  /\ numbers_after helper_call (private_helper i ++ b)
     = numbers_after helper_call b.
Proof.
  unfold private_helper. fold helper_name. rewrite split_result_line.
  repeat split; scan; reflexivity.
Qed.

Lemma scan_public_function (i : nat) (b : text) :
  numbers_after helper_name (public_function i ++ b)
  = numbers_after helper_name b
  /\ numbers_after helper_factor (public_function i ++ b)
     = numbers_after helper_factor b
  /\ numbers_after export_name (public_function i ++ b)
     = str i :: numbers_after export_name b
  /\ numbers_after helper_call (public_function i ++ b)
     = str (i mod 10) :: numbers_after helper_call b.
Proof.
  unfold public_function. fold export_name. rewrite split_temp_line.
  repeat split; scan; reflexivity.
Qed.

Lemma scan_private_helpers (l : list nat) (b : text) :
  numbers_after helper_name (concat (map private_helper l) ++ b)
  = map str l ++ numbers_after helper_name b
  /\ numbers_after helper_factor (concat (map private_helper l) ++ b)
     = map (fun i => str (i + 1)) l ++ numbers_after helper_factor b
  /\ numbers_after export_name (concat (map private_helper l) ++ b)
     = numbers_after export_name b
  /\ numbers_after helper_call (concat (map private_helper l) ++ b)
     = numbers_after helper_call b.
Proof.
  induction l as [|i l (IH1 & IH2 & IH3 & IH4)]; cbn [map concat app].
  - auto.
  - rewrite <- app_assoc.
    destruct (scan_private_helper i (concat (map private_helper l) ++ b))
      as (E1 & E2 & E3 & E4).
    rewrite E1, E2, E3, E4, IH1, IH2, IH3, IH4. auto.
Qed.

Lemma scan_public_functions (l : list nat) (b : text) :
  numbers_after helper_name (concat (map public_function l) ++ b)
  = numbers_after helper_name b
  /\ numbers_after helper_factor (concat (map public_function l) ++ b)
     = numbers_after helper_factor b
  /\ numbers_after export_name (concat (map public_function l) ++ b)
     = map str l ++ numbers_after export_name b
  /\ numbers_after helper_call (concat (map public_function l) ++ b)
     = map (fun i => str (i mod 10)) l ++ numbers_after helper_call b.
Proof.
  induction l as [|i l (IH1 & IH2 & IH3 & IH4)]; cbn [map concat app].
  - auto.
  - rewrite <- app_assoc.
    destruct (scan_public_function i (concat (map public_function l) ++ b))
      as (E1 & E2 & E3 & E4).
    rewrite E1, E2, E3, E4, IH1, IH2, IH3, IH4. auto.
Qed.

(** What a scan of the generated module finds, marker by marker. *)
Lemma scan_generate (n : nat) :
  let out := generate_large_module n in
  let k := n / 2 in
  numbers_after helper_name out = map str (seq 0 k)
  /\ numbers_after helper_factor out = map (fun i => str (i + 1)) (seq 0 k)
  /\ numbers_after export_name out = map str (seq 0 k)
  /\ numbers_after helper_call out = map (fun i => str (i mod 10)) (seq 0 k).
Proof.
  intros out k. subst out. rewrite generate_shape. fold k.
  destruct (scan_header n (concat (map private_helper (seq 0 k))
              ++ concat (map public_function (seq 0 k)) ++ footer n))
    as (H1 & H2 & H3 & H4).
  destruct (scan_private_helpers (seq 0 k)
              (concat (map public_function (seq 0 k)) ++ footer n))
    as (P1 & P2 & P3 & P4).
  destruct (scan_public_functions (seq 0 k) (footer n))
    as (Q1 & Q2 & Q3 & Q4).
  destruct (scan_footer n) as (F1 & F2 & F3 & F4).
  rewrite H1, H2, H3, H4, P1, P2, P3, P4, Q1, Q2, Q3, Q4, F1, F2, F3, F4.
  now rewrite !app_nil_r.
Qed.

(** C5: the generated module holds exactly [n / 2] private helper
    definitions and exactly [n / 2] exported definitions; the helpers
    are named 0 .. n/2 - 1 in this order and helper [i] multiplies by
    [i + 1]; for 0 and 1 the module is the header followed by the
    initialisation block. *)
Theorem generate_definition_counts (n : nat) :
  let out := generate_large_module n in
  occurrences helper_name out = n / 2
  /\ occurrences export_name out = n / 2
  /\ combine (numbers_after helper_name out)
             (numbers_after helper_factor out)
     = map (fun i => (str i, str (i + 1))) (seq 0 (n / 2))
  /\ generate_large_module 0 = header 0 ++ footer 0
  /\ generate_large_module 1 = header 1 ++ footer 1.
Proof.
  destruct (scan_generate n) as (E1 & E2 & E3 & E4). cbv zeta.
  rewrite !occurrences_numbers, E1, E2, E3, !length_map, !length_seq.
  repeat split; try reflexivity.
  generalize (seq 0 (n / 2)) as l.
  induction l as [|i l IH]; cbn [combine map];
    [reflexivity | now rewrite IH].
Qed.

(** C6: for [n >= 20] the exported functions, named 0 .. n/2 - 1 in this
    order, call the helpers [i mod 10] in this order; every helper
    called has an index of at most 9 and is one of the helpers defined. *)
Theorem exported_functions_call_helper_mod_10 (n : nat) :
  20 <= n ->
  let out := generate_large_module n in
  combine (numbers_after export_name out) (numbers_after helper_call out)
  = map (fun i => (str i, str (i mod 10))) (seq 0 (n / 2))
  /\ Forall (fun t => exists j, j <= 9 /\ t = str j
                               /\ In t (numbers_after helper_name out))
        (numbers_after helper_call out).
Proof.
  intros Hn. destruct (scan_generate n) as (E1 & E2 & E3 & E4). cbv zeta.
  rewrite E1, E3, E4. split.
  - generalize (seq 0 (n / 2)) as l.
    induction l as [|i l IH]; cbn [combine map];
      [reflexivity | now rewrite IH].
  - apply Forall_forall. intros t Ht.
    apply in_map_iff in Ht as (i & <- & Hi). apply in_seq in Hi.
    assert (Hm : i mod 10 < 10) by (apply Nat.mod_upper_bound; lia).
    assert (Hk : 10 <= n / 2) by (apply Nat.div_le_lower_bound; lia).
    exists (i mod 10). repeat split; [lia|].
    apply in_map, in_seq. lia.
Qed.

Lemma exported_functions_call_helper_mod_10_witness :
  20 <= 24 /\
  let out := generate_large_module 24 in
  combine (numbers_after export_name out) (numbers_after helper_call out)
  = map (fun i => (str i, str (i mod 10))) (seq 0 (24 / 2))
  /\ Forall (fun t => exists j, j <= 9 /\ t = str j
                               /\ In t (numbers_after helper_name out))
        (numbers_after helper_call out).
Proof.
  split; [lia|].
  apply (exported_functions_call_helper_mod_10 24). lia.
Defined.

End GeneratorFacts.

(** ** The matcher and its declarative reading *)

Lemma greedy_M (p : ascii -> bool) (r : regex)
  (k : text -> nat -> option (text * caps)) :
  (forall s pos res, k s pos = Some res -> M r s (fst res)) ->
  forall s pos res, greedy p k s pos = Some res -> M (Star p r) s (fst res).
Proof.
  intros Hk s. induction s as [|x s IH]; intros pos res; simpl.
  - intros H. eapply M_star_stop, Hk, H.
  - destruct (p x) eqn:Hp.
    + destruct (greedy p k s (S pos)) as [res'|] eqn:E.
      * intros [= <-]. apply M_star_more; eauto.
      * intros H. eapply M_star_stop, Hk, H.
    + intros H. eapply M_star_stop, Hk, H.
Qed.

Lemma mt_M (r : regex) :
  forall s pos st res, mt r s pos st = Some res -> M r s (fst res).
Proof.
  induction r as [|c r IH|p r IH|p r IH|c r IH|n r IH|n r IH|q _ r IH];
    intros s pos st res; simpl.
  - intros [= <-]. constructor.
  - destruct s as [|x s]; [discriminate|].
    destruct (Ascii.eqb_spec x c) as [->|]; [|discriminate].
    intros H. constructor. eapply IH, H.
  - apply greedy_M. intros s1 pos1 res1 H. eapply IH, H.
  - destruct s as [|x s]; [discriminate|].
    destruct (p x) eqn:Hp; [|discriminate].
    intros H. apply M_plus; [exact Hp|].
    revert H. apply greedy_M. intros s1 pos1 res1 H. eapply IH, H.
  - destruct s as [|x s].
    + intros H. apply M_opt_skip. eapply IH, H.
    + destruct (Ascii.eqb_spec x c) as [->|].
      * destruct (mt r s (S pos) st) as [res'|] eqn:E.
        -- intros [= <-]. apply M_opt_take. eapply IH, E.
        -- intros H. apply M_opt_skip. eapply IH, H.
      * intros H. apply M_opt_skip. eapply IH, H.
  - intros H. constructor. eapply IH, H.
  - intros H. constructor. eapply IH, H.
  - destruct (mt q s pos st); [discriminate|].
    intros H. constructor. eapply IH, H.
Qed.

(** What is left after a match is a suffix of the text. *)
Lemma M_suffix (r : regex) (s rest : text) :
  M r s rest -> exists m, s = m ++ rest.
Proof.
  induction 1 as [s| c r s rest _ [m ->] | p r s rest _ IH
                 | p r x s rest _ _ [m ->] | p r x s rest _ _ [m ->]
                 | c r s rest _ [m ->] | c r s rest _ IH
                 | n r s rest _ IH | n r s rest _ IH | q r s rest _ IH];
    try exact IH;
    try (now exists []);
    first [now exists (c :: m) | now exists (x :: m)].
Qed.

(** A pattern that starts with a literal character takes at least one. *)
Lemma M_chr_shorter (c : ascii) (r : regex) (s rest : text) :
  M (Chr c r) s rest -> length rest < length s.
Proof.
  intros H. inversion H as [|c' r' s' rest' H' | | | | | | | |]; subst.
  apply M_suffix in H' as [m ->]. simpl. rewrite length_app. lia.
Qed.

(** Where the reading stands when the text is cut in two. *)
Lemma M_split (r : regex) (s rest : text) :
  M r s rest ->
  forall pre u, s = pre ++ u ->
  (exists x pre2, pre = x ++ pre2 /\ rest = pre2 ++ u)
  \/ (exists q, In q (states r) /\ M q u rest).
Proof.
  induction 1 as [s| c r s rest H IH | p r s rest H IH
                 | p r x s rest Hp H IH | p r x s rest Hp H IH
                 | c r s rest H IH | c r s rest H IH
                 | n r s rest H IH | n r s rest H IH | la r s rest H IH];
    intros pre u E.
  - left. exists [], pre. auto.
  - destruct pre as [|y pre]; simpl in E.
    + right. exists (Chr c r). split; [now left|]. subst u. now constructor.
    + injection E as <- ->.
      destruct (IH pre u eq_refl) as [(x & pre2 & -> & ->)|(q & Hq & HM)].
      * left. exists (c :: x), pre2. auto.
      * right. exists q. split; [now right | exact HM].
  - destruct (IH pre u E) as [L|(q & Hq & HM)]; [now left|].
    right. exists q. split; [now right | exact HM].
  - destruct pre as [|y pre]; simpl in E.
    + right. exists (Star p r). split; [now left|]. subst u.
      now apply M_star_more.
    + injection E as <- ->.
      destruct (IH pre u eq_refl) as [(x' & pre2 & -> & ->)|(q & Hq & HM)].
      * left. exists (x :: x'), pre2. auto.
      * right. exists q. split; [exact Hq | exact HM].
  - destruct pre as [|y pre]; simpl in E.
    + right. exists (Plus p r). split; [now left|]. subst u.
      now apply M_plus.
    + injection E as <- ->.
      destruct (IH pre u eq_refl) as [(x' & pre2 & -> & ->)|(q & Hq & HM)].
      * left. exists (x :: x'), pre2. auto.
      * right. exists q. split; [now right | exact HM].
  - destruct pre as [|y pre]; simpl in E.
    + right. exists (Opt c r). split; [now left|]. subst u.
      now apply M_opt_take.
    + injection E as <- ->.
      destruct (IH pre u eq_refl) as [(x' & pre2 & -> & ->)|(q & Hq & HM)].
      * left. exists (c :: x'), pre2. auto.
      * right. exists q. split; [now right | exact HM].
  - destruct (IH pre u E) as [L|(q & Hq & HM)]; [now left|].
    right. exists q. split; [now right | exact HM].
  - destruct (IH pre u E) as [L|(q & Hq & HM)]; [now left|].
    right. exists q. split; [now right | exact HM].
  - destruct (IH pre u E) as [L|(q & Hq & HM)]; [now left|].
    right. exists q. split; [now right | exact HM].
  - destruct (IH pre u E) as [L|(q & Hq & HM)]; [now left|].
    right. exists q. split; [now right | exact HM].
Qed.

Lemma alive_nil (q : regex) : alive q [] true = true.
Proof.
  induction q as [|c r IH|p r IH|p r IH|c r IH|n r IH|n r IH|la _ r IH];
    simpl; auto; rewrite IH; reflexivity.
Qed.

(** A state that is not [alive] on [t] leaves [t] alone. *)
Lemma alive_sound (q : regex) (s rest : text) :
  M q s rest ->
  forall t c post, s = t ++ post -> alive q t c = false ->
  (t = [] -> c = true) -> c = false /\ rest = s.
Proof.
  induction 1 as [s| a r s rest H IH | p r s rest H IH
                 | p r x s rest Hp H IH | p r x s rest Hp H IH
                 | a r s rest H IH | a r s rest H IH
                 | n r s rest H IH | n r s rest H IH | la r s rest H IH];
    intros t c post E A Ht.
  - simpl in A. auto.
  - destruct t as [|y t].
    + rewrite (Ht eq_refl) in A. simpl in A. discriminate.
    + simpl in E. injection E as <- ->. simpl in A.
      rewrite Ascii.eqb_refl in A.
      destruct (IH t true post eq_refl A) as [? _]; [auto|discriminate].
  - simpl in A. destruct t as [|y t]; simpl in A;
      destruct (alive r _ c) eqn:Er; try discriminate;
      apply (IH _ c post E Er Ht).
  - destruct t as [|y t].
    + rewrite (Ht eq_refl) in A.
      rewrite (alive_nil (Star p r)) in A. discriminate.
    + simpl in E. injection E as <- ->. simpl in A.
      destruct (alive r (x :: t) c); [discriminate|]. rewrite Hp in A.
      destruct (IH t true post eq_refl A) as [? _]; [auto|discriminate].
  - destruct t as [|y t].
    + rewrite (Ht eq_refl) in A. simpl in A. discriminate.
    + simpl in E. injection E as <- ->. simpl in A. rewrite Hp in A.
      destruct (IH t true post eq_refl A) as [? _]; [auto|discriminate].
  - destruct t as [|y t].
    + rewrite (Ht eq_refl) in A.
      rewrite (alive_nil (Opt a r)) in A. discriminate.
    + simpl in E. injection E as <- ->. simpl in A.
      destruct (alive r (a :: t) c); [discriminate|].
      rewrite Ascii.eqb_refl in A.
      destruct (IH t true post eq_refl A) as [? _]; [auto|discriminate].
  - simpl in A. destruct (alive r t c) eqn:Er; [discriminate|].
    apply (IH t c post E Er Ht).
  - apply (IH t c post E A Ht).
  - apply (IH t c post E A Ht).
  - apply (IH t c post E A Ht).
Qed.

Lemma forallb_not_alive (l : list regex) (t : text) (q : regex) :
  forallb (fun q => if alive q t false then false else true) l = true ->
  In q l -> alive q t false = false.
Proof.
  intros H Hq. rewrite forallb_forall in H. specialize (H q Hq).
  now destruct (alive q t false).
Qed.

(** The same for a match that starts strictly before the occurrence,
    when [r] starts with a literal character and is [apart] from [t]. *)
Lemma apart_match (c : ascii) (r : regex) (t pre post rest : text)
  (st : caps) :
  t <> [] -> pre <> [] -> apart (Chr c r) t = true ->
  match_at (Chr c r) (pre ++ t ++ post) = Some (rest, st) ->
  exists x pre2, pre = x ++ pre2 /\ rest = pre2 ++ t ++ post.
Proof.
  intros Ht Hp Hu Hm. apply mt_M in Hm. simpl fst in Hm.
  destruct pre as [|y pre]; [congruence|].
  inversion Hm as [|c' r' s' rest' H' E1 E2 | | | | | | | |]; subst.
  destruct (M_split _ _ _ H' pre (t ++ post) eq_refl)
    as [(x & pre2 & -> & ->)|(q & Hq & HM)].
  - exists (y :: x), pre2. auto.
  - pose proof (forallb_not_alive _ _ _ Hu Hq) as A.
    destruct (alive_sound _ _ _ HM t false post eq_refl A) as [_ ->].
    + intros ->. congruence.
    + exists (y :: pre), []. now rewrite app_nil_r.
Qed.

(** ** Substitution *)

Lemma mt_head_lit (r : regex) (s : text) (pos : nat) (st : caps) :
  starts_with (head_lit r) s = false -> mt r s pos st = None.
Proof.
  revert s pos; induction r; intros s pos; simpl; try discriminate.
  destruct s as [|x s]; [reflexivity|].
  destruct (Ascii.eqb x c); simpl; [apply IHr | reflexivity].
Qed.

Lemma mt_shorter (r : regex) (s rest : text) (pos : nat) (st st' : caps) :
  head_lit r <> [] -> mt r s pos st = Some (rest, st') ->
  length rest < length s.
Proof.
  intros Hh Hm. apply mt_M in Hm. simpl in Hm.
  destruct r; simpl in Hh; try congruence.
  eapply M_chr_shorter, Hm.
Qed.

Lemma sub_go_skip (r : regex) (tp : template) (x rest : text) :
  sub_go r tp (length x) (x ++ rest) = sub_go r tp 0 rest.
Proof. induction x as [|c x IH]; simpl; auto. Qed.

Lemma sub_go_match (r : regex) (tp : template) (s rest : text) (st : caps) :
  match_at r s = Some (rest, st) -> length rest < length s ->
  sub_go r tp 0 s = expand tp st ++ sub_go r tp 0 rest.
Proof.
  intros Hm Hl. destruct s as [|c s]; [simpl in Hl; lia|].
  cbn [sub_go]. rewrite Hm.
  destruct (Nat.ltb_spec (length rest) (length (c :: s))); [|lia].
  apply mt_M, M_suffix in Hm as [m E]. simpl in E.
  destruct m as [|y m].
  - simpl in E. rewrite <- E in Hl. lia.
  - simpl in E. injection E as _ ->.
    rewrite length_app, Nat.add_sub. now rewrite sub_go_skip.
Qed.

Lemma sub_go_nomatch (r : regex) (tp : template) (c : ascii) (s : text) :
  match_at r (c :: s) = None ->
  sub_go r tp 0 (c :: s) = c :: sub_go r tp 0 s.
Proof. intros Hm. cbn [sub_go]. now rewrite Hm. Qed.

Lemma sub_go_clean (r : regex) (tp : template) (a b : text) :
  clean (head_lit r) a = true ->
  sub_go r tp 0 (a ++ b) = a ++ sub_go r tp 0 b.
Proof.
  induction a as [|x a IH]; [reflexivity|].
  cbn [clean]. intros H. apply andb_prop in H as [H1 H2].
  change ((x :: a) ++ b) with (x :: a ++ b).
  rewrite sub_go_nomatch, (IH H2); [reflexivity|].
  apply mt_head_lit.
  destruct (starts_with (head_lit r) (x :: a ++ b)) eqn:E; [|reflexivity].
  apply (compat_starts_with _ (x :: a) b) in E.
  rewrite E in H1. discriminate.
Qed.

Lemma contains_split (t s : text) :
  contains t s = true -> exists pre post, s = pre ++ t ++ post.
Proof.
  induction s as [|x s IH]; simpl; intros H.
  - destruct t; [|discriminate]. now exists [], [].
  - apply orb_prop in H as [H|H].
    + exists [], (skipn (length t) (x :: s)).
      now apply starts_with_split.
    + destruct (IH H) as (pre & post & ->). now exists (x :: pre), post.
Qed.

Section Preservation.

Variables (r : regex) (tp : template) (t t' : text).

Hypothesis step : forall pre post rest st,
  match_at r (pre ++ t ++ post) = Some (rest, st) ->
  (exists x pre2, pre = x ++ pre2 /\ length pre2 < length pre
                  /\ rest = pre2 ++ t ++ post)
  \/ (length rest < length (pre ++ t ++ post)
      /\ contains t' (expand tp st ++ sub_go r tp 0 rest) = true).

Hypothesis base : forall post,
  match_at r (t ++ post) = None ->
  contains t' (sub_go r tp 0 (t ++ post)) = true.

(** An occurrence of [t] in the text shows as [t'] in the result. *)
Lemma sub_go_preserves (n : nat) :
  forall pre post, length pre <= n ->
  contains t' (sub_go r tp 0 (pre ++ t ++ post)) = true.
Proof.
  induction n as [|n IH]; intros pre post Hn.
  - destruct pre; [|simpl in Hn; lia]. cbn [app].
    destruct (match_at r (t ++ post)) as [[rest st]|] eqn:E;
      [|now apply base].
    destruct (step [] post rest st E)
      as [(x & pre2 & _ & Hl & _)|[Hl Hc]]; [simpl in Hl; lia|].
    now rewrite (sub_go_match _ _ _ _ _ E Hl).
  - destruct pre as [|c pre]; [apply (IH [] post); simpl; lia|].
    destruct (match_at r ((c :: pre) ++ t ++ post)) as [[rest st]|] eqn:E.
    + destruct (step (c :: pre) post rest st E)
        as [(x & pre2 & Hx & Hl & ->)|[Hl Hc]].
      * rewrite (sub_go_match _ _ _ _ _ E)
          by (rewrite !length_app in *; simpl in *; lia).
        apply contains_app_r, IH. simpl in Hn, Hl. lia.
      * now rewrite (sub_go_match _ _ _ _ _ E Hl).
    + change ((c :: pre) ++ t ++ post) with (c :: pre ++ t ++ post) in *.
      rewrite (sub_go_nomatch _ _ _ _ E).
      apply (contains_app_r t' [c]), IH. simpl in Hn. lia.
Qed.

Lemma re_sub_preserves (s : text) :
  contains t s = true -> contains t' (re_sub r tp s) = true.
Proof.
  intros H. apply contains_split in H as (pre & post & ->).
  apply (sub_go_preserves (length pre)). lia.
Qed.

End Preservation.

(** A pattern that rewrites [t] into [t'] where it stands and that no
    match from further left reaches. *)
Lemma re_sub_rewrites (r : regex) (tp : template) (t t' s : text) :
  t <> [] -> head_lit r <> [] -> apart r t = true ->
  (forall post, exists st,
      match_at r (t ++ post) = Some (post, st) /\ expand tp st = t') ->
  contains t s = true -> contains t' (re_sub r tp s) = true.
Proof.
  intros Ht Hh Ha Hm. apply re_sub_preserves.
  - intros pre post rest st E. destruct pre as [|c pre].
    + right. destruct (Hm post) as (st0 & E0 & X).
      cbn [app] in E. rewrite E0 in E. injection E as <- <-.
      split.
      * cbn [app]. rewrite length_app. destruct t; [congruence|simpl; lia].
      * rewrite X. apply contains_prefix.
    + left. destruct r; simpl in Hh; try congruence.
      destruct (apart_match _ _ t (c :: pre) post rest st Ht
                  ltac:(discriminate) Ha E) as (x & pre2 & Ex & ->).
      exists x, pre2. repeat split; [exact Ex|].
      apply mt_shorter in E; [|simpl; discriminate].
      rewrite Ex in *. rewrite !length_app in *. lia.
  - intros post E. destruct (Hm post) as (st0 & E0 & _). congruence.
Qed.

(** ** Patterns with a [[^)]+] argument *)

Lemma mt_lit (l : text) (r : regex) (s : text) (pos : nat) (st : caps)
  (res : text * caps) :
  mt (lit l r) s pos st = Some res ->
  exists s', s = l ++ s' /\ mt r s' (pos + length l) st = Some res.
Proof.
  revert s pos; induction l as [|c l IH]; intros s pos; simpl.
  - intros H. exists s. now rewrite Nat.add_0_r.
  - destruct s as [|x s]; [discriminate|].
    destruct (Ascii.eqb_spec x c) as [->|]; [|discriminate].
    intros H. apply IH in H as (s' & -> & H). exists s'.
    now rewrite Nat.add_succ_r.
Qed.

Lemma greedy_inv {A : Type} (p : ascii -> bool)
  (k : text -> nat -> option A) (s : text) (pos : nat) (res : A) :
  greedy p k s pos = Some res ->
  exists w s', s = w ++ s' /\ forallb p w = true
               /\ k s' (pos + length w) = Some res.
Proof.
  revert pos; induction s as [|x s IH]; intros pos; simpl.
  - intros H. exists [], []. now rewrite Nat.add_0_r.
  - destruct (p x) eqn:Hp.
    + destruct (greedy p k s (S pos)) as [res'|] eqn:E.
      * intros [= <-]. destruct (IH _ E) as (w & s' & -> & Hw & Hk).
        exists (x :: w), s'. simpl. rewrite Hp, Hw, Nat.add_succ_r. auto.
      * intros H. exists [], (x :: s). now rewrite Nat.add_0_r.
    + intros H. exists [], (x :: s). now rewrite Nat.add_0_r.
Qed.

Lemma is_space_not_rparen (c : ascii) :
  is_space c = true -> not_rparen c = true.
Proof.
  unfold not_rparen. destruct (Ascii.eqb_spec c ")"%char) as [->|];
    [discriminate | reflexivity].
Qed.

Lemma spaces_not_rparen (w : text) :
  forallb is_space w = true -> forallb not_rparen w = true.
Proof.
  induction w as [|x w IH]; simpl; [reflexivity|].
  intros H. apply andb_prop in H as [H1 H2].
  now rewrite (is_space_not_rparen x H1), IH.
Qed.

Lemma first_rparen (a b a' b' : text) :
  a ++ ")"%char :: b = a' ++ ")"%char :: b' ->
  forallb not_rparen a = true -> forallb not_rparen a' = true ->
  a = a' /\ b = b'.
Proof.
  revert a'; induction a as [|x a IH]; intros [|y a']; simpl.
  - intros [= ->]. auto.
  - intros [= <- _] _ H. discriminate.
  - intros [= -> _] H. discriminate.
  - intros [= -> E] H1 H2.
    apply andb_prop in H1 as [_ H1]. apply andb_prop in H2 as [_ H2].
    destruct (IH a' E H1 H2) as [-> ->]. auto.
Qed.

Lemma cut_rparen_spec (t : text) :
  has_rparen t = true ->
  t = fst (cut_rparen t) ++ ")"%char :: snd (cut_rparen t)
  /\ forallb not_rparen (fst (cut_rparen t)) = true.
Proof.
  unfold has_rparen.
  induction t as [|c t IH]; cbn [existsb cut_rparen]; [discriminate|].
  rewrite (Ascii.eqb_sym ")"%char c).
  destruct (Ascii.eqb_spec c ")"%char) as [->|Hc]; cbn [orb fst snd app].
  - auto.
  - intros H. destruct (IH H) as [E F].
    destruct (cut_rparen t) as [a b]. cbn [fst snd app forallb] in *.
    rewrite F. split; [now rewrite E at 1 | ].
    unfold not_rparen.
    destruct (Ascii.eqb_spec c ")"%char); [contradiction|reflexivity].
Qed.

Lemma head_lit_call (name : text) (tail : regex) :
  head_lit (call_re name tail) = name.
Proof.
  unfold call_re. induction name as [|c n IH]; simpl; [reflexivity|].
  now rewrite IH.
Qed.

Lemma clean_app_r (p a b : text) : clean p (a ++ b) = true -> clean p b = true.
Proof.
  induction a as [|x a IH]; simpl; [auto|].
  intros H. apply andb_prop in H as [_ H]. auto.
Qed.

Lemma mem_In (c : ascii) (l : text) : mem c l = false -> ~ In c l.
Proof.
  unfold mem. induction l as [|x l IH]; simpl; [auto|].
  intros H [->|Hi].
  - rewrite Ascii.eqb_refl in H. discriminate.
  - apply orb_false_elim in H as [_ H]. now apply IH.
Qed.

Lemma spaces_In (c : ascii) (w : text) :
  forallb is_space w = true -> In c w -> is_space c = true.
Proof. intros H Hi. rewrite forallb_forall in H. auto. Qed.

(** ** Replacement of the first occurrence *)

Lemma replace_go_done (old new : text) (s : text) :
  replace_go old new (Some 0) 0 s = s.
Proof. induction s as [|c s IH]; simpl; [reflexivity | now rewrite IH]. Qed.

Lemma replace_go_skip (old new : text) (lim : option nat) (x b : text) :
  replace_go old new lim (length x) (x ++ b) = replace_go old new lim 0 b.
Proof. induction x as [|c x IH]; simpl; auto. Qed.

Lemma replace_go_hit (old new b : text) :
  old <> [] ->
  replace_go old new (Some 1) 0 (old ++ b) = new ++ b.
Proof.
  intros Ho. destruct old as [|c o]; [congruence|].
  cbn [app replace_go andb].
  change (c :: o ++ b) with ((c :: o) ++ b) at 1.
  rewrite starts_with_app. cbn [option_map Nat.pred length].
  now rewrite replace_go_skip, replace_go_done.
Qed.

(** [s.replace(old, new, 1)] changes the first occurrence of [old]. *)
Lemma replace_first_at (old new a b : text) :
  old <> [] ->
  (forall j, j < length a -> ~ occurs_at old (a ++ old ++ b) j) ->
  py_replace_n (a ++ old ++ b) old new 1 = a ++ new ++ b.
Proof.
  intros Ho. unfold py_replace_n. induction a as [|c a IH]; intros Hf.
  - cbn [app]. now apply replace_go_hit.
  - cbn [app replace_go andb].
    destruct (starts_with old (c :: a ++ old ++ b)) eqn:E.
    + exfalso. apply (Hf 0); [simpl; lia|]. split; [simpl; lia | exact E].
    + rewrite IH; [reflexivity|].
      intros j Hj [Hl Hs]. apply (Hf (S j)); [simpl; lia|].
      split; [simpl; lia | exact Hs].
Qed.

Lemma replace_first (old new s : text) :
  old <> [] ->
  py_replace_n s old new 1 = s
  \/ exists a b, s = a ++ old ++ b /\ py_replace_n s old new 1 = a ++ new ++ b.
Proof.
  intros Ho. unfold py_replace_n. induction s as [|c s IH].
  - now left.
  - destruct (starts_with old (c :: s)) eqn:E.
    + right. exists [], (skipn (length old) (c :: s)).
      pose proof (starts_with_split _ _ E) as E'.
      split; [exact E'|].
      remember (skipn (length old) (c :: s)) as b.
      rewrite E'. cbn [app]. now apply replace_go_hit.
    + cbn [replace_go andb]. rewrite E.
      destruct IH as [IH|(a & b & -> & IH)].
      * left. now rewrite IH.
      * right. exists (c :: a), b. split; [reflexivity|]. now rewrite IH.
Qed.

(** Text put in after [a'] leaves an occurrence of [t] in place unless
    the occurrence lies across the end of [a']. *)
Lemma insert_keeps (t a' x b' : text) :
  (forall t1 t2 pre, t = t1 ++ t2 -> t1 <> [] -> t2 <> [] ->
                     a' <> pre ++ t1) ->
  contains t (a' ++ b') = true -> contains t (a' ++ x ++ b') = true.
Proof.
  intros Hs H. apply contains_split in H as (pre & post & E).
  apply app_eq_app in E as [l [[E1 E2]|[E1 E2]]].
  - symmetry in E2. apply app_eq_app in E2 as [l2 [[E3 E4]|[E3 E4]]].
    + subst a' l. rewrite <- !app_assoc. apply contains_middle.
    + destruct l as [|c l].
      * cbn [app] in E3. rewrite app_nil_r in E1. subst.
        rewrite app_assoc. apply contains_app_r, contains_prefix.
      * destruct l2 as [|c2 l2].
        -- rewrite app_nil_r in E3. subst. rewrite <- app_assoc.
           apply contains_middle.
        -- exfalso. apply (Hs (c :: l) (c2 :: l2) pre); auto; discriminate.
  - subst. do 2 apply contains_app_r. apply contains_middle.
Qed.

(** ** Texts in which a pattern finds nothing *)

Lemma contains_app_false (l a b : text) :
  contains l (a ++ b) = false -> contains l b = false.
Proof.
  intros H. destruct (contains l b) eqn:E; [|reflexivity].
  now rewrite (contains_app_r l a b E) in H.
Qed.

Lemma starts_with_long (l a b : text) :
  length l <= length a -> starts_with l (a ++ b) = starts_with l a.
Proof.
  revert a; induction l as [|c l IH]; intros [|x a]; simpl; auto; try lia.
  intros H. rewrite IH by lia. reflexivity.
Qed.

Lemma contains_starts_false (l a1 a2 : text) :
  contains l (a1 ++ a2) = false -> starts_with l a2 = false.
Proof.
  intros H. apply contains_app_false in H.
  destruct a2; simpl in H; now apply orb_false_elim in H as [H _].
Qed.

Lemma starts_with_overhang (l a2 rest : text) :
  starts_with l (a2 ++ rest) = true -> length a2 < length l ->
  exists l2, l = a2 ++ l2 /\ l2 <> [] /\ starts_with l2 rest = true.
Proof.
  revert a2; induction l as [|c l IH]; intros [|x a2]; simpl; try lia.
  - intros H _. exists (c :: l). repeat split; [discriminate | exact H].
  - destruct (Ascii.eqb_spec x c) as [->|]; [|discriminate]. simpl.
    intros H Hl. destruct (IH a2 H ltac:(lia)) as (l2 & -> & Hn & Hs).
    now exists l2.
Qed.

Lemma proper_suffixes_In (a2 l2 : text) :
  a2 <> [] -> l2 <> [] -> In l2 (proper_suffixes (a2 ++ l2)).
Proof.
  induction a2 as [|x a2 IH]; intros Ha Hl; [congruence|].
  cbn [app proper_suffixes].
  destruct a2 as [|y a2].
  - cbn [app]. destruct l2; [congruence|]. now left.
  - cbn [app]. right. apply (IH ltac:(discriminate) Hl).
Qed.

Lemma quiet_contains (l pre t post : text) :
  contains l pre = false -> no_overhang l t = true ->
  quiet l pre (t ++ post).
Proof.
  intros Hc Ho a1 a2 -> Ha.
  destruct (starts_with l (a2 ++ t ++ post)) eqn:E; [|reflexivity].
  exfalso. destruct (Nat.le_gt_cases (length l) (length a2)) as [Hl|Hl].
  - rewrite (starts_with_long _ _ _ Hl) in E.
    now rewrite (contains_starts_false _ _ _ Hc) in E.
  - destruct (starts_with_overhang _ _ _ E Hl) as (l2 & -> & Hn & Hs).
    unfold no_overhang in Ho. rewrite forallb_forall in Ho.
    specialize (Ho l2 (proper_suffixes_In a2 l2 Ha Hn)).
    now rewrite (compat_starts_with _ _ _ Hs) in Ho.
Qed.

Lemma quiet_nil (l pre : text) :
  contains l pre = false -> l <> [] -> quiet l pre [].
Proof.
  intros Hc Hl a1 a2 -> Ha. rewrite app_nil_r.
  apply (contains_starts_false _ _ _ Hc).
Qed.

Lemma quiet_tail (l : text) (x : ascii) (pre rest : text) :
  quiet l (x :: pre) rest -> quiet l pre rest.
Proof. intros H a1 a2 -> Ha. now apply (H (x :: a1) a2). Qed.

Lemma sub_go_quiet (r : regex) (tp : template) (pre rest : text) :
  quiet (head_lit r) pre rest ->
  sub_go r tp 0 (pre ++ rest) = pre ++ sub_go r tp 0 rest.
Proof.
  induction pre as [|x pre IH]; intros H; [reflexivity|].
  cbn [app]. rewrite sub_go_nomatch.
  - now rewrite (IH (quiet_tail _ _ _ _ H)).
  - apply mt_head_lit. apply (H [] (x :: pre) eq_refl). discriminate.
Qed.

Lemma finditer_go_quiet (r : regex) (pos : nat) (pre rest : text) :
  quiet (head_lit r) pre rest ->
  finditer_go r 0 pos (pre ++ rest) = finditer_go r 0 (pos + length pre) rest.
Proof.
  revert pos; induction pre as [|x pre IH]; intros pos H.
  - now rewrite Nat.add_0_r.
  - cbn [app finditer_go]. unfold match_at.
    rewrite mt_head_lit
      by (apply (H [] (x :: pre) eq_refl); discriminate).
    rewrite (IH _ (quiet_tail _ _ _ _ H)). cbn [length].
    now rewrite Nat.add_succ_r.
Qed.

Lemma replace_go_quiet (old new : text) (lim : option nat)
  (pre rest : text) :
  quiet old pre rest ->
  replace_go old new lim 0 (pre ++ rest)
  = pre ++ replace_go old new lim 0 rest.
Proof.
  induction pre as [|x pre IH]; intros H; [reflexivity|].
  cbn [app replace_go].
  pose proof (H [] (x :: pre) eq_refl ltac:(discriminate)) as E.
  cbn [app] in E. rewrite E.
  rewrite andb_false_r. now rewrite (IH (quiet_tail _ _ _ _ H)).
Qed.

Lemma re_sub_plain (r : regex) (tp : template) (s : text) :
  head_lit r <> [] -> contains (head_lit r) s = false -> re_sub r tp s = s.
Proof.
  intros Hl Hc. unfold re_sub. rewrite <- (app_nil_r s) at 1.
  rewrite sub_go_quiet by now apply quiet_nil.
  apply app_nil_r.
Qed.

Lemma finditer_plain (r : regex) (s : text) :
  head_lit r <> [] -> contains (head_lit r) s = false -> finditer r s = [].
Proof.
  intros Hl Hc. unfold finditer. rewrite <- (app_nil_r s).
  now rewrite finditer_go_quiet by now apply quiet_nil.
Qed.

Lemma replace_plain (old new : text) (lim : option nat) (s : text) :
  old <> [] -> contains old s = false -> replace_go old new lim 0 s = s.
Proof.
  intros Hl Hc. rewrite <- (app_nil_r s) at 1.
  rewrite replace_go_quiet by now apply quiet_nil.
  apply app_nil_r.
Qed.

Lemma finditer_go_skip (r : regex) (pos : nat) (x rest : text) :
  finditer_go r (length x) pos (x ++ rest)
  = finditer_go r 0 (pos + length x) rest.
Proof.
  revert pos; induction x as [|c x IH]; intros pos; cbn [length app].
  - now rewrite Nat.add_0_r.
  - cbn [finditer_go]. now rewrite IH, Nat.add_succ_r.
Qed.

Lemma finditer_go_match (r : regex) (pos : nat) (m rest : text) (st : caps) :
  m <> [] -> match_at r (m ++ rest) = Some (rest, st) ->
  finditer_go r 0 pos (m ++ rest)
  = (pos, m) :: finditer_go r 0 (pos + length m) rest.
Proof.
  intros Hm E. destruct m as [|c m]; [congruence|].
  cbn [app finditer_go]. cbn [app] in E. rewrite E.
  change (c :: m ++ rest) with ((c :: m) ++ rest).
  rewrite !length_app, !Nat.add_sub, firstn_app, Nat.sub_diag, firstn_all.
  cbn [firstn]. rewrite app_nil_r, finditer_go_skip.
  cbn [length]. now rewrite Nat.add_succ_r.
Qed.

(** Success of the matcher does not depend on the position or on the
    captures so far. *)
Lemma greedy_none {A B : Type} (p : ascii -> bool)
  (k : text -> nat -> option A) (k' : text -> nat -> option B) :
  (forall s pos pos', k s pos = None -> k' s pos' = None) ->
  forall s pos pos', greedy p k s pos = None -> greedy p k' s pos' = None.
Proof.
  intros Hk s. induction s as [|x s IH]; intros pos pos'; simpl.
  - apply Hk.
  - destruct (p x); [|apply Hk].
    destruct (greedy p k s (S pos)) eqn:E; [intros; discriminate|].
    intros H. rewrite (IH _ (S pos') E). eapply Hk, H.
Qed.

Lemma mt_none_indep (r : regex) :
  forall s pos st pos' st',
    (mt r s pos st = None -> mt r s pos' st' = None).
Proof.
  induction r as [|c r IH|p r IH|p r IH|c r IH|n r IH|n r IH|q IHq r IH];
    intros s pos st pos' st'; simpl.
  - discriminate.
  - destruct s as [|x s]; [reflexivity|].
    destruct (Ascii.eqb x c); [apply IH | reflexivity].
  - apply greedy_none. intros; eapply IH; eauto.
  - destruct s as [|x s]; [reflexivity|].
    destruct (p x); [|reflexivity].
    apply greedy_none. intros; eapply IH; eauto.
  - destruct s as [|x s]; [apply IH|].
    destruct (Ascii.eqb x c); [|apply IH].
    destruct (mt r s (S pos) st) eqn:E; [intros; discriminate|].
    rewrite (IH _ _ _ (S pos') st' E). apply IH.
  - apply IH.
  - apply IH.
  - destruct (mt q s pos' st') eqn:E'; [reflexivity|].
    rewrite (IHq _ _ _ pos st E'). apply IH.
Qed.

Lemma quiet_clean (l a rest : text) : clean l a = true -> quiet l a rest.
Proof.
  intros Hc a1 a2 -> Ha. apply clean_app_r in Hc.
  destruct a2 as [|x a2]; [congruence|]. cbn [clean] in Hc.
  apply andb_prop in Hc as [Hc _].
  destruct (starts_with l ((x :: a2) ++ rest)) eqn:E; [|reflexivity].
  apply compat_starts_with in E. rewrite E in Hc. discriminate.
Qed.

Lemma free_of_In (ls : list text) (s l : text) :
  free_of ls s = true -> In l ls -> contains l s = false.
Proof.
  unfold free_of. rewrite forallb_forall. intros H Hi.
  specialize (H l Hi). now destruct (contains l s).
Qed.

(** One occurrence of [t] between two texts where [r] finds nothing. *)
Lemma re_sub_around (r : regex) (tp : template) (pre t post t' : text) :
  head_lit r <> [] ->
  contains (head_lit r) pre = false -> no_overhang (head_lit r) t = true ->
  contains (head_lit r) post = false ->
  sub_go r tp 0 (t ++ post) = t' ++ sub_go r tp 0 post ->
  re_sub r tp (pre ++ t ++ post) = pre ++ t' ++ post.
Proof.
  intros Hl Hpre Ho Hpost Ht. unfold re_sub.
  rewrite sub_go_quiet by now apply quiet_contains.
  rewrite Ht. fold (re_sub r tp post). now rewrite re_sub_plain.
Qed.

Lemma sub_go_head_fails (r : regex) (tp : template) (c : ascii)
  (u post : text) :
  match_at r (c :: u ++ post) = None -> clean (head_lit r) u = true ->
  sub_go r tp 0 ((c :: u) ++ post) = (c :: u) ++ sub_go r tp 0 post.
Proof.
  intros E Hc. cbn [app]. now rewrite (sub_go_nomatch _ _ _ _ E), sub_go_clean.
Qed.

Lemma sub_go_head_matches (r : regex) (tp : template) (t post t' : text)
  (st : caps) :
  t <> [] -> match_at r (t ++ post) = Some (post, st) -> expand tp st = t' ->
  sub_go r tp 0 (t ++ post) = t' ++ sub_go r tp 0 post.
Proof.
  intros Ht E <-. apply sub_go_match; [exact E|].
  rewrite length_app. destruct t; [congruence | simpl; lia].
Qed.

Lemma replace_around (old new : text) (lim : option nat)
  (pre t post : text) :
  old <> [] -> contains old pre = false -> no_overhang old t = true ->
  clean old t = true -> contains old post = false ->
  replace_go old new lim 0 (pre ++ t ++ post) = pre ++ t ++ post.
Proof.
  intros Hl Hpre Ho Hc Hpost.
  rewrite replace_go_quiet by now apply quiet_contains.
  rewrite replace_go_quiet by now apply quiet_clean.
  now rewrite replace_plain.
Qed.

Lemma finditer_around (r : regex) (pre t post : text) (st : caps) :
  head_lit r <> [] -> t <> [] ->
  contains (head_lit r) pre = false -> no_overhang (head_lit r) t = true ->
  contains (head_lit r) post = false ->
  match_at r (t ++ post) = Some (post, st) ->
  finditer r (pre ++ t ++ post) = [(length pre, t)].
Proof.
  intros Hl Ht Hpre Ho Hpost E. unfold finditer.
  rewrite finditer_go_quiet by now apply quiet_contains.
  rewrite (finditer_go_match _ _ _ _ _ Ht E).
  fold (finditer r post). cbn [Nat.add].
  rewrite <- (app_nil_r post).
  now rewrite finditer_go_quiet by now apply quiet_nil.
Qed.

(** The first match of [r], when [tail] accepts what follows it, is the
    first match of [r] followed by [tail]. *)
Lemma greedy_seq {A B : Type} (p : ascii -> bool)
  (k : text -> nat -> option A) (k' : text -> nat -> option B)
  (x : A) (y : B) :
  (forall s pos, k s pos = None -> k' s pos = None) ->
  (forall s pos, k s pos = Some x -> k' s pos = Some y) ->
  forall s pos,
    (greedy p k s pos = None -> greedy p k' s pos = None)
    /\ (greedy p k s pos = Some x -> greedy p k' s pos = Some y).
Proof.
  intros Hn Hs s. induction s as [|c s IH]; intros pos; simpl.
  - split; [apply Hn | apply Hs].
  - destruct (p c); [|split; [apply Hn | apply Hs]].
    destruct (IH (S pos)) as [IHn IHs].
    destruct (greedy p k s (S pos)) as [x'|] eqn:E.
    + split; [discriminate|]. intros [= ->]. now rewrite (IHs eq_refl).
    + rewrite (IHn eq_refl). split; [apply Hn | apply Hs].
Qed.

Lemma mt_seq (tail : regex) (rest : text) (st1 : caps) (res : text * caps) :
  (forall pos1, mt tail rest pos1 st1 = Some res) ->
  forall r s pos st,
    (mt r s pos st = None -> mt (followed r tail) s pos st = None)
    /\ (mt r s pos st = Some (rest, st1) ->
        mt (followed r tail) s pos st = Some res).
Proof.
  intros Ht.
  induction r as [|c r IH|p r IH|p r IH|c r IH|n r IH|n r IH|q _ r IH];
    intros s pos st; cbn [mt followed].
  - split; [discriminate|]. intros [= -> ->]. apply Ht.
  - destruct s as [|x s]; [split; [reflexivity|discriminate]|].
    destruct (Ascii.eqb x c); [apply IH | split; [reflexivity|discriminate]].
  - apply greedy_seq; intros s1 pos1; apply IH.
  - destruct s as [|x s]; [split; [reflexivity|discriminate]|].
    destruct (p x); [|split; [reflexivity|discriminate]].
    apply greedy_seq; intros s1 pos1; apply IH.
  - destruct s as [|x s]; [apply IH|].
    destruct (Ascii.eqb x c); [|apply IH].
    destruct (IH s (S pos) st) as [IHn IHs].
    destruct (mt r s (S pos) st) as [[rest' st']|] eqn:E.
    + split; [discriminate|]. intros [= -> ->]. now rewrite (IHs eq_refl).
    + rewrite (IHn eq_refl). apply IH.
  - apply IH.
  - apply IH.
  - destruct (mt q s pos st); [split; [reflexivity|discriminate] | apply IH].
Qed.

Lemma call_re_seq (name : text) (tail : regex) :
  call_re name tail = followed (call_re name Done) tail.
Proof.
  unfold call_re. induction name as [|c n IH]; cbn [lit followed]; [reflexivity|].
  now rewrite IH.
Qed.

Lemma contains_clean (l a b : text) :
  clean l a = true -> contains l (a ++ b) = contains l b.
Proof.
  induction a as [|x a IH]; [reflexivity|].
  cbn [clean]. intros H. apply andb_prop in H as [H1 H2].
  cbn [app contains]. rewrite (IH H2).
  destruct (starts_with l (x :: a ++ b)) eqn:E; [|reflexivity].
  apply (compat_starts_with l (x :: a) b) in E. rewrite E in H1. discriminate.
Qed.

(** Text put in after [u2] brings no occurrence of a short [l] when none
    can start in [u2] followed by that text. *)
Lemma contains_insert (l u1 u2 x v : text) :
  length l <= S (length u2) -> clean l (u2 ++ x) = true ->
  contains l (u1 ++ u2 ++ v) = false ->
  contains l (u1 ++ (u2 ++ x) ++ v) = false.
Proof.
  intros Hl Hc. induction u1 as [|c u1 IH]; intros H.
  - cbn [app] in *. rewrite (contains_clean _ _ _ Hc).
    now apply contains_app_false in H.
  - cbn [app contains] in *. apply orb_false_elim in H as [H1 H2].
    rewrite (IH H2), orb_false_r.
    change (c :: u1 ++ (u2 ++ x) ++ v) with ((c :: u1) ++ (u2 ++ x) ++ v).
    rewrite <- app_assoc, app_assoc, starts_with_long
      by (rewrite length_app; simpl; lia).
    change (c :: u1 ++ u2 ++ v) with ((c :: u1) ++ u2 ++ v) in H1.
    rewrite app_assoc, starts_with_long in H1
      by (rewrite length_app; simpl; lia).
    exact H1.
Qed.

Lemma first_from_exists (sub s : text) (q j : nat) :
  q <= j -> occurs_at sub s j ->
  exists p, first_from sub s q p /\ p <= j.
Proof.
  intros Hq [Hl Hs].
  destruct (find_at sub (skipn q s) q) as [p|] eqn:E.
  - exists p. pose proof (first_from_find sub s q p ltac:(lia) E) as F.
    split; [exact F|]. destruct F as (_ & _ & Hm).
    destruct (Nat.le_gt_cases p j); [assumption|].
    exfalso. apply (Hm j); [lia | now split].
  - exfalso. apply (find_at_none _ _ _ E (j - q)).
    apply occurs_at_skipn; [lia|].
    replace (q + (j - q)) with j by lia. now split.
Qed.

Lemma starts_with_firstn (n : nat) (s : text) :
  starts_with (firstn n s) s = true.
Proof.
  revert n; induction s as [|c s IH]; intros [|n]; simpl; auto.
  now rewrite Ascii.eqb_refl, IH.
Qed.

(** Every item of [re.finditer] is a match of the pattern at its start
    index, with the text the match has read. *)
Lemma finditer_go_sound (r : regex) (i : nat) (m : text) :
  forall s skip pos,
    In (i, m) (finditer_go r skip pos s) ->
    exists k rest st,
      i = pos + k /\ k <= length s
      /\ match_at r (skipn k s) = Some (rest, st)
      /\ skipn k s = m ++ rest.
Proof.
  induction s as [|c s IH]; intros skip pos; cbn [finditer_go]; [easy|].
  assert (Hrec : forall skip',
             In (i, m) (finditer_go r skip' (S pos) s) ->
             exists k rest st,
               i = pos + k /\ k <= length (c :: s)
               /\ match_at r (skipn k (c :: s)) = Some (rest, st)
               /\ skipn k (c :: s) = m ++ rest).
  { intros skip' H. destruct (IH _ _ H) as (k & rest & st & -> & Hk & E & F).
    exists (S k), rest, st. cbn [skipn length]. repeat split; auto; lia. }
  destruct skip as [|skip]; [|apply Hrec].
  destruct (match_at r (c :: s)) as [[rest st]|] eqn:E; [|apply Hrec].
  pose proof E as HM. apply mt_M, M_suffix in HM as [m' Em].
  cbn [fst] in Em.
  assert (Hm : firstn (length (c :: s) - length rest) (c :: s) = m').
  { rewrite Em, length_app, Nat.add_sub, firstn_app, Nat.sub_diag,
      firstn_all. apply app_nil_r. }
  rewrite Hm. intros [[= <- <-]|H]; [|now apply Hrec in H].
  exists 0, rest, st. cbn [skipn]. repeat split; auto; lia.
Qed.

Lemma finditer_sound (r : regex) (s : text) (i : nat) (m : text) :
  In (i, m) (finditer r s) ->
  exists rest st,
    i <= length s /\ match_at r (skipn i s) = Some (rest, st)
    /\ skipn i s = m ++ rest.
Proof.
  intros H. apply finditer_go_sound in H
    as (k & rest & st & -> & Hk & E & F).
  now exists rest, st.
Qed.

Lemma report_sound (r : regex) (s : text) (line : nat) (m : text) :
  In (line, m) (Refactor.report r s) ->
  exists i rest st,
    occurs_at m s i /\ line = count_nl (firstn i s) + 1
    /\ match_at r (skipn i s) = Some (rest, st) /\ skipn i s = m ++ rest.
Proof.
  unfold Refactor.report. intros H.
  apply in_map_iff in H as ([i m'] & [= <- <-] & H).
  destruct (finditer_sound _ _ _ _ H) as (rest & st & Hi & E & F).
  exists i, rest, st. repeat split; auto.
  rewrite F. apply starts_with_app.
Qed.

(** ** The rewriting pipeline on a call site *)

Module RefactorFacts.

Import Refactor.

Lemma malloc_simple_call :
  malloc_simple
  = call_re (T "malloc")
      (NotAhead (pat [ws; Chr "*"; ws; lit (T "sizeof")]) Done).
Proof. reflexivity. Qed.

Lemma strdup_call_call : strdup_call = call_re (T "strdup") Done.
Proof. reflexivity. Qed.

Lemma free_pattern_call : free_pattern = call_re (T "free") Done.
Proof. reflexivity. Qed.

Lemma tail_done (s0 : text) (pos0 : nat) (st0 : caps) (res : text * caps) :
  mt Done s0 pos0 st0 = Some res -> res = (s0, st0).
Proof. simpl. now intros [= <-]. Qed.

Lemma tail_not_ahead (q : regex) (s0 : text) (pos0 : nat) (st0 : caps)
  (res : text * caps) :
  mt (NotAhead q Done) s0 pos0 st0 = Some res -> res = (s0, st0).
Proof. simpl. destruct (mt q s0 pos0 st0); [discriminate|]. now intros [= <-]. Qed.

Ltac by_computation := vm_compute; reflexivity.

Lemma rules_split (s : text) :
  apply_rules replacements s
  = re_sub strdup_call mem_strdup
      (re_sub malloc_simple mem_alloc
         (apply_rules (firstn 4 replacements) s)).
Proof. reflexivity. Qed.

Ltac absent H :=
  apply (free_of_In _ _ _ H); vm_compute;
  repeat (first [left; reflexivity | right]).

Lemma idle_In (t l : text) :
  idle t = true -> In l rewrite_targets ->
  no_overhang l t = true /\ clean l t = true.
Proof.
  unfold idle. rewrite forallb_forall. intros H Hi.
  now apply andb_prop, H.
Qed.

Ltac target := vm_compute; repeat (first [left; reflexivity | right]).

Lemma re_sub_idle (r : regex) (tp : template) (pre t post : text) :
  head_lit r <> [] -> In (head_lit r) rewrite_targets ->
  free_of rewrite_targets pre = true -> idle t = true ->
  free_of rewrite_targets post = true ->
  re_sub r tp (pre ++ t ++ post) = pre ++ t ++ post.
Proof.
  intros Hl Hi Hpre Ht Hpost.
  destruct (idle_In t _ Ht Hi) as [Ho Hc].
  apply re_sub_around;
    [ exact Hl | now apply (free_of_In _ _ _ Hpre) | exact Ho
    | now apply (free_of_In _ _ _ Hpost) | now apply sub_go_clean ].
Qed.

(** A text in which no rewriting step finds anything is returned as it
    is. *)
Lemma rewriting_idle (pre t post : text) :
  free_of rewrite_targets pre = true -> idle t = true ->
  free_of rewrite_targets post = true ->
  apply_rules replacements (fix_includes (pre ++ t ++ post))
  = pre ++ t ++ post.
Proof.
  intros Hpre Ht Hpost.
  unfold fix_includes, py_replace_n, apply_rules, replacements.
  cbn [fold_left fst snd].
  destruct (idle_In t anchor Ht ltac:(target)) as [Ho Hc].
  rewrite (replace_around anchor _ _ pre t post);
    [ | discriminate | absent Hpre | exact Ho | exact Hc | absent Hpost ].
  rewrite (re_sub_idle stdlib_pattern);
    [ | vm_compute; discriminate | target | assumption .. ].
  rewrite (re_sub_idle malloc_sizeof);
    [ | vm_compute; discriminate | target | assumption .. ].
  rewrite (re_sub_idle malloc_array);
    [ | vm_compute; discriminate | target | assumption .. ].
  rewrite (re_sub_idle calloc_one);
    [ | vm_compute; discriminate | target | assumption .. ].
  rewrite (re_sub_idle calloc_array);
    [ | vm_compute; discriminate | target | assumption .. ].
  rewrite (re_sub_idle malloc_simple);
    [ | vm_compute; discriminate | target | assumption .. ].
  rewrite (re_sub_idle strdup_call);
    [ reflexivity | vm_compute; discriminate | target | assumption .. ].
Qed.

Lemma count_nl_prefix (pre rest : text) :
  count_nl (firstn (length pre) (pre ++ rest)) = count_nl pre.
Proof. now rewrite firstn_app, Nat.sub_diag, firstn_all, app_nil_r. Qed.

Lemma no_target_after_injection (a b : text) :
  free_of all_targets (a ++ anchor ++ b) = true ->
  free_of all_targets (a ++ (anchor ++ injected) ++ b) = true.
Proof.
  unfold free_of. rewrite !forallb_forall. intros H l Hl.
  specialize (H l Hl). apply negb_true_iff in H. apply negb_true_iff.
  apply contains_insert; [ | | exact H];
    repeat (destruct Hl as [<-|Hl];
            [first [by_computation | vm_compute; lia]|]);
    contradiction.
Qed.

(** The rewriting of a text without target pattern in which the anchor
    first occurs after [a]: the include line is put in, nothing else
    changes and nothing is reported. *)
Lemma refactor_without_target (a b : text) :
  (forall j, j < length a -> ~ occurs_at anchor (a ++ anchor ++ b) j) ->
  free_of all_targets (a ++ anchor ++ b) = true ->
  refactor_parser_memory (a ++ anchor ++ b)
  = mkOutcome (a ++ anchor ++ injected ++ b) [] [].
Proof.
  intros Hfirst Hfree. apply no_target_after_injection in Hfree.
  unfold refactor_parser_memory, fix_includes.
  rewrite (replace_first_at anchor _ a b ltac:(discriminate) Hfirst).
  unfold apply_rules, replacements. cbn [fold_left fst snd].
  fold injected.
  rewrite (re_sub_plain stdlib_pattern);
    [ | vm_compute; discriminate | absent Hfree ].
  rewrite (re_sub_plain malloc_sizeof);
    [ | vm_compute; discriminate | absent Hfree ].
  rewrite (re_sub_plain malloc_array);
    [ | vm_compute; discriminate | absent Hfree ].
  rewrite (re_sub_plain calloc_one);
    [ | vm_compute; discriminate | absent Hfree ].
  rewrite (re_sub_plain calloc_array);
    [ | vm_compute; discriminate | absent Hfree ].
  rewrite (re_sub_plain malloc_simple);
    [ | vm_compute; discriminate | absent Hfree ].
  rewrite (re_sub_plain strdup_call);
    [ | vm_compute; discriminate | absent Hfree ].
  unfold report.
  rewrite (finditer_plain free_pattern);
    [ | vm_compute; discriminate | absent Hfree ].
  rewrite (finditer_plain realloc_pattern);
    [ | vm_compute; discriminate | absent Hfree ].
  cbn [map]. now rewrite <- !app_assoc.
Qed.

End RefactorFacts.

(** ** Further properties of the rewriter *)

Lemma write_same (d : disk) (name content : text) :
  write d name content name = Some content.
Proof. unfold write. now destruct (list_eq_dec ascii_dec name name). Qed.

Lemma write_other (d : disk) (name content n : text) :
  n <> name -> write d name content n = d n.
Proof. intros H. unfold write. now destruct (list_eq_dec ascii_dec n name). Qed.

(** ** The rules on call sites with any name *)

Lemma first_out (p : ascii -> bool) (w1 w2 : text) (c1 c2 : ascii)
  (r1 r2 : text) :
  w1 ++ c1 :: r1 = w2 ++ c2 :: r2 ->
  forallb p w1 = true -> forallb p w2 = true ->
  p c1 = false -> p c2 = false ->
  w1 = w2 /\ c1 = c2 /\ r1 = r2.
Proof.
  revert w2; induction w1 as [|x w1 IH]; intros [|y w2]; cbn [app forallb].
  - intros [= -> ->]. auto.
  - intros [= -> _] _ H Hc _. apply andb_prop in H as [H _]. congruence.
  - intros [= -> _] H _ _ Hc. apply andb_prop in H as [H _]. congruence.
  - intros [= -> E] H1 H2 Hc1 Hc2.
    apply andb_prop in H1 as [_ H1]. apply andb_prop in H2 as [_ H2].
    destruct (IH _ E H1 H2 Hc1 Hc2) as (-> & -> & ->). auto.
Qed.

Lemma forallb_weaken (p q : ascii -> bool) (w : text) :
  (forall c, p c = true -> q c = true) ->
  forallb p w = true -> forallb q w = true.
Proof.
  intros H. rewrite !forallb_forall. auto.
Qed.

Lemma word_is_word_or_space (w : text) :
  forallb is_word w = true -> forallb word_or_space w = true.
Proof.
  apply forallb_weaken. intros c H. unfold word_or_space. now rewrite H.
Qed.

Lemma space_is_word_or_space (w : text) :
  forallb is_space w = true -> forallb word_or_space w = true.
Proof.
  apply forallb_weaken. intros c H. unfold word_or_space. rewrite H.
  apply orb_true_r.
Qed.

Lemma mt_lit_app (l : text) (r : regex) (s : text) (pos : nat) (st : caps) :
  mt (lit l r) (l ++ s) pos st = mt r s (pos + length l) st.
Proof.
  revert pos; induction l as [|c l IH]; intros pos; cbn [lit app length].
  - now rewrite Nat.add_0_r.
  - cbn [mt]. now rewrite Ascii.eqb_refl, IH, Nat.add_succ_r.
Qed.

Lemma mt_chr (c : ascii) (r : regex) (s : text) (pos : nat) (st : caps) :
  mt (Chr c r) (c :: s) pos st = mt r s (S pos) st.
Proof. cbn [mt]. now rewrite Ascii.eqb_refl. Qed.

Lemma mt_chr_other (c x : ascii) (r : regex) (s : text) (pos : nat)
  (st : caps) :
  x <> c -> mt (Chr c r) (x :: s) pos st = None.
Proof. intros H. cbn [mt]. now destruct (Ascii.eqb_spec x c). Qed.

Lemma mt_ws_stop (r : regex) (x : ascii) (s : text) (pos : nat) (st : caps) :
  is_space x = false -> mt (ws r) (x :: s) pos st = mt r (x :: s) pos st.
Proof. intros H. unfold ws. cbn [mt greedy]. now rewrite H. Qed.

Lemma mt_opt_skip (c x : ascii) (r : regex) (s : text) (pos : nat)
  (st : caps) :
  x <> c -> mt (Opt c r) (x :: s) pos st = mt r (x :: s) pos st.
Proof. intros H. cbn [mt]. now destruct (Ascii.eqb_spec x c). Qed.

Lemma greedy_run {A : Type} (p : ascii -> bool)
  (k : text -> nat -> option A) (w rest : text) (pos : nat) (res : A) :
  forallb p w = true ->
  greedy p k rest (pos + length w) = Some res ->
  greedy p k (w ++ rest) pos = Some res.
Proof.
  revert pos; induction w as [|x w IH]; intros pos; cbn [app length forallb].
  - now rewrite Nat.add_0_r.
  - intros H E. apply andb_prop in H as [Hx Hw]. cbn [greedy]. rewrite Hx.
    rewrite (IH (S pos) Hw); [reflexivity|].
    now rewrite Nat.add_succ_r in E.
Qed.

Lemma mt_plus_run (p : ascii -> bool) (r : regex) (w : text) (c : ascii)
  (rest : text) (pos : nat) (st : caps) (res : text * caps) :
  w <> [] -> forallb p w = true -> p c = false ->
  mt r (c :: rest) (pos + length w) st = Some res ->
  mt (Plus p r) (w ++ c :: rest) pos st = Some res.
Proof.
  intros Hw Hp Hc E. destruct w as [|x w]; [congruence|].
  cbn [forallb] in Hp. apply andb_prop in Hp as [Hx Hp].
  cbn [app mt]. rewrite Hx. apply greedy_run; [exact Hp|].
  cbn [greedy]. rewrite Hc. cbn [length] in E.
  now rewrite Nat.add_succ_r in E.
Qed.

Lemma mt_ws_run (r : regex) (sp : text) (x : ascii) (rest : text)
  (pos : nat) (st : caps) (res : text * caps) :
  forallb is_space sp = true -> is_space x = false ->
  mt r (x :: rest) (pos + length sp) st = Some res ->
  mt (ws r) (sp ++ x :: rest) pos st = Some res.
Proof.
  intros Hs Hx E. unfold ws. cbn [mt]. apply greedy_run; [exact Hs|].
  cbn [greedy]. now rewrite Hx.
Qed.

Lemma head_lit_rule (name : text) (r' : regex) :
  head_lit (lit name (ws (Chr "("%char r'))) = name.
Proof.
  induction name as [|c l IH]; cbn [lit head_lit]; [reflexivity|].
  now rewrite IH.
Qed.

(** After its name a rule wants white space and an opening parenthesis:
    it cannot match where words and white space are followed by another
    character. *)
Lemma call_needs_paren (name : text) (r' : regex) (w : text) (c : ascii)
  (post : text) (pos : nat) (st : caps) :
  forallb is_word name = true -> forallb word_or_space w = true ->
  word_or_space c = false -> c <> "("%char ->
  mt (lit name (ws (Chr "("%char r'))) (w ++ c :: post) pos st = None.
Proof.
  intros Hn Hw Hc Hp.
  destruct (mt _ _ pos st) as [res|] eqn:E; [exfalso|reflexivity].
  apply mt_lit in E as (s' & Es & E). unfold ws in E. cbn [mt] in E.
  apply greedy_inv in E as (sp & s2 & -> & Hsp & E).
  destruct s2 as [|x s2]; [discriminate|]. cbn [mt] in E.
  destruct (Ascii.eqb_spec x "("%char) as [->|]; [|discriminate].
  rewrite app_assoc in Es.
  destruct (first_out word_or_space _ _ _ _ _ _ Es Hw) as (_ & Hx & _);
    auto.
  rewrite forallb_app, (word_is_word_or_space _ Hn).
  now rewrite (space_is_word_or_space _ Hsp).
Qed.

(** Right after its name a rule cannot go on with a character that is
    neither white space nor an opening parenthesis. *)
Lemma call_after_name (name : text) (r' : regex) (x : ascii) (s : text)
  (pos : nat) (st : caps) :
  is_space x = false -> x <> "("%char ->
  mt (lit name (ws (Chr "("%char r'))) (name ++ x :: s) pos st = None.
Proof.
  intros Hs Hx. rewrite mt_lit_app, mt_ws_stop by exact Hs.
  now apply mt_chr_other.
Qed.

Lemma sub_go_silent (r : regex) (tp : template) (pre rest : text) :
  (forall a1 a2, pre = a1 ++ a2 -> a2 <> [] ->
                 match_at r (a2 ++ rest) = None) ->
  sub_go r tp 0 (pre ++ rest) = pre ++ sub_go r tp 0 rest.
Proof.
  induction pre as [|x pre IH]; intros H; [reflexivity|].
  cbn [app]. rewrite sub_go_nomatch.
  - rewrite IH; [reflexivity|]. intros a1 a2 -> Ha.
    now apply (H (x :: a1) a2).
  - apply (H [] (x :: pre) eq_refl). discriminate.
Qed.

(** A rule passes over a word that is followed by white space and then by
    a character other than an opening parenthesis. *)
Lemma sub_go_word (name : text) (r : regex) (tp : template)
  (w sp : text) (c : ascii) (rest : text) :
  call_rule name r -> forallb is_word name = true ->
  forallb is_word w = true -> forallb is_space sp = true ->
  word_or_space c = false -> c <> "("%char ->
  sub_go r tp 0 (w ++ sp ++ c :: rest) = w ++ sub_go r tp 0 (sp ++ c :: rest).
Proof.
  intros [r' ->] Hn Hw Hs Hc Hp. apply sub_go_silent.
  intros a1 a2 -> Ha. unfold match_at. rewrite app_assoc.
  apply call_needs_paren; auto.
  rewrite forallb_app in Hw. apply andb_prop in Hw as [_ Hw].
  rewrite forallb_app, (word_is_word_or_space _ Hw).
  now rewrite (space_is_word_or_space _ Hs).
Qed.

(** A rule finds nothing before a text [rest] when its name does not occur
    there and an occurrence that runs into [rest] is followed by a
    wrong character. *)
Lemma sub_go_before (name : text) (r : regex) (tp : template)
  (pre rest : text) :
  call_rule name r -> contains name pre = false ->
  (forall l2, In l2 (proper_suffixes name) -> starts_with l2 rest = true ->
     exists x s, rest = l2 ++ x :: s /\ is_space x = false
                 /\ x <> "("%char) ->
  sub_go r tp 0 (pre ++ rest) = pre ++ sub_go r tp 0 rest.
Proof.
  intros [r' ->] Hc Ho. apply sub_go_silent. intros a1 a2 -> Ha.
  destruct (starts_with name (a2 ++ rest)) eqn:E.
  - destruct (Nat.le_gt_cases (length name) (length a2)) as [Hl|Hl].
    + rewrite (starts_with_long _ _ _ Hl) in E.
      now rewrite (contains_starts_false _ _ _ Hc) in E.
    + destruct (starts_with_overhang _ _ _ E Hl) as (l2 & -> & Hn & Hs).
      destruct (Ho l2 (proper_suffixes_In a2 l2 Ha Hn) Hs)
        as (x & s & -> & Hx & Hp).
      rewrite app_assoc. now apply call_after_name.
  - apply mt_head_lit. now rewrite head_lit_rule.
Qed.

Lemma class_neither (p : ascii -> bool) (c d x : ascii) :
  negb (p c) && negb (p d) = true -> p x = true -> neither c d x = true.
Proof.
  intros H Hx. apply andb_prop in H as [H1 H2]. unfold neither.
  destruct (Ascii.eqb_spec x c) as [->|];
    [rewrite Hx in H1; discriminate|].
  destruct (Ascii.eqb_spec x d) as [->|];
    [rewrite Hx in H2; discriminate | reflexivity].
Qed.

Lemma M_reads_first (c d : ascii) (r : regex) (s rest : text) :
  M r s rest -> reads_first c d r = true ->
  exists a b, s = a ++ c :: b /\ forallb (neither c d) a = true.
Proof.
  induction 1 as [s|x r s rest _ IH|p r s rest _ IH|p r x s rest Hx _ IH
                 |p r x s rest Hx _ IH|x r s rest _ IH|x r s rest _ IH
                 |n r s rest _ IH|n r s rest _ IH|q r s rest _ IH];
    cbn [reads_first]; intros Hn.
  - discriminate.
  - destruct (Ascii.eqb_spec x c) as [->|H1];
      [now exists [], s|].
    destruct (Ascii.eqb_spec x d) as [->|H2]; [discriminate|].
    destruct (IH Hn) as (a & b & -> & Ha). exists (x :: a), b.
    split; [reflexivity|]. cbn [forallb]. rewrite Ha. unfold neither.
    destruct (Ascii.eqb_spec x c); [contradiction|].
    now destruct (Ascii.eqb_spec x d).
  - apply andb_prop in Hn as [_ Hn]. auto.
  - destruct (IH Hn) as (a & b & -> & Ha). exists (x :: a), b.
    split; [reflexivity|]. apply andb_prop in Hn as [Hn _].
    cbn [forallb]. now rewrite Ha, (class_neither p c d x Hn Hx).
  - destruct (IH Hn) as (a & b & -> & Ha). exists (x :: a), b.
    split; [reflexivity|]. apply andb_prop in Hn as [Hn _].
    cbn [forallb]. now rewrite Ha, (class_neither p c d x Hn Hx).
  - apply andb_prop in Hn as [Hc Hn].
    destruct (IH Hn) as (a & b & -> & Ha). exists (x :: a), b.
    split; [reflexivity|]. cbn [forallb]. now rewrite Ha, Hc.
  - apply andb_prop in Hn as [_ Hn]. auto.
  - auto.
  - auto.
  - auto.
Qed.

(** A pattern that has to read [c] first does not match where [d] comes
    before any [c]. *)
Lemma mt_reads_first (c d : ascii) (r : regex) (arg post : text)
  (pos : nat) (st : caps) :
  c <> d -> reads_first c d r = true ->
  forallb (neither c d) arg = true ->
  mt r (arg ++ d :: post) pos st = None.
Proof.
  intros Hcd Hn Ha.
  destruct (mt r _ pos st) as [res|] eqn:E; [exfalso|reflexivity].
  apply mt_M in E.
  destruct (M_reads_first c d _ _ _ E Hn) as (a & b & Es & Hb).
  destruct (first_out (neither c d) _ _ _ _ _ _ Es Ha Hb)
    as (_ & Hx & _); [| |congruence]; unfold neither;
    rewrite Ascii.eqb_refl, ?orb_true_r; reflexivity.
Qed.

Module RefactorExtras.

Import Refactor RefactorFacts.

(** X1: a text in which no rewriting step finds its pattern (no anchor,
    no stdlib.h line, no malloc, calloc or strdup) is returned as it is,
    so the command line writes [add_allocator_helpers] of the input; when
    it holds no [free] and no [realloc] either, nothing is printed. *)
Theorem refactor_without_rewrite_target (s : text) :
  free_of rewrite_targets s = true ->
  returned (refactor_parser_memory s) = s
  /\ pipeline s = add_allocator_helpers s
  /\ (free_of report_targets s = true ->
      RefactorMain.printed (refactor_parser_memory s) = []).
Proof.
  intros H.
  assert (E : returned (refactor_parser_memory s) = s).
  { unfold refactor_parser_memory, fix_includes, py_replace_n, apply_rules,
      replacements.
    cbn [returned fold_left fst snd].
    rewrite replace_plain; [ | discriminate | absent H ].
    rewrite (re_sub_plain stdlib_pattern);
      [ | vm_compute; discriminate | absent H ].
    rewrite (re_sub_plain malloc_sizeof);
      [ | vm_compute; discriminate | absent H ].
    rewrite (re_sub_plain malloc_array);
      [ | vm_compute; discriminate | absent H ].
    rewrite (re_sub_plain calloc_one);
      [ | vm_compute; discriminate | absent H ].
    rewrite (re_sub_plain calloc_array);
      [ | vm_compute; discriminate | absent H ].
    rewrite (re_sub_plain malloc_simple);
      [ | vm_compute; discriminate | absent H ].
    rewrite (re_sub_plain strdup_call);
      [ reflexivity | vm_compute; discriminate | absent H ]. }
  split; [exact E|]. split; [unfold pipeline; now rewrite E|].
  intros Hr. unfold RefactorMain.printed, refactor_parser_memory.
  cbn [free_report realloc_report].
  change (apply_rules replacements (fix_includes s))
    with (returned (refactor_parser_memory s)).
  rewrite E. unfold report.
  rewrite (finditer_plain free_pattern);
    [ | vm_compute; discriminate | absent Hr ].
  rewrite (finditer_plain realloc_pattern);
    [ | vm_compute; discriminate | absent Hr ].
  reflexivity.
Qed.

Lemma refactor_without_rewrite_target_witness :
  let s := T "int main(void)
{
    return 0;
}
" in
  free_of rewrite_targets s = true
  /\ returned (refactor_parser_memory s) = s.
Proof.
  intros s. assert (H : free_of rewrite_targets s = true) by reflexivity.
  split; [exact H|]. apply (refactor_without_rewrite_target s H).
Defined.

Lemma occurs_in_prefix (sub a x : text) (j : nat) :
  j + length sub <= length a ->
  (occurs_at sub (a ++ x) j <-> starts_with sub (skipn j a) = true).
Proof.
  intros H. unfold occurs_at.
  rewrite skipn_app. replace (j - length a) with 0 by lia. cbn [skipn].
  rewrite starts_with_long by (rewrite length_skipn; lia).
  rewrite length_app. split; [now intros [_ E] | intros E; split; [lia|exact E]].
Qed.

Lemma include_before_blank (c : text) (q p : nat) :
  occurs_at (T "#include") c q -> occurs_at [nl; nl] c p -> q <= p ->
  q + 8 <= p.
Proof.
  intros [_ Hi] [_ Hb] Hqp.
  destruct (Nat.le_gt_cases (q + 8) p) as [|Hlt]; [assumption|exfalso].
  apply starts_with_split in Hi.
  replace p with (q + (p - q)) in Hb by lia.
  rewrite Nat.add_comm, <- skipn_skipn, Hi in Hb.
  assert (Hk : p - q < 8) by lia. revert Hb Hk.
  generalize (skipn (length (T "#include")) (skipn q c)) as rest.
  generalize (p - q) as k. intros k rest Hb Hk.
  do 8 (destruct k as [|k]; [discriminate Hb|]). lia.
Qed.

(** X2: [add_allocator_helpers] is not idempotent.  Applied to its own
    output it finds the same blank line after the same first include and
    puts a second copy of the helper block before the first one. *)
Theorem add_allocator_helpers_twice (content : text) (q p : nat) :
  first_from (T "#include") content 0 q ->
  first_from [nl; nl] content q p ->
  add_allocator_helpers (add_allocator_helpers content)
  = firstn (p + 2) content ++ helper_block ++ helper_block
    ++ skipn (p + 2) content.
Proof.
  intros Hq Hp.
  rewrite (proj1 (helpers_inserted content q Hq) p Hp).
  pose proof Hq as (_ & Hqo & Hqm). pose proof Hp as (Hqp & Hpo & Hpm).
  pose proof (include_before_blank _ _ _ Hqo Hpo Hqp) as H8.
  assert (Hlen : length (firstn (p + 2) content) = p + 2).
  { apply firstn_length_le. destruct Hpo as [Hl Hs].
    apply starts_with_split in Hs.
    apply (f_equal (@length ascii)) in Hs.
    rewrite length_skipn, length_app in Hs. simpl in Hs. lia. }
  set (a := firstn (p + 2) content) in *.
  set (b := skipn (p + 2) content).
  assert (Ec : content = a ++ b) by (symmetry; apply firstn_skipn).
  assert (Hq' : first_from (T "#include") (a ++ helper_block ++ b) 0 q).
  { split; [lia|]. split.
    - apply occurs_in_prefix; [simpl; lia|].
      rewrite Ec in Hqo. apply occurs_in_prefix in Hqo; [exact Hqo|simpl; lia].
    - intros j Hj Ho. apply (Hqm j Hj). rewrite Ec.
      apply occurs_in_prefix; [simpl; lia|].
      apply occurs_in_prefix in Ho; [exact Ho|simpl; lia]. }
  assert (Hp' : first_from [nl; nl] (a ++ helper_block ++ b) q p).
  { split; [lia|]. split.
    - apply occurs_in_prefix; [simpl; lia|].
      rewrite Ec in Hpo. apply occurs_in_prefix in Hpo; [exact Hpo|simpl; lia].
    - intros j Hj Ho. apply (Hpm j Hj). rewrite Ec.
      apply occurs_in_prefix; [simpl; lia|].
      apply occurs_in_prefix in Ho; [exact Ho|simpl; lia]. }
  rewrite (proj1 (helpers_inserted _ q Hq') p Hp').
  rewrite <- Hlen.
  now rewrite firstn_app, Nat.sub_diag, firstn_all, skipn_app, Nat.sub_diag,
    skipn_all, app_nil_r.
Qed.

Lemma add_allocator_helpers_twice_witness :
  let c := T "#include <a.h>

int x;" in
  first_from (T "#include") c 0 0 /\ first_from [nl; nl] c 0 14
  /\ add_allocator_helpers (add_allocator_helpers c)
     = firstn 16 c ++ helper_block ++ helper_block ++ skipn 16 c.
Proof.
  intros c.
  assert (Hc : first_from (T "#include") c 0 0)
    by (apply first_from_find; [simpl; lia | reflexivity]).
  assert (Hp : first_from [nl; nl] c 0 14)
    by (apply first_from_find; [simpl; lia | reflexivity]).
  split; [exact Hc|]. split; [exact Hp|].
  exact (add_allocator_helpers_twice c 0 14 Hc Hp).
Defined.

Lemma first_anchor_kept (a x y : text) :
  (forall j, j < length a -> ~ occurs_at anchor (a ++ anchor ++ x) j) ->
  forall j, j < length a -> ~ occurs_at anchor (a ++ anchor ++ y) j.
Proof.
  intros H j Hj Ho. apply (H j Hj).
  rewrite app_assoc in *.
  apply occurs_in_prefix; [rewrite length_app; lia|].
  apply occurs_in_prefix in Ho; [exact Ho | rewrite length_app; lia].
Qed.

(** X3: the rewriting is not idempotent.  On a text without target
    pattern that holds the anchor, a second run puts in the include line
    a second time, after the same anchor. *)
Theorem refactor_twice_injects_twice (a b : text) :
  (forall j, j < length a -> ~ occurs_at anchor (a ++ anchor ++ b) j) ->
  free_of all_targets (a ++ anchor ++ b) = true ->
  returned (refactor_parser_memory
              (returned (refactor_parser_memory (a ++ anchor ++ b))))
  = a ++ anchor ++ injected ++ injected ++ b.
Proof.
  intros Hfirst Hfree.
  rewrite (refactor_without_target a b Hfirst Hfree). cbn [returned].
  rewrite (refactor_without_target a (injected ++ b)); [reflexivity| |].
  - exact (first_anchor_kept a b (injected ++ b) Hfirst).
  - apply no_target_after_injection in Hfree.
    now rewrite <- app_assoc in Hfree.
Qed.

Lemma refactor_twice_injects_twice_witness :
  let a := T "#include <stdio.h>
" in
  let b := T "
int x;
" in
  (forall j, j < length a -> ~ occurs_at anchor (a ++ anchor ++ b) j)
  /\ free_of all_targets (a ++ anchor ++ b) = true
  /\ returned (refactor_parser_memory
                 (returned (refactor_parser_memory (a ++ anchor ++ b))))
     = a ++ anchor ++ injected ++ injected ++ b.
Proof.
  intros a b.
  assert (H1 : forall j, j < length a ->
                         ~ occurs_at anchor (a ++ anchor ++ b) j).
  { intros j Hj Ho.
    assert (F : first_from anchor (a ++ anchor ++ b) 0 (length a))
      by (apply first_from_find; [simpl; lia | reflexivity]).
    destruct F as (_ & _ & Hm). apply (Hm j); [lia | exact Ho]. }
  assert (H2 : free_of all_targets (a ++ anchor ++ b) = true) by reflexivity.
  split; [exact H1|]. split; [exact H2|].
  exact (refactor_twice_injects_twice a b H1 H2).
Defined.

(** X4: a stdlib.h line is deleted with its newline and the texts around
    it are joined, when no other step finds its pattern; the joined text
    is not looked at again, so it may itself hold a stdlib.h line. *)
Theorem stdlib_line_removed (pre post : text) :
  free_of include_targets pre = true ->
  free_of include_targets post = true ->
  free_of call_names (pre ++ post) = true ->
  returned (refactor_parser_memory (pre ++ stdlib_line ++ post))
  = pre ++ post.
Proof.
  intros Hpre Hpost Hcalls.
  unfold refactor_parser_memory, fix_includes, py_replace_n, apply_rules,
    replacements.
  cbn [returned fold_left fst snd].
  rewrite (replace_around anchor _ _ pre stdlib_line post);
    [ | discriminate | absent Hpre | by_computation | by_computation
      | absent Hpost ].
  assert (E : exists st, match_at stdlib_pattern (stdlib_line ++ post)
                         = Some (post, st))
    by (eexists; by_computation).
  destruct E as [st E].
  rewrite (re_sub_around stdlib_pattern [] pre stdlib_line post []);
    [ | vm_compute; discriminate | absent Hpre | by_computation
      | absent Hpost
      | apply (sub_go_head_matches _ _ _ _ _ st);
        [discriminate | exact E | reflexivity] ].
  cbn [app].
  rewrite (re_sub_plain malloc_sizeof);
    [ | vm_compute; discriminate | absent Hcalls ].
  rewrite (re_sub_plain malloc_array);
    [ | vm_compute; discriminate | absent Hcalls ].
  rewrite (re_sub_plain calloc_one);
    [ | vm_compute; discriminate | absent Hcalls ].
  rewrite (re_sub_plain calloc_array);
    [ | vm_compute; discriminate | absent Hcalls ].
  rewrite (re_sub_plain malloc_simple);
    [ | vm_compute; discriminate | absent Hcalls ].
  rewrite (re_sub_plain strdup_call);
    [ reflexivity | vm_compute; discriminate | absent Hcalls ].
Qed.

Lemma stdlib_line_removed_witness :
  let pre := T "#include <std" in
  let post := T "lib.h>
int x;
" in
  free_of include_targets pre = true
  /\ free_of include_targets post = true
  /\ free_of call_names (pre ++ post) = true
  /\ returned (refactor_parser_memory (pre ++ stdlib_line ++ post))
     = T "#include <stdlib.h>
int x;
".
Proof.
  intros pre post.
  assert (H1 : free_of include_targets pre = true) by reflexivity.
  assert (H2 : free_of include_targets post = true) by reflexivity.
  assert (H3 : free_of call_names (pre ++ post) = true) by reflexivity.
  split; [exact H1|]. split; [exact H2|]. split; [exact H3|].
  exact (stdlib_line_removed pre post H1 H2 H3).
Defined.

Lemma replace_go_length (old new : text) :
  old <> [] -> length old <= length new ->
  forall s skip,
    length s <= length (replace_go old new None skip s) + skip.
Proof.
  intros Ho Hl. induction s as [|c s IH]; intros skip; [simpl; lia|].
  destruct skip as [|k]; cbn [replace_go andb length].
  - destruct (starts_with old (c :: s)).
    + cbn [option_map]. rewrite length_app.
      specialize (IH (Nat.pred (length old))).
      destruct old; [congruence | simpl in *; lia].
    + cbn [length]. specialize (IH 0). lia.
  - specialize (IH k). lia.
Qed.

Lemma replace_longer (old new s : text) :
  old <> [] -> length old < length new ->
  contains old s = true ->
  length s < length (py_replace s old new).
Proof.
  intros Ho Hl. unfold py_replace. induction s as [|c s IH]; intros Hc.
  - destruct old; [congruence | discriminate].
  - cbn [replace_go andb]. cbn [contains] in Hc.
    destruct (starts_with old (c :: s)) eqn:E.
    + cbn [option_map]. rewrite length_app.
      pose proof (replace_go_length old new Ho (Nat.lt_le_incl _ _ Hl) s
                    (Nat.pred (length old))) as H.
      destruct old; [congruence | simpl in *; lia].
    + cbn [orb] in Hc. cbn [length]. specialize (IH Hc). lia.
Qed.

(** X5: run on an existing file whose name holds [.c], the script ends
    normally, writes under a longer name the rewritten text, with the
    helpers, of what it read (the stored text with every carriage return
    and newline pair, and every other carriage return, read as one
    newline), and leaves every other file, the input among them, as it
    was. *)
Theorem main_writes_one_new_file (prog filename content : text) (d : disk) :
  d filename = Some content ->
  contains (T ".c") filename = true ->
  let r := RefactorMain.main [prog; filename] d in
  ended r = Finished
  /\ length filename < length (output_filename filename)
  /\ files r (output_filename filename)
     = Some (pipeline (universal_newlines content))
  /\ (forall n, n <> output_filename filename -> files r n = d n)
  /\ files r filename = Some content.
Proof.
  intros Hd Hc r.
  assert (Hlen : length filename < length (output_filename filename))
    by (apply replace_longer; [discriminate | simpl; lia | exact Hc]).
  subst r. unfold RefactorMain.main. rewrite Hd. cbn [ended files].
  repeat split.
  - exact Hlen.
  - apply write_same.
  - intros n Hn. now apply write_other.
  - rewrite write_other; [exact Hd|].
    intros E. rewrite <- E in Hlen. lia.
Qed.

Lemma main_writes_one_new_file_witness :
  let stored := T "int x;" ++ [cr; nl] ++ T "int y;" ++ [cr] in
  let d := write (fun _ => None) (T "parser.c") stored in
  d (T "parser.c") = Some stored
  /\ contains (T ".c") (T "parser.c") = true
  /\ files (RefactorMain.main [T "refactor_parser.py"; T "parser.c"] d)
       (T "parser_refactored.c")
     = Some (T "int x;" ++ [nl] ++ T "int y;" ++ [nl])
  /\ files (RefactorMain.main [T "refactor_parser.py"; T "parser.c"] d)
       (T "parser.c") = Some stored.
Proof.
  intros stored d.
  assert (H1 : d (T "parser.c") = Some stored) by reflexivity.
  assert (H2 : contains (T ".c") (T "parser.c") = true) by reflexivity.
  split; [exact H1|]. split; [exact H2|].
  destruct (main_writes_one_new_file (T "refactor_parser.py") (T "parser.c")
              stored d H1 H2) as (_ & _ & H3 & _ & H5).
  split; [exact H3 | exact H5].
Defined.

(** X6: run on an existing file whose name holds no [.c], the script
    writes its output, the rewritten text with the helpers of what it
    read (the stored text with its line ends read as newlines), over the
    input file. *)
Theorem main_overwrites_input (prog filename content : text) (d : disk) :
  d filename = Some content ->
  contains (T ".c") filename = false ->
  let r := RefactorMain.main [prog; filename] d in
  ended r = Finished
  /\ files r filename = Some (pipeline (universal_newlines content))
  /\ (forall n, n <> filename -> files r n = d n).
Proof.
  intros Hd Hc r.
  assert (E : output_filename filename = filename)
    by (apply replace_plain; [discriminate | exact Hc]).
  subst r. unfold RefactorMain.main. rewrite Hd, E. cbn [ended files].
  repeat split.
  - apply write_same.
  - intros n Hn. now apply write_other.
Qed.

Lemma main_overwrites_input_witness :
  let stored := T "int x;" ++ [cr; nl] in
  let d := write (fun _ => None) (T "parser.h") stored in
  d (T "parser.h") = Some stored
  /\ contains (T ".c") (T "parser.h") = false
  /\ files (RefactorMain.main [T "refactor_parser.py"; T "parser.h"] d)
       (T "parser.h") = Some (pipeline (T "int x;" ++ [nl])).
Proof.
  intros stored d.
  assert (H1 : d (T "parser.h") = Some stored) by reflexivity.
  assert (H2 : contains (T ".c") (T "parser.h") = false) by reflexivity.
  split; [exact H1|]. split; [exact H2|].
  exact (proj1 (proj2 (main_overwrites_input (T "refactor_parser.py")
                         (T "parser.h") stored d H1 H2))).
Defined.

(** X7: unless it is given exactly one argument and can read the file
    of that name, the script writes no file: with another number of
    arguments it prints the usage line and exits with status 1, and with
    a name that is not there the error of [open] ends it before anything
    is printed. *)
Theorem main_failures_write_nothing (argv : list text) (d : disk) :
  let r := RefactorMain.main argv d in
  (length argv <> 2 ->
   stdout r = [RefactorMain.usage] /\ ended r = Exit 1 /\ files r = d)
  /\ (forall prog filename,
        argv = [prog; filename] -> d filename = None ->
        stdout r = [] /\ ended r = Raised /\ files r = d)
  /\ (ended r <> Finished -> files r = d).
Proof.
  cbv zeta. unfold RefactorMain.main. split; [|split].
  - intros H. destruct argv as [|a [|b [|c l]]]; simpl in *;
      repeat split; congruence.
  - intros prog filename -> H. rewrite H. repeat split.
  - destruct argv as [|a [|b [|c l]]]; try reflexivity.
    destruct (d b); [cbn [ended]; congruence | reflexivity].
Qed.

Lemma main_failures_write_nothing_witness :
  let d : disk := fun _ => None in
  let r := RefactorMain.main [T "refactor_parser.py"] d in
  length [T "refactor_parser.py"] <> 2
  /\ stdout r = [RefactorMain.usage] /\ ended r = Exit 1 /\ files r = d.
Proof.
  intros d r.
  assert (H : length [T "refactor_parser.py"] <> 2) by (simpl; lia).
  split; [exact H|].
  exact (proj1 (main_failures_write_nothing [T "refactor_parser.py"] d) H).
Defined.

End RefactorExtras.

Module GeneratorExtras.

Import Generator GeneratorFacts GeneratorMain.

Lemma nat_of_text_str (n : nat) : nat_of_text (str n) = Some n.
Proof.
  unfold nat_of_text, str, T. rewrite string_of_list_ascii_of_string.
  pose proof (DecimalNat.Unsigned.of_to n) as E.
  destruct (Nat.to_uint n) eqn:D;
    try (rewrite NilZero.usu by discriminate; cbn [option_map];
         now rewrite E).
  rewrite NilZero.usu_nil. cbn [option_map]. now rewrite <- E.
Qed.

Lemma str_inj (a b : nat) : str a = str b -> a = b.
Proof.
  intros E. apply (f_equal nat_of_text) in E.
  rewrite !nat_of_text_str in E. congruence.
Qed.

Lemma occurrences_clean (p a b : text) :
  clean p a = true -> occurrences p (a ++ b) = occurrences p b.
Proof. intros H. unfold occurrences. now rewrite hits_clean. Qed.

Lemma occurrences_digits (p ds b : text) :
  negb (is_digit (hd "0"%char p)) && forallb is_digit ds = true ->
  occurrences p (ds ++ b) = occurrences p b.
Proof.
  intros H. rewrite !occurrences_numbers. now rewrite numbers_after_digits.
Qed.

Lemma occurrences_hit (p b : text) :
  negb (starts_with p []) && clean p (tl p) = true ->
  occurrences p (p ++ b) = S (occurrences p b).
Proof.
  intros H. apply andb_prop in H as [H1 H2].
  destruct p as [|x a]; [discriminate|]. unfold occurrences.
  now rewrite (hits_app_clean_tail (x :: a) x a b eq_refl H2).
Qed.

Ltac count_step :=
  first
    [ rewrite occurrences_hit by reflexivity
    | rewrite occurrences_clean by reflexivity
    | rewrite occurrences_digits by (rewrite str_digits; reflexivity) ].

Ltac count := rewrite <- ?app_assoc; repeat count_step.

Lemma split_helper_line :
  T "func privateHelper" = any_function ++ T "privateHelper".
Proof. reflexivity. Qed.

Lemma split_export_line :
  T "export func publicFunction"
  = T "export " ++ any_function ++ T "publicFunction".
Proof. reflexivity. Qed.

Lemma split_footer_line :
  T "[Large Module] Loaded with " = T "[Large Module] " ++ footer_count.
Proof. reflexivity. Qed.

Lemma count_private_helper (i : nat) (b : text) :
  numbers_after header_count (private_helper i ++ b)
  = numbers_after header_count b
  /\ numbers_after footer_count (private_helper i ++ b)
     = numbers_after footer_count b
  /\ occurrences any_function (private_helper i ++ b)
     = S (occurrences any_function b).
Proof.
  unfold private_helper. rewrite split_helper_line.
  repeat split; [scan | scan | count]; reflexivity.
Qed.

Lemma count_public_function (i : nat) (b : text) :
  numbers_after header_count (public_function i ++ b)
  = numbers_after header_count b
  /\ numbers_after footer_count (public_function i ++ b)
     = numbers_after footer_count b
  /\ occurrences any_function (public_function i ++ b)
     = S (occurrences any_function b).
Proof.
  unfold public_function. rewrite split_export_line.
  repeat split; [scan | scan | count]; reflexivity.
Qed.

Section CountBlocks.

Variable block : nat -> text.
Hypothesis count_block : forall i b,
  numbers_after header_count (block i ++ b) = numbers_after header_count b
  /\ numbers_after footer_count (block i ++ b)
     = numbers_after footer_count b
  /\ occurrences any_function (block i ++ b)
     = S (occurrences any_function b).

Lemma count_blocks (l : list nat) (b : text) :
  numbers_after header_count (concat (map block l) ++ b)
  = numbers_after header_count b
  /\ numbers_after footer_count (concat (map block l) ++ b)
     = numbers_after footer_count b
  /\ occurrences any_function (concat (map block l) ++ b)
     = length l + occurrences any_function b.
Proof.
  induction l as [|i l (IH1 & IH2 & IH3)]; cbn [map concat app length].
  - auto.
  - rewrite <- app_assoc.
    destruct (count_block i (concat (map block l) ++ b)) as (E1 & E2 & E3).
    rewrite E1, E2, E3, IH1, IH2, IH3. auto.
Qed.

End CountBlocks.

Lemma count_header (n : nat) (b : text) :
  numbers_after header_count (header n ++ b)
  = str n :: numbers_after header_count b
  /\ numbers_after footer_count (header n ++ b)
     = numbers_after footer_count b
  /\ occurrences any_function (header n ++ b) = occurrences any_function b.
Proof.
  unfold header. fold header_count. repeat split.
  - scan. reflexivity.
  - scan. reflexivity.
  - count. reflexivity.
Qed.

Lemma count_footer (n : nat) :
  numbers_after header_count (footer n) = []
  /\ numbers_after footer_count (footer n) = [str n]
  /\ occurrences any_function (footer n) = 0.
Proof.
  rewrite <- (app_nil_r (footer n)). unfold footer.
  rewrite split_footer_line. repeat split.
  - scan. reflexivity.
  - scan. reflexivity.
  - count. reflexivity.
Qed.

(** X8: the header and the footer of the generated module both state
    [n] functions, while the module defines [n - n mod 2] of them: for an
    odd [n] the stated count is one more than the number of definitions. *)
Theorem stated_and_defined_counts (n : nat) :
  let out := generate_large_module n in
  map nat_of_text (numbers_after header_count out) = [Some n]
  /\ map nat_of_text (numbers_after footer_count out) = [Some n]
  /\ occurrences any_function out = n - n mod 2.
Proof.
  cbv zeta. rewrite generate_shape.
  destruct (count_header n (concat (map private_helper (seq 0 (n / 2)))
              ++ concat (map public_function (seq 0 (n / 2))) ++ footer n))
    as (H1 & H2 & H3).
  destruct (count_blocks private_helper count_private_helper (seq 0 (n / 2))
              (concat (map public_function (seq 0 (n / 2))) ++ footer n))
    as (P1 & P2 & P3).
  destruct (count_blocks public_function count_public_function
              (seq 0 (n / 2)) (footer n)) as (Q1 & Q2 & Q3).
  destruct (count_footer n) as (F1 & F2 & F3).
  rewrite H1, H2, H3, P1, P2, P3, Q1, Q2, Q3, F1, F2, F3.
  cbn [map]. rewrite nat_of_text_str, !length_seq.
  repeat split. pose proof (Nat.div_mod_eq n 2). lia.
Qed.

(** X9: the helpers with an index of 10 or more are defined and never
    called. *)
Theorem helpers_beyond_nine_never_called (n j : nat) :
  10 <= j -> j < n / 2 ->
  let out := generate_large_module n in
  In (str j) (numbers_after helper_name out)
  /\ ~ In (str j) (numbers_after helper_call out).
Proof.
  intros H1 H2. destruct (scan_generate n) as (E1 & _ & _ & E4). cbv zeta.
  rewrite E1, E4. split.
  - apply in_map, in_seq. lia.
  - intros H. apply in_map_iff in H as (i & E & _). apply str_inj in E.
    assert (i mod 10 < 10) by (apply Nat.mod_upper_bound; lia). lia.
Qed.

Lemma helpers_beyond_nine_never_called_witness :
  10 <= 11 /\ 11 < 24 / 2
  /\ In (str 11) (numbers_after helper_name (generate_large_module 24))
  /\ ~ In (str 11) (numbers_after helper_call (generate_large_module 24)).
Proof.
  assert (H1 : 10 <= 11) by lia.
  assert (H2 : 11 < 24 / 2) by (simpl; lia).
  split; [exact H1|]. split; [exact H2|].
  exact (helpers_beyond_nine_never_called 24 11 H1 H2).
Defined.

(** X10: for every [n], also below 20, each helper that is called is
    one of the helpers defined; for [n] below 20 the exported function of
    index [i] calls the helper of the same index. *)
Theorem called_helpers_are_defined (n : nat) :
  let out := generate_large_module n in
  Forall (fun t => In t (numbers_after helper_name out))
         (numbers_after helper_call out)
  /\ (n < 20 ->
      numbers_after helper_call out = numbers_after export_name out).
Proof.
  destruct (scan_generate n) as (E1 & _ & E3 & E4). cbv zeta.
  rewrite E1, E3, E4. split.
  - apply Forall_forall. intros t Ht.
    apply in_map_iff in Ht as (i & <- & Hi). apply in_seq in Hi.
    apply in_map, in_seq.
    pose proof (Nat.Div0.mod_le i 10). lia.
  - intros Hn. apply map_ext_in. intros i Hi. apply in_seq in Hi.
    assert (n / 2 < 10) by (apply Nat.Div0.div_lt_upper_bound; lia).
    now rewrite Nat.mod_small by lia.
Qed.

Lemma called_helpers_are_defined_witness :
  7 < 20
  /\ numbers_after helper_call (generate_large_module 7)
     = numbers_after export_name (generate_large_module 7).
Proof.
  assert (H : 7 < 20) by lia.
  split; [exact H|].
  exact (proj2 (called_helpers_are_defined 7) H).
Defined.

Lemma module_filename_inj (a b : nat) :
  module_filename a = module_filename b -> a = b.
Proof.
  unfold module_filename. intros E.
  apply app_inv_head in E. apply app_inv_tail in E. now apply str_inj.
Qed.

Lemma write_modules_snoc (l : list nat) (size : nat) (r : run) :
  write_modules (l ++ [size]) r
  = let r' := write_modules l r in
    mkRun (stdout r' ++ [generated_line size])
          (write (files r') (module_filename size)
                 (generate_large_module size))
          (ended r').
Proof. unfold write_modules. now rewrite fold_left_app. Qed.

(** X11: the loop of the generator script, for any list of sizes:
    every size of the list ends with its module in the file named after
    it, no other file changes, and one line is printed per size, in the
    order of the list.  [main] is this loop on 100, 500 and 1000. *)
Theorem write_modules_files (l : list nat) (d : disk) :
  let r := write_modules l (mkRun [] d Finished) in
  (forall size, In size l ->
     files r (module_filename size) = Some (generate_large_module size))
  /\ (forall name, (forall size, In size l -> name <> module_filename size) ->
        files r name = d name)
  /\ stdout r = map generated_line l
  /\ ended r = Finished.
Proof.
  cbv zeta. induction l as [|s l (IH1 & IH2 & IH3 & IH4)] using rev_ind.
  - repeat split. intros ? [].
  - rewrite write_modules_snoc. cbv zeta. cbn [files stdout ended].
    repeat split.
    + intros size Hin.
      destruct (list_eq_dec ascii_dec (module_filename size)
                  (module_filename s)) as [E|E].
      * rewrite E, write_same. now rewrite (module_filename_inj _ _ E).
      * rewrite write_other by exact E. apply IH1.
        apply in_app_or in Hin as [Hin|[<-|[]]]; [exact Hin | congruence].
    + intros name Hn. rewrite write_other.
      * apply IH2. intros size Hin. apply Hn, in_or_app. now left.
      * apply Hn, in_or_app. right. now left.
    + now rewrite IH3, map_app.
    + exact IH4.
Qed.

End GeneratorExtras.

Module RuleExtras.

Import Refactor RefactorFacts.

Lemma word_not_space (c : ascii) : is_word c = true -> is_space c = false.
Proof.
  destruct c as [[] [] [] [] [] [] [] []]; vm_compute;
    intros H; first [reflexivity | discriminate H].
Qed.

Lemma word_not_out (c : ascii) : is_word c = false -> forall w,
  forallb is_word w = true -> mem c w = false.
Proof.
  intros Hc w. induction w as [|x w IH]; cbn [forallb mem existsb];
    [reflexivity|].
  intros H. apply andb_prop in H as [Hx Hw].
  destruct (Ascii.eqb_spec c x) as [->|]; [congruence|]. now apply IH.
Qed.

Lemma quiet_no_head (h : ascii) (l' t rest : text) :
  mem h t = false -> quiet (h :: l') t rest.
Proof.
  intros Hm a1 a2 -> Ha. destruct a2 as [|x a2]; [congruence|].
  unfold mem in Hm. rewrite existsb_app in Hm.
  apply orb_false_elim in Hm as [_ Hm]. cbn [existsb] in Hm.
  apply orb_false_elim in Hm as [Hm _].
  cbn [app starts_with]. rewrite Ascii.eqb_sym, Hm. reflexivity.
Qed.

Lemma quiet_app (l a b rest : text) :
  quiet l a (b ++ rest) -> quiet l b rest -> quiet l (a ++ b) rest.
Proof.
  intros Ha Hb a1 a2 E Hn.
  apply app_eq_app in E as [x [[-> ->]|[-> ->]]].
  - destruct x as [|c x].
    + rewrite app_nil_l. apply (Hb [] b eq_refl).
      intros ->. now rewrite app_nil_r in Hn.
    + rewrite <- app_assoc. now apply (Ha a1 (c :: x)).
  - now apply (Hb x a2).
Qed.

(** The two include steps on a text [t] that they find nothing in,
    between two texts that they find nothing in either. *)
Lemma fix_includes_site (pre t post : text) :
  free_of include_targets pre = true ->
  free_of include_targets post = true ->
  no_overhang anchor t = true -> no_overhang stdlib_line t = true ->
  quiet anchor t post -> quiet stdlib_line t post ->
  fix_includes (pre ++ t ++ post) = pre ++ t ++ post.
Proof.
  intros Hpre Hpost O1 O2 Q1 Q2. unfold fix_includes, py_replace_n.
  rewrite replace_go_quiet
    by (apply quiet_contains; [absent Hpre | exact O1]).
  rewrite replace_go_quiet by exact Q1.
  rewrite replace_plain; [ | discriminate | absent Hpost ].
  unfold re_sub.
  rewrite sub_go_quiet
    by (apply quiet_contains; [absent Hpre | exact O2]).
  rewrite sub_go_quiet by exact Q2.
  fold (re_sub stdlib_pattern [] post).
  rewrite re_sub_plain; [reflexivity | vm_compute; discriminate
                         | absent Hpost ].
Qed.

Lemma free_of_include (s : text) :
  free_of rewrite_targets s = true -> free_of include_targets s = true.
Proof.
  unfold free_of, rewrite_targets, include_targets. cbn [forallb].
  intros H. apply andb_prop in H as [H1 H]. apply andb_prop in H as [H2 _].
  now rewrite H1, H2.
Qed.

Lemma free_of_calls (s : text) :
  free_of rewrite_targets s = true -> free_of call_names s = true.
Proof.
  unfold free_of, rewrite_targets, call_names. cbn [forallb].
  intros H. apply andb_prop in H as [_ H]. now apply andb_prop in H as [_ H].
Qed.

Lemma call_names_words (name : text) :
  In name call_names -> forallb is_word name = true /\ name <> [].
Proof.
  intros [<-|[<-|[<-|[]]]]; split; solve [reflexivity | discriminate].
Qed.

Lemma rules_are_call_rules :
  call_rule (T "malloc") malloc_sizeof /\ call_rule (T "malloc") malloc_array
  /\ call_rule (T "calloc") calloc_one /\ call_rule (T "calloc") calloc_array
  /\ call_rule (T "malloc") malloc_simple
  /\ call_rule (T "strdup") strdup_call.
Proof. repeat split; eexists; reflexivity. Qed.

Lemma sub_go_name (name : text) (r : regex) (tp : template)
  (w : text) (c : ascii) (rest : text) :
  call_rule name r -> In name call_names ->
  forallb is_word w = true -> word_or_space c = false -> c <> "("%char ->
  sub_go r tp 0 (w ++ c :: rest) = w ++ sub_go r tp 0 (c :: rest).
Proof.
  intros Hr Hn Hw Hc Hp.
  apply (sub_go_word name r tp w [] c rest); auto.
  now apply call_names_words.
Qed.

Lemma sub_go_lit (name : text) (r : regex) (tp : template) (a b : text) :
  call_rule name r -> clean name a = true ->
  sub_go r tp 0 (a ++ b) = a ++ sub_go r tp 0 b.
Proof.
  intros [r' ->] H. apply sub_go_clean. now rewrite head_lit_rule.
Qed.

Lemma re_sub_site (name : text) (r : regex) (tp : template)
  (pre t post t' : text) :
  call_rule name r -> In name call_names ->
  free_of call_names pre = true -> free_of call_names post = true ->
  no_overhang name t = true ->
  sub_go r tp 0 (t ++ post) = t' ++ sub_go r tp 0 post ->
  re_sub r tp (pre ++ t ++ post) = pre ++ t' ++ post.
Proof.
  intros [r' ->] Hn Hpre Hpost Ho Ht.
  apply re_sub_around; rewrite ?head_lit_rule; auto.
  - now apply call_names_words.
  - now apply (free_of_In _ _ _ Hpre).
  - now apply (free_of_In _ _ _ Hpost).
Qed.

Ltac walk :=
  repeat first [ rewrite mt_chr | rewrite mt_ws_stop by reflexivity ].

Lemma mt_open (n : nat) (r : regex) (s : text) (pos : nat) (st : caps) :
  mt (Open n r) s pos st = mt r s pos (open_group n pos s st).
Proof. reflexivity. Qed.

Lemma mt_close (n : nat) (r : regex) (s : text) (pos : nat) (st : caps) :
  mt (Close n r) s pos st = mt r s pos (close_group n pos st).
Proof. reflexivity. Qed.

Lemma firstn_run (w rest : text) (pos : nat) :
  firstn (pos + length w - pos) (w ++ rest) = w.
Proof.
  rewrite Nat.add_comm, Nat.add_sub, firstn_app, Nat.sub_diag, firstn_all.
  cbn [firstn]. apply app_nil_r.
Qed.

Lemma name_cases (w : text) :
  is_name w = true ->
  w <> [] /\ forallb is_word w = true
  /\ exists x w', w = x :: w' /\ is_word x = true /\ is_space x = false.
Proof.
  destruct w as [|x w']; [discriminate|]. unfold is_name. intros H.
  repeat split; [discriminate | exact H |].
  exists x, w'. cbn [forallb] in H. apply andb_prop in H as [H _].
  repeat split; [exact H | now apply word_not_space].
Qed.

Lemma site_quiet_hash (l' t rest : text) :
  mem "#"%char t = false -> quiet ("#"%char :: l') t rest.
Proof. apply quiet_no_head. Qed.

Lemma mem_app (c : ascii) (a b : text) :
  mem c (a ++ b) = mem c a || mem c b.
Proof. apply existsb_app. Qed.

Lemma hash_not_in_name (w : text) :
  forallb is_word w = true -> mem "#"%char w = false.
Proof. now apply word_not_out. Qed.

(** The rules pass over the calls that the rules have written. *)
Lemma rule_passes_new_call (name : text) (r : regex) (tp : template)
  (ty post : text) :
  call_rule name r -> In name call_names -> forallb is_word ty = true ->
  sub_go r tp 0 (new_call ty ++ post) = new_call ty ++ sub_go r tp 0 post.
Proof.
  intros Hr Hn Hw. unfold new_call. rewrite <- !app_assoc.
  rewrite (sub_go_lit name) by
    (first [exact Hr | destruct Hn as [<-|[<-|[<-|[]]]]; reflexivity]).
  cbn [T list_ascii_of_string app].
  rewrite (sub_go_name name) by
    (first [assumption | reflexivity | discriminate]).
  change (")"%char :: post) with ([")"%char] ++ post).
  rewrite (sub_go_lit name r tp [")"%char]) by
    (first [exact Hr | destruct Hn as [<-|[<-|[<-|[]]]]; reflexivity]).
  reflexivity.
Qed.

Ltac call_rule_of :=
  first [ exact (proj1 rules_are_call_rules)
        | exact (proj1 (proj2 rules_are_call_rules))
        | exact (proj1 (proj2 (proj2 rules_are_call_rules)))
        | exact (proj1 (proj2 (proj2 (proj2 rules_are_call_rules))))
        | exact (proj1 (proj2 (proj2 (proj2 (proj2 rules_are_call_rules)))))
        | exact (proj2 (proj2 (proj2 (proj2 (proj2 rules_are_call_rules))))) ].

Ltac name_of :=
  solve [vm_compute; repeat (first [left; reflexivity | right])].

Lemma re_sub_site_over (name : text) (r : regex) (tp : template)
  (pre t post t' : text) :
  call_rule name r -> In name call_names ->
  free_of call_names pre = true -> free_of call_names post = true ->
  (forall l2, In l2 (proper_suffixes name) ->
     starts_with l2 (t ++ post) = true ->
     exists x s, t ++ post = l2 ++ x :: s /\ is_space x = false
                 /\ x <> "("%char) ->
  sub_go r tp 0 (t ++ post) = t' ++ sub_go r tp 0 post ->
  re_sub r tp (pre ++ t ++ post) = pre ++ t' ++ post.
Proof.
  intros Hr Hn Hpre Hpost Ho Ht. unfold re_sub.
  rewrite (sub_go_before name r tp pre (t ++ post) Hr
             (free_of_In _ _ _ Hpre Hn) Ho), Ht.
  destruct Hr as [r' ->]. fold (re_sub (lit name (ws (Chr "("%char r'))) tp post).
  rewrite re_sub_plain; rewrite ?head_lit_rule; auto.
  - now apply call_names_words.
  - now apply (free_of_In _ _ _ Hpost).
Qed.

Ltac overhang :=
  let l2 := fresh "l2" in
  let Hin := fresh "Hin" in
  let Hs := fresh "Hs" in
  intros l2 Hin Hs; cbn in Hin;
  repeat (destruct Hin as [<-|Hin];
          [ first [ exfalso; vm_compute in Hs; discriminate Hs
                  | eexists _, _; split;
                    [reflexivity | split; [reflexivity | discriminate]] ]
          | ]);
  destruct Hin.

Lemma mt_ws_one (r : regex) (y x : ascii) (rest : text)
  (pos : nat) (st : caps) (res : text * caps) :
  is_space y = true -> is_space x = false ->
  mt r (x :: rest) (S pos) st = Some res ->
  mt (ws r) (y :: x :: rest) pos st = Some res.
Proof.
  intros Hy Hx E. apply (mt_ws_run r [y] x rest pos st res); auto.
  - cbn [forallb]. now rewrite Hy.
  - cbn [length]. now rewrite Nat.add_1_r.
Qed.

Ltac walk_on :=
  repeat first [ rewrite mt_chr | rewrite mt_ws_stop by reflexivity
               | apply mt_ws_one; [reflexivity | reflexivity | ] ].

Lemma calloc_one_match (ty post : text) :
  is_name ty = true ->
  exists st,
    match_at calloc_one (sizeof_calloc ty ++ post) = Some (post, st)
    /\ expand mem_new st = new_call ty.
Proof.
  intros Hty. destruct (name_cases ty Hty) as (Hn & Hw & x & w' & E & Hx & Hs).
  unfold sizeof_calloc. rewrite <- !app_assoc.
  eexists. split.
  - unfold match_at, calloc_one, pat, group_of.
    cbn [fold_right lit T list_ascii_of_string app]. walk_on.
    rewrite E at 1. cbn [app]. rewrite mt_ws_stop by exact Hs.
    rewrite mt_open. change (x :: w' ++ ?s) with ((x :: w') ++ s).
    rewrite <- E.
    apply mt_plus_run; [exact Hn | exact Hw | reflexivity |].
    rewrite mt_close. walk. reflexivity.
  - unfold expand, mem_new, new_call.
    cbn [map concat group close_group open_group assoc opened closed Nat.eqb].
    rewrite firstn_run. now rewrite app_nil_r.
Qed.

(** The malloc rules pass over [calloc(1, sizeof(T))]. *)
Lemma malloc_rule_passes_sizeof_calloc (r : regex) (tp : template)
  (ty post : text) :
  call_rule (T "malloc") r -> forallb is_word ty = true ->
  sub_go r tp 0 (sizeof_calloc ty ++ post)
  = sizeof_calloc ty ++ sub_go r tp 0 post.
Proof.
  intros Hr Hw. unfold sizeof_calloc. rewrite <- !app_assoc.
  rewrite (sub_go_lit (T "malloc")) by (first [exact Hr | reflexivity]).
  cbn [T list_ascii_of_string app].
  rewrite (sub_go_name (T "malloc")) by
    (first [assumption | name_of | reflexivity | discriminate]).
  change (")"%char :: ")"%char :: post) with (T "))" ++ post).
  rewrite (sub_go_lit (T "malloc") r tp (T "))")) by
    (first [exact Hr | reflexivity]).
  reflexivity.
Qed.

Ltac pass_new_call name r pre ty post Cpre Cpost Hw :=
  rewrite (re_sub_site name r _ pre (new_call ty) post (new_call ty));
  [ | call_rule_of | name_of | exact Cpre | exact Cpost | reflexivity
    | apply (rule_passes_new_call name);
      [call_rule_of | name_of | exact Hw] ].

(** X12: the third rule on [calloc(1, sizeof(T))], for any type name [T]
    of word characters, between two texts without rewriting target: the
    call becomes [MEM_NEW(allocators_get(ALLOC_SYSTEM_PARSER), T)]. *)
Theorem sizeof_calloc_rewritten (pre ty post : text) :
  is_name ty = true ->
  free_of rewrite_targets pre = true ->
  free_of rewrite_targets post = true ->
  returned (refactor_parser_memory (pre ++ sizeof_calloc ty ++ post))
  = pre ++ new_call ty ++ post.
Proof.
  intros Hty Hpre Hpost.
  destruct (name_cases ty Hty) as (Hn & Hw & _).
  pose proof (free_of_calls _ Hpre) as Cpre.
  pose proof (free_of_calls _ Hpost) as Cpost.
  assert (Hhash : mem "#"%char (sizeof_calloc ty) = false).
  { unfold sizeof_calloc. rewrite !mem_app, (hash_not_in_name ty Hw).
    reflexivity. }
  unfold refactor_parser_memory. cbn [returned].
  rewrite fix_includes_site;
    [ | now apply free_of_include | now apply free_of_include
      | reflexivity | reflexivity
      | now apply site_quiet_hash | now apply site_quiet_hash ].
  unfold apply_rules, replacements. cbn [fold_left fst snd].
  rewrite (re_sub_site_over (T "malloc") malloc_sizeof _ pre
             (sizeof_calloc ty) post (sizeof_calloc ty));
    [ | call_rule_of | name_of | exact Cpre | exact Cpost | overhang
      | apply malloc_rule_passes_sizeof_calloc; [call_rule_of | exact Hw] ].
  rewrite (re_sub_site_over (T "malloc") malloc_array _ pre
             (sizeof_calloc ty) post (sizeof_calloc ty));
    [ | call_rule_of | name_of | exact Cpre | exact Cpost | overhang
      | apply malloc_rule_passes_sizeof_calloc; [call_rule_of | exact Hw] ].
  destruct (calloc_one_match ty post Hty) as (st & Em & Ex).
  rewrite (re_sub_site_over (T "calloc") calloc_one mem_new pre
             (sizeof_calloc ty) post (new_call ty));
    [ | call_rule_of | name_of | exact Cpre | exact Cpost | overhang
      | apply (sub_go_head_matches _ _ _ _ _ st);
        [discriminate | exact Em | exact Ex] ].
  pass_new_call (T "calloc") calloc_array pre ty post Cpre Cpost Hw.
  pass_new_call (T "malloc") malloc_simple pre ty post Cpre Cpost Hw.
  pass_new_call (T "strdup") strdup_call pre ty post Cpre Cpost Hw.
  reflexivity.
Qed.

Lemma sizeof_calloc_rewritten_witness :
  is_name (T "Node") = true
  /\ free_of rewrite_targets (T "p = ") = true
  /\ free_of rewrite_targets (T ";") = true
  /\ returned (refactor_parser_memory (T "p = calloc(1, sizeof(Node));"))
     = T "p = MEM_NEW(allocators_get(ALLOC_SYSTEM_PARSER), Node);".
Proof.
  assert (H1 : is_name (T "Node") = true) by reflexivity.
  assert (H2 : free_of rewrite_targets (T "p = ") = true) by reflexivity.
  assert (H3 : free_of rewrite_targets (T ";") = true) by reflexivity.
  split; [exact H1|]. split; [exact H2|]. split; [exact H3|].
  exact (sizeof_calloc_rewritten (T "p = ") (T "Node") (T ";") H1 H2 H3).
Defined.

Ltac lit_side Hr Hn :=
  first [exact Hr | destruct Hn as [<-|[<-|[<-|[]]]]; reflexivity].

Ltac name_side :=
  first [assumption | name_of | reflexivity | discriminate].

Lemma rule_passes_new_array_call (name : text) (r : regex) (tp : template)
  (w star n post : text) :
  call_rule name r -> In name call_names ->
  forallb is_word w = true -> star = [] \/ star = T "*" ->
  forallb is_word n = true ->
  sub_go r tp 0 (new_array_call (w ++ star) n ++ post)
  = new_array_call (w ++ star) n ++ sub_go r tp 0 post.
Proof.
  intros Hr Hn Hw Hstar Hnw. unfold new_array_call. rewrite <- !app_assoc.
  rewrite (sub_go_lit name) by lit_side Hr Hn.
  destruct Hstar as [->| ->]; cbn [T list_ascii_of_string app].
  - rewrite (sub_go_name name) by name_side.
    change (","%char :: " "%char :: n ++ ")"%char :: post)
      with (T ", " ++ n ++ ")"%char :: post).
    rewrite (sub_go_lit name r tp (T ", ")) by lit_side Hr Hn.
    rewrite (sub_go_name name) by name_side.
    change (")"%char :: post) with ([")"%char] ++ post).
    rewrite (sub_go_lit name r tp [")"%char]) by lit_side Hr Hn.
    reflexivity.
  - rewrite (sub_go_name name) by name_side.
    change ("*"%char :: ","%char :: " "%char :: n ++ ")"%char :: post)
      with (T "*, " ++ n ++ ")"%char :: post).
    rewrite (sub_go_lit name r tp (T "*, ")) by lit_side Hr Hn.
    rewrite (sub_go_name name) by name_side.
    change (")"%char :: post) with ([")"%char] ++ post).
    rewrite (sub_go_lit name r tp [")"%char]) by lit_side Hr Hn.
    reflexivity.
Qed.

Lemma mt_opt_take (c : ascii) (r : regex) (s : text) (pos : nat)
  (st : caps) (res : text * caps) :
  mt r s (S pos) st = Some res -> mt (Opt c r) (c :: s) pos st = Some res.
Proof. intros E. cbn [mt]. now rewrite Ascii.eqb_refl, E. Qed.

(** The end of the two array patterns, from [sizeof] on, reads a type
    name with or without a star after it and the two closing
    parentheses; group 2 is the type name with its star. *)
Lemma sizeof_type_tail (w star post : text) (pos : nat) (st : caps) :
  is_name w = true -> star = [] \/ star = T "*" ->
  exists st',
    mt (lit (T "sizeof") (ws (Chr "("%char (ws (Open 2 (Plus is_word
          (Opt "*"%char (Close 2 (ws (Chr ")"%char (ws (Chr ")"%char
             Done))))))))))))
       (T "sizeof(" ++ w ++ star ++ T "))" ++ post) pos st
    = Some (post, st')
    /\ group 2 st' = w ++ star
    /\ group 1 st' = group 1 st.
Proof.
  intros Hty Hstar.
  destruct (name_cases w Hty) as (Hn & Hw & x & w' & E & Hx & Hs).
  destruct Hstar as [->| ->]; eexists; (split; [|split]).
  - cbn [lit T list_ascii_of_string app]. walk.
    rewrite E at 1. cbn [app]. rewrite mt_ws_stop by exact Hs.
    rewrite mt_open. change (x :: w' ++ ?s) with ((x :: w') ++ s).
    rewrite <- E.
    apply mt_plus_run; [exact Hn | exact Hw | reflexivity |].
    rewrite mt_opt_skip by discriminate.
    rewrite mt_close. walk. reflexivity.
  - cbn [group close_group open_group assoc opened closed Nat.eqb].
    rewrite firstn_run. now rewrite app_nil_r.
  - reflexivity.
  - cbn [lit T list_ascii_of_string app]. walk.
    rewrite E at 1. cbn [app]. rewrite mt_ws_stop by exact Hs.
    rewrite mt_open. change (x :: w' ++ ?s) with ((x :: w') ++ s).
    rewrite <- E.
    apply mt_plus_run; [exact Hn | exact Hw | reflexivity |].
    apply mt_opt_take.
    rewrite mt_close. walk. reflexivity.
  - cbn [group close_group open_group assoc opened closed Nat.eqb].
    change (w ++ "*"%char :: ?s) with (w ++ T "*" ++ s).
    rewrite app_assoc.
    match goal with
    | |- context [firstn (S (?P + length w) - ?P) _] =>
        replace (S (P + length w)) with (P + length (w ++ T "*"))
          by (rewrite length_app; simpl; lia)
    end.
    now rewrite firstn_run.
  - reflexivity.
Qed.

(** The first rule does not match at [malloc(n * sizeof(...))]. *)
Lemma malloc_sizeof_skips_times (n ty post : text) :
  is_name n = true ->
  match_at malloc_sizeof (times_malloc n ty ++ post) = None.
Proof.
  intros Hn. destruct (name_cases n Hn) as (_ & Hw & x & w' & E & Hx & Hs).
  unfold times_malloc. rewrite <- !app_assoc.
  unfold match_at, malloc_sizeof, pat. cbn [fold_right].
  change (T "malloc(" ++ ?s) with (T "malloc" ++ "("%char :: s).
  rewrite mt_lit_app, mt_ws_stop, mt_chr by reflexivity.
  rewrite E at 1. cbn [app]. rewrite mt_ws_stop by exact Hs.
  change (x :: w' ++ ?s) with ((x :: w') ++ s). rewrite <- E.
  change (T " * sizeof(" ++ ?s)
    with ([" "%char] ++ "*"%char :: T " sizeof(" ++ s).
  rewrite app_assoc. apply call_needs_paren;
    [reflexivity | | reflexivity | discriminate].
  now rewrite forallb_app, (word_is_word_or_space _ Hw).
Qed.

(** A malloc rule that does not match at [malloc(n * sizeof(...))] passes
    over it. *)
Lemma malloc_rule_passes_times (r : regex) (tp : template)
  (n w star post : text) :
  call_rule (T "malloc") r ->
  forallb is_word n = true -> forallb is_word w = true ->
  star = [] \/ star = T "*" ->
  match_at r (times_malloc n (w ++ star) ++ post) = None ->
  sub_go r tp 0 (times_malloc n (w ++ star) ++ post)
  = times_malloc n (w ++ star) ++ sub_go r tp 0 post.
Proof.
  intros Hr Hn Hw Hstar Hm. revert Hm.
  unfold times_malloc. rewrite <- !app_assoc.
  change (T "malloc(" ++ ?s) with ("m"%char :: T "alloc(" ++ s).
  intros Hm. rewrite (sub_go_nomatch _ _ _ _ Hm).
  rewrite (sub_go_lit (T "malloc")) by (first [exact Hr | reflexivity]).
  change (T " * sizeof(" ++ ?s)
    with ([" "%char] ++ "*"%char :: T " sizeof(" ++ s).
  rewrite (sub_go_word (T "malloc")) by
    (first [assumption | reflexivity | discriminate]).
  change ([" "%char] ++ "*"%char :: T " sizeof(" ++ ?s)
    with (T " * sizeof(" ++ s).
  rewrite (sub_go_lit (T "malloc")) by (first [exact Hr | reflexivity]).
  destruct Hstar as [->| ->]; cbn [T list_ascii_of_string app].
  - rewrite (sub_go_name (T "malloc")) by name_side.
    change (")"%char :: ")"%char :: post) with (T "))" ++ post).
    rewrite (sub_go_lit (T "malloc") r tp (T "))")) by
      (first [exact Hr | reflexivity]).
    reflexivity.
  - rewrite (sub_go_name (T "malloc")) by name_side.
    change ("*"%char :: ")"%char :: ")"%char :: post)
      with (T "*))" ++ post).
    rewrite (sub_go_lit (T "malloc") r tp (T "*))")) by
      (first [exact Hr | reflexivity]).
    reflexivity.
Qed.

Lemma malloc_array_match (n w star post : text) :
  is_name n = true -> is_name w = true -> star = [] \/ star = T "*" ->
  exists st,
    match_at malloc_array (times_malloc n (w ++ star) ++ post)
    = Some (post, st)
    /\ expand mem_new_array st = new_array_call (w ++ star) n.
Proof.
  intros Hn Hty Hstar.
  destruct (name_cases n Hn) as (Hne & Hw & x & w' & E & Hx & Hs).
  unfold times_malloc. rewrite <- !app_assoc.
  destruct (sizeof_type_tail w star post (S (S (S (7 + length n))))
              (close_group 1 (7 + length n)
                 (open_group 1 7
                    (n ++ T " * sizeof(" ++ w ++ star ++ T "))" ++ post)
                    no_caps))
              Hty Hstar) as (st' & Et & G2 & G1).
  exists st'. split.
  - unfold match_at, malloc_array, pat, group_of. cbn [fold_right].
    change (T "malloc(" ++ ?s) with (T "malloc" ++ "("%char :: s).
    rewrite mt_lit_app, mt_ws_stop, mt_chr by reflexivity.
    rewrite E at 1. cbn [app]. rewrite mt_ws_stop by exact Hs.
    rewrite mt_open. change (x :: w' ++ ?s) with ((x :: w') ++ s).
    rewrite <- E.
    change (T " * sizeof(" ++ ?s)
      with (" "%char :: "*"%char :: " "%char :: "s"%char
            :: T "izeof(" ++ s).
    apply mt_plus_run; [exact Hne | exact Hw | reflexivity |].
    rewrite mt_close.
    apply mt_ws_one; [reflexivity | reflexivity |]. rewrite mt_chr.
    apply mt_ws_one; [reflexivity | reflexivity |].
    exact Et.
  - unfold expand, mem_new_array, new_array_call.
    cbn [map concat]. rewrite G2, G1.
    cbn [group close_group open_group assoc opened closed Nat.eqb].
    rewrite firstn_run. now rewrite app_nil_r, <- !app_assoc.
Qed.

Ltac pass_new_array_call name r pre w star n post Cpre Cpost Hw Hstar Hn :=
  rewrite (re_sub_site name r _ pre (new_array_call (w ++ star) n) post
             (new_array_call (w ++ star) n));
  [ | call_rule_of | name_of | exact Cpre | exact Cpost | reflexivity
    | apply (rule_passes_new_array_call name);
      [call_rule_of | name_of | exact Hw | exact Hstar | exact Hn] ].

(** X13: the second rule on [malloc(n * sizeof(T))], for any count [n]
    and type name [T] of word characters, the type with or without a
    star after it, between two texts without rewriting target: the call
    becomes [MEM_NEW_ARRAY(allocators_get(ALLOC_SYSTEM_PARSER), T, n)]. *)
Theorem times_malloc_rewritten (pre n w star post : text) :
  is_name n = true -> is_name w = true -> star = [] \/ star = T "*" ->
  free_of rewrite_targets pre = true ->
  free_of rewrite_targets post = true ->
  returned (refactor_parser_memory
              (pre ++ times_malloc n (w ++ star) ++ post))
  = pre ++ new_array_call (w ++ star) n ++ post.
Proof.
  intros Hn Hty Hstar Hpre Hpost.
  destruct (name_cases n Hn) as (_ & Hnw & _).
  destruct (name_cases w Hty) as (_ & Hw & _).
  pose proof (free_of_calls _ Hpre) as Cpre.
  pose proof (free_of_calls _ Hpost) as Cpost.
  assert (Hhash : mem "#"%char (times_malloc n (w ++ star)) = false).
  { unfold times_malloc.
    rewrite !mem_app, (hash_not_in_name n Hnw), (hash_not_in_name w Hw).
    now destruct Hstar as [->| ->]. }
  unfold refactor_parser_memory. cbn [returned].
  rewrite fix_includes_site;
    [ | now apply free_of_include | now apply free_of_include
      | reflexivity | reflexivity
      | now apply site_quiet_hash | now apply site_quiet_hash ].
  unfold apply_rules, replacements. cbn [fold_left fst snd].
  rewrite (re_sub_site (T "malloc") malloc_sizeof _ pre
             (times_malloc n (w ++ star)) post (times_malloc n (w ++ star)));
    [ | call_rule_of | name_of | exact Cpre | exact Cpost | reflexivity
      | apply malloc_rule_passes_times;
        [ call_rule_of | exact Hnw | exact Hw | exact Hstar
          | now apply malloc_sizeof_skips_times ] ].
  destruct (malloc_array_match n w star post Hn Hty Hstar) as (st & Em & Ex).
  rewrite (re_sub_site (T "malloc") malloc_array mem_new_array pre
             (times_malloc n (w ++ star)) post
             (new_array_call (w ++ star) n));
    [ | call_rule_of | name_of | exact Cpre | exact Cpost | reflexivity
      | apply (sub_go_head_matches _ _ _ _ _ st);
        [discriminate | exact Em | exact Ex] ].
  pass_new_array_call (T "calloc") calloc_one pre w star n post
    Cpre Cpost Hw Hstar Hnw.
  pass_new_array_call (T "calloc") calloc_array pre w star n post
    Cpre Cpost Hw Hstar Hnw.
  pass_new_array_call (T "malloc") malloc_simple pre w star n post
    Cpre Cpost Hw Hstar Hnw.
  pass_new_array_call (T "strdup") strdup_call pre w star n post
    Cpre Cpost Hw Hstar Hnw.
  reflexivity.
Qed.

Lemma times_malloc_rewritten_witness :
  is_name (T "count") = true /\ is_name (T "char") = true
  /\ (T "*" = [] \/ T "*" = T "*")
  /\ free_of rewrite_targets (T "p = ") = true
  /\ free_of rewrite_targets (T ";") = true
  /\ returned (refactor_parser_memory
                 (T "p = malloc(count * sizeof(char*));"))
     = T "p = MEM_NEW_ARRAY(allocators_get(ALLOC_SYSTEM_PARSER), char*, count);".
Proof.
  assert (H1 : is_name (T "count") = true) by reflexivity.
  assert (H2 : is_name (T "char") = true) by reflexivity.
  assert (H3 : T "*" = [] \/ T "*" = T "*") by (right; reflexivity).
  assert (H4 : free_of rewrite_targets (T "p = ") = true) by reflexivity.
  assert (H5 : free_of rewrite_targets (T ";") = true) by reflexivity.
  split; [exact H1|]. split; [exact H2|]. split; [exact H3|].
  split; [exact H4|]. split; [exact H5|].
  exact (times_malloc_rewritten (T "p = ") (T "count") (T "char") (T "*")
           (T ";") H1 H2 H3 H4 H5).
Defined.

(** The malloc rules pass over [calloc(n, sizeof(...))]. *)
Lemma malloc_rule_passes_times_calloc (r : regex) (tp : template)
  (n w star post : text) :
  call_rule (T "malloc") r ->
  forallb is_word n = true -> forallb is_word w = true ->
  star = [] \/ star = T "*" ->
  sub_go r tp 0 (times_calloc n (w ++ star) ++ post)
  = times_calloc n (w ++ star) ++ sub_go r tp 0 post.
Proof.
  intros Hr Hn Hw Hstar.
  unfold times_calloc. rewrite <- !app_assoc.
  rewrite (sub_go_lit (T "malloc")) by (first [exact Hr | reflexivity]).
  change (T ", sizeof(" ++ ?s) with (","%char :: T " sizeof(" ++ s).
  rewrite (sub_go_name (T "malloc")) by name_side.
  change (","%char :: T " sizeof(" ++ ?s) with (T ", sizeof(" ++ s).
  rewrite (sub_go_lit (T "malloc")) by (first [exact Hr | reflexivity]).
  destruct Hstar as [->| ->]; cbn [T list_ascii_of_string app].
  - rewrite (sub_go_name (T "malloc")) by name_side.
    change (")"%char :: ")"%char :: post) with (T "))" ++ post).
    rewrite (sub_go_lit (T "malloc") r tp (T "))")) by
      (first [exact Hr | reflexivity]).
    reflexivity.
  - rewrite (sub_go_name (T "malloc")) by name_side.
    change ("*"%char :: ")"%char :: ")"%char :: post)
      with (T "*))" ++ post).
    rewrite (sub_go_lit (T "malloc") r tp (T "*))")) by
      (first [exact Hr | reflexivity]).
    reflexivity.
Qed.

(** A calloc rule that does not match at [calloc(n, sizeof(...))] passes
    over it. *)
Lemma calloc_rule_passes_times_calloc (r : regex) (tp : template)
  (n w star post : text) :
  call_rule (T "calloc") r ->
  forallb is_word n = true -> forallb is_word w = true ->
  star = [] \/ star = T "*" ->
  match_at r (times_calloc n (w ++ star) ++ post) = None ->
  sub_go r tp 0 (times_calloc n (w ++ star) ++ post)
  = times_calloc n (w ++ star) ++ sub_go r tp 0 post.
Proof.
  intros Hr Hn Hw Hstar Hm. revert Hm.
  unfold times_calloc. rewrite <- !app_assoc.
  change (T "calloc(" ++ ?s) with ("c"%char :: T "alloc(" ++ s).
  intros Hm. rewrite (sub_go_nomatch _ _ _ _ Hm).
  rewrite (sub_go_lit (T "calloc")) by (first [exact Hr | reflexivity]).
  change (T ", sizeof(" ++ ?s) with (","%char :: T " sizeof(" ++ s).
  rewrite (sub_go_name (T "calloc")) by name_side.
  change (","%char :: T " sizeof(" ++ ?s) with (T ", sizeof(" ++ s).
  rewrite (sub_go_lit (T "calloc")) by (first [exact Hr | reflexivity]).
  destruct Hstar as [->| ->]; cbn [T list_ascii_of_string app].
  - rewrite (sub_go_name (T "calloc")) by name_side.
    change (")"%char :: ")"%char :: post) with (T "))" ++ post).
    rewrite (sub_go_lit (T "calloc") r tp (T "))")) by
      (first [exact Hr | reflexivity]).
    reflexivity.
  - rewrite (sub_go_name (T "calloc")) by name_side.
    change ("*"%char :: ")"%char :: ")"%char :: post)
      with (T "*))" ++ post).
    rewrite (sub_go_lit (T "calloc") r tp (T "*))")) by
      (first [exact Hr | reflexivity]).
    reflexivity.
Qed.

(** The third rule matches at [calloc(n, sizeof(...))] only for the
    count [1]. *)
Lemma calloc_one_skips_times (n ty post : text) :
  is_name n = true -> n <> T "1" ->
  match_at calloc_one (times_calloc n ty ++ post) = None.
Proof.
  intros Hn H1. destruct (name_cases n Hn) as (_ & Hw & x & w' & E & Hx & Hs).
  unfold times_calloc. rewrite <- !app_assoc.
  unfold match_at, calloc_one, pat. cbn [fold_right].
  change (T "calloc(" ++ ?s) with (T "calloc" ++ "("%char :: s).
  rewrite mt_lit_app, mt_ws_stop, mt_chr by reflexivity.
  rewrite E in *. cbn [app]. rewrite mt_ws_stop by exact Hs.
  destruct (Ascii.eqb_spec x "1"%char) as [->|Hx1];
    [|now apply mt_chr_other].
  rewrite mt_chr. destruct w' as [|y w'']; [now contradiction H1|].
  cbn [forallb] in Hw. apply andb_prop in Hw as [_ Hw].
  apply andb_prop in Hw as [Hy _].
  cbn [app]. rewrite mt_ws_stop by now apply word_not_space.
  apply mt_chr_other. intros ->. discriminate Hy.
Qed.

Lemma calloc_array_match (n w star post : text) :
  is_name n = true -> is_name w = true -> star = [] \/ star = T "*" ->
  exists st,
    match_at calloc_array (times_calloc n (w ++ star) ++ post)
    = Some (post, st)
    /\ expand mem_new_array st = new_array_call (w ++ star) n.
Proof.
  intros Hn Hty Hstar.
  destruct (name_cases n Hn) as (Hne & Hw & x & w' & E & Hx & Hs).
  unfold times_calloc. rewrite <- !app_assoc.
  destruct (sizeof_type_tail w star post (S (S (7 + length n)))
              (close_group 1 (7 + length n)
                 (open_group 1 7
                    (n ++ T ", sizeof(" ++ w ++ star ++ T "))" ++ post)
                    no_caps))
              Hty Hstar) as (st' & Et & G2 & G1).
  exists st'. split.
  - unfold match_at, calloc_array, pat, group_of. cbn [fold_right].
    change (T "calloc(" ++ ?s) with (T "calloc" ++ "("%char :: s).
    rewrite mt_lit_app, mt_ws_stop, mt_chr by reflexivity.
    rewrite E at 1. cbn [app]. rewrite mt_ws_stop by exact Hs.
    rewrite mt_open. change (x :: w' ++ ?s) with ((x :: w') ++ s).
    rewrite <- E.
    change (T ", sizeof(" ++ ?s)
      with (","%char :: " "%char :: "s"%char :: T "izeof(" ++ s).
    apply mt_plus_run; [exact Hne | exact Hw | reflexivity |].
    rewrite mt_close, mt_ws_stop, mt_chr by reflexivity.
    apply mt_ws_one; [reflexivity | reflexivity |].
    exact Et.
  - unfold expand, mem_new_array, new_array_call.
    cbn [map concat]. rewrite G2, G1.
    cbn [group close_group open_group assoc opened closed Nat.eqb].
    rewrite firstn_run. now rewrite app_nil_r, <- !app_assoc.
Qed.

(** X14: the fourth rule on [calloc(n, sizeof(T))], for any count [n]
    other than [1] and any type name [T] of word characters, the type
    with or without a star after it, between two texts without rewriting
    target: the call becomes
    [MEM_NEW_ARRAY(allocators_get(ALLOC_SYSTEM_PARSER), T, n)]. *)
Theorem times_calloc_rewritten (pre n w star post : text) :
  is_name n = true -> n <> T "1" ->
  is_name w = true -> star = [] \/ star = T "*" ->
  free_of rewrite_targets pre = true ->
  free_of rewrite_targets post = true ->
  returned (refactor_parser_memory
              (pre ++ times_calloc n (w ++ star) ++ post))
  = pre ++ new_array_call (w ++ star) n ++ post.
Proof.
  intros Hn H1 Hty Hstar Hpre Hpost.
  destruct (name_cases n Hn) as (_ & Hnw & _).
  destruct (name_cases w Hty) as (_ & Hw & _).
  pose proof (free_of_calls _ Hpre) as Cpre.
  pose proof (free_of_calls _ Hpost) as Cpost.
  assert (Hhash : mem "#"%char (times_calloc n (w ++ star)) = false).
  { unfold times_calloc.
    rewrite !mem_app, (hash_not_in_name n Hnw), (hash_not_in_name w Hw).
    now destruct Hstar as [->| ->]. }
  unfold refactor_parser_memory. cbn [returned].
  rewrite fix_includes_site;
    [ | now apply free_of_include | now apply free_of_include
      | reflexivity | reflexivity
      | now apply site_quiet_hash | now apply site_quiet_hash ].
  unfold apply_rules, replacements. cbn [fold_left fst snd].
  rewrite (re_sub_site_over (T "malloc") malloc_sizeof _ pre
             (times_calloc n (w ++ star)) post (times_calloc n (w ++ star)));
    [ | call_rule_of | name_of | exact Cpre | exact Cpost | overhang
      | apply malloc_rule_passes_times_calloc;
        [call_rule_of | exact Hnw | exact Hw | exact Hstar] ].
  rewrite (re_sub_site_over (T "malloc") malloc_array _ pre
             (times_calloc n (w ++ star)) post (times_calloc n (w ++ star)));
    [ | call_rule_of | name_of | exact Cpre | exact Cpost | overhang
      | apply malloc_rule_passes_times_calloc;
        [call_rule_of | exact Hnw | exact Hw | exact Hstar] ].
  rewrite (re_sub_site_over (T "calloc") calloc_one _ pre
             (times_calloc n (w ++ star)) post (times_calloc n (w ++ star)));
    [ | call_rule_of | name_of | exact Cpre | exact Cpost | overhang
      | apply calloc_rule_passes_times_calloc;
        [ call_rule_of | exact Hnw | exact Hw | exact Hstar
          | now apply calloc_one_skips_times ] ].
  destruct (calloc_array_match n w star post Hn Hty Hstar) as (st & Em & Ex).
  rewrite (re_sub_site_over (T "calloc") calloc_array mem_new_array pre
             (times_calloc n (w ++ star)) post
             (new_array_call (w ++ star) n));
    [ | call_rule_of | name_of | exact Cpre | exact Cpost | overhang
      | apply (sub_go_head_matches _ _ _ _ _ st);
        [discriminate | exact Em | exact Ex] ].
  pass_new_array_call (T "malloc") malloc_simple pre w star n post
    Cpre Cpost Hw Hstar Hnw.
  pass_new_array_call (T "strdup") strdup_call pre w star n post
    Cpre Cpost Hw Hstar Hnw.
  reflexivity.
Qed.

Lemma times_calloc_rewritten_witness :
  is_name (T "16") = true /\ T "16" <> T "1" /\ is_name (T "Token") = true
  /\ (@nil ascii = [] \/ [] = T "*")
  /\ free_of rewrite_targets (T "p = ") = true
  /\ free_of rewrite_targets (T ";") = true
  /\ returned (refactor_parser_memory (T "p = calloc(16, sizeof(Token));"))
     = T "p = MEM_NEW_ARRAY(allocators_get(ALLOC_SYSTEM_PARSER), Token, 16);".
Proof.
  assert (H1 : is_name (T "16") = true) by reflexivity.
  assert (H2 : T "16" <> T "1") by discriminate.
  assert (H3 : is_name (T "Token") = true) by reflexivity.
  assert (H4 : @nil ascii = [] \/ [] = T "*") by (left; reflexivity).
  assert (H5 : free_of rewrite_targets (T "p = ") = true) by reflexivity.
  assert (H6 : free_of rewrite_targets (T ";") = true) by reflexivity.
  split; [exact H1|]. split; [exact H2|]. split; [exact H3|].
  split; [exact H4|]. split; [exact H5|]. split; [exact H6|].
  exact (times_calloc_rewritten (T "p = ") (T "16") (T "Token") [] (T ";")
           H1 H2 H3 H4 H5 H6).
Defined.

Lemma plain_arg_cases (arg : text) :
  plain_arg arg = true ->
  arg <> [] /\ no_paren arg = true /\ forallb not_rparen arg = true
  /\ exists x a', arg = x :: a' /\ is_space x = false.
Proof.
  destruct arg as [|x a']; [discriminate|]. unfold plain_arg. intros H.
  apply andb_prop in H as [Hs Hp].
  repeat split; [discriminate | exact Hp | |].
  - revert Hp. apply forallb_weaken. intros c. unfold neither, not_rparen.
    now destruct (Ascii.eqb c "("%char), (Ascii.eqb c ")"%char).
  - exists x, a'. split; [reflexivity | now destruct (is_space x)].
Qed.

(** No rule finds a call inside an argument without parentheses that a
    closing parenthesis follows. *)
Lemma sub_go_arg (name : text) (r : regex) (tp : template)
  (arg rest : text) :
  call_rule name r -> In name call_names -> no_paren arg = true ->
  sub_go r tp 0 (arg ++ ")"%char :: rest)
  = arg ++ sub_go r tp 0 (")"%char :: rest).
Proof.
  intros [r' ->] Hn Ha. apply sub_go_silent. intros a1 a2 -> Hne.
  unfold no_paren in Ha. rewrite forallb_app in Ha.
  apply andb_prop in Ha as [_ Ha].
  apply (mt_reads_first "("%char); [discriminate | | exact Ha].
  destruct Hn as [<-|[<-|[<-|[]]]]; reflexivity.
Qed.

Lemma arg_site_quiet (l b arg post : text) :
  clean l b = true -> contains l arg = false ->
  no_overhang l (T ")") = true -> clean l (T ")") = true ->
  quiet l (b ++ arg ++ T ")") post.
Proof.
  intros Hb Ha Ho Hc.
  apply quiet_app; [now apply quiet_clean|].
  apply quiet_app; [now apply quiet_contains | now apply quiet_clean].
Qed.

(** A rule passes over [b(arg)] when it finds nothing in [b(] and, if it
    finds its name at the start, does not match there. *)
Lemma rule_passes_arg_site (name : text) (r : regex) (tp : template)
  (c : ascii) (b arg post : text) :
  call_rule name r -> In name call_names -> no_paren arg = true ->
  clean name b = true ->
  match_at r ((c :: b) ++ arg ++ T ")" ++ post) = None ->
  sub_go r tp 0 ((c :: b) ++ arg ++ T ")" ++ post)
  = (c :: b) ++ arg ++ T ")" ++ sub_go r tp 0 post.
Proof.
  intros Hr Hn Ha Hb Hm. cbn [app] in *.
  rewrite (sub_go_nomatch _ _ _ _ Hm).
  rewrite (sub_go_lit name) by assumption.
  change (T ")" ++ post) with (")"%char :: post).
  rewrite (sub_go_arg name) by assumption.
  change (")"%char :: post) with ([")"%char] ++ post).
  rewrite (sub_go_lit name r tp [")"%char]) by lit_side Hr Hn.
  reflexivity.
Qed.

(** The two sized malloc rules do not match at [malloc(arg)]. *)
Lemma sized_rules_skip_arg (arg post : text) :
  plain_arg arg = true ->
  match_at malloc_sizeof (arg_malloc arg ++ post) = None
  /\ match_at malloc_array (arg_malloc arg ++ post) = None.
Proof.
  intros Ha. destruct (plain_arg_cases arg Ha) as (_ & Hp & _ & _).
  unfold arg_malloc. rewrite <- !app_assoc.
  change (T "malloc(" ++ ?s) with (T "malloc" ++ "("%char :: s).
  change (T ")" ++ post) with (")"%char :: post).
  unfold match_at, malloc_sizeof, malloc_array, pat, group_of.
  cbn [fold_right].
  rewrite !mt_lit_app, !mt_ws_stop, !mt_chr by reflexivity.
  split; (apply (mt_reads_first "("%char);
          [discriminate | reflexivity | exact Hp]).
Qed.

Lemma other_rule_skips (name : text) (r : regex) (s : text) :
  call_rule name r -> starts_with name s = false -> match_at r s = None.
Proof.
  intros [r' ->] H. apply mt_head_lit. now rewrite head_lit_rule.
Qed.

Lemma malloc_simple_match (arg post : text) :
  forallb not_rparen arg = true ->
  (exists x a', arg = x :: a' /\ is_space x = false) ->
  match_at sizeof_suffix post = None ->
  exists st,
    match_at malloc_simple (arg_malloc arg ++ post) = Some (post, st)
    /\ expand mem_alloc st = alloc_call arg.
Proof.
  intros Hr (x & a' & E & Hx) Hs.
  assert (Hne : arg <> []) by (rewrite E; discriminate).
  unfold arg_malloc. rewrite <- !app_assoc.
  eexists. split.
  - unfold match_at, malloc_simple, pat, group_of. cbn [fold_right].
    change (T "malloc(" ++ ?s) with (T "malloc" ++ "("%char :: s).
    change (T ")" ++ post) with (")"%char :: post).
    rewrite mt_lit_app, mt_ws_stop, mt_chr by reflexivity.
    rewrite E at 1. cbn [app]. rewrite mt_ws_stop by exact Hx.
    rewrite mt_open. change (x :: a' ++ ?s) with ((x :: a') ++ s).
    rewrite <- E.
    apply mt_plus_run; [exact Hne | exact Hr | reflexivity |].
    rewrite mt_close, mt_ws_stop, mt_chr by reflexivity.
    cbn [mt]. fold sizeof_suffix.
    now rewrite (mt_none_indep sizeof_suffix _ _ _ _ _ Hs).
  - unfold expand, mem_alloc, alloc_call.
    cbn [map concat group close_group open_group assoc opened closed Nat.eqb].
    rewrite firstn_run. now rewrite app_nil_r.
Qed.

Lemma strdup_call_match (arg post : text) :
  plain_arg arg = true ->
  exists st,
    match_at strdup_call (arg_strdup arg ++ post) = Some (post, st)
    /\ expand mem_strdup st = strdup_result arg.
Proof.
  intros Ha.
  destruct (plain_arg_cases arg Ha) as (Hne & Hp & Hr & x & a' & E & Hx).
  unfold arg_strdup. rewrite <- !app_assoc.
  eexists. split.
  - unfold match_at, strdup_call, pat, group_of. cbn [fold_right].
    change (T "strdup(" ++ ?s) with (T "strdup" ++ "("%char :: s).
    change (T ")" ++ post) with (")"%char :: post).
    rewrite mt_lit_app, mt_ws_stop, mt_chr by reflexivity.
    rewrite E at 1. cbn [app]. rewrite mt_ws_stop by exact Hx.
    rewrite mt_open. change (x :: a' ++ ?s) with ((x :: a') ++ s).
    rewrite <- E.
    apply mt_plus_run; [exact Hne | exact Hr | reflexivity |].
    rewrite mt_close, mt_ws_stop, mt_chr by reflexivity.
    reflexivity.
  - unfold expand, mem_strdup, strdup_result.
    cbn [map concat group close_group open_group assoc opened closed Nat.eqb].
    rewrite firstn_run. now rewrite app_nil_r.
Qed.

Ltac pass_site name r pre site post c b arg Cpre Cpost Hp Hskip :=
  rewrite (re_sub_site name r _ pre site post site);
  [ | call_rule_of | name_of | exact Cpre | exact Cpost | reflexivity
    | unfold arg_malloc, arg_strdup, alloc_call, strdup_result, realloc_of,
        free_of_arg;
      rewrite <- !app_assoc;
      apply (rule_passes_arg_site name r _ c b arg post);
      [ call_rule_of | name_of | exact Hp | reflexivity
        | rewrite !app_assoc; Hskip ] ].

Ltac skip_other :=
  solve [ eapply other_rule_skips; [call_rule_of | reflexivity] ].

Lemma include_free (arg : text) :
  free_of include_targets arg = true ->
  contains anchor arg = false /\ contains stdlib_line arg = false.
Proof.
  intros H. split; apply (free_of_In _ _ _ H); [now left | right; now left].
Qed.

(** X15: the generic rule on [malloc(arg)], for any argument without
    parentheses that does not start with white space, between two texts
    without rewriting target and not followed by [* sizeof]: the call
    becomes [MEM_ALLOC(allocators_get(ALLOC_SYSTEM_PARSER), arg)], also
    when the argument holds the name of a rule. *)
Theorem arg_malloc_rewritten (pre arg post : text) :
  plain_arg arg = true ->
  free_of include_targets arg = true ->
  free_of rewrite_targets pre = true ->
  free_of rewrite_targets post = true ->
  match_at sizeof_suffix post = None ->
  returned (refactor_parser_memory (pre ++ arg_malloc arg ++ post))
  = pre ++ alloc_call arg ++ post.
Proof.
  intros Ha Hinc Hpre Hpost Hs.
  destruct (plain_arg_cases arg Ha) as (_ & Hp & _ & _).
  destruct (include_free arg Hinc) as [I1 I2].
  destruct (sized_rules_skip_arg arg post Ha) as [S1 S2].
  pose proof (free_of_calls _ Hpre) as Cpre.
  pose proof (free_of_calls _ Hpost) as Cpost.
  unfold refactor_parser_memory. cbn [returned].
  rewrite fix_includes_site;
    [ | now apply free_of_include | now apply free_of_include
      | reflexivity | reflexivity
      | now apply arg_site_quiet | now apply arg_site_quiet ].
  unfold apply_rules, replacements. cbn [fold_left fst snd].
  pass_site (T "malloc") malloc_sizeof pre (arg_malloc arg) post
    "m"%char (T "alloc(") arg Cpre Cpost Hp ltac:(exact S1).
  pass_site (T "malloc") malloc_array pre (arg_malloc arg) post
    "m"%char (T "alloc(") arg Cpre Cpost Hp ltac:(exact S2).
  pass_site (T "calloc") calloc_one pre (arg_malloc arg) post
    "m"%char (T "alloc(") arg Cpre Cpost Hp skip_other.
  pass_site (T "calloc") calloc_array pre (arg_malloc arg) post
    "m"%char (T "alloc(") arg Cpre Cpost Hp skip_other.
  destruct (plain_arg_cases arg Ha) as (_ & _ & Hnr & Hfirst).
  destruct (malloc_simple_match arg post Hnr Hfirst Hs) as (st & Em & Ex).
  rewrite (re_sub_site (T "malloc") malloc_simple mem_alloc pre
             (arg_malloc arg) post (alloc_call arg));
    [ | call_rule_of | name_of | exact Cpre | exact Cpost | reflexivity
      | apply (sub_go_head_matches _ _ _ _ _ st);
        [discriminate | exact Em | exact Ex] ].
  pass_site (T "strdup") strdup_call pre (alloc_call arg) post
    "M"%char (T "EM_ALLOC(allocators_get(ALLOC_SYSTEM_PARSER), ") arg
    Cpre Cpost Hp skip_other.
  reflexivity.
Qed.

Lemma arg_malloc_rewritten_witness :
  plain_arg (T "len + 1") = true
  /\ free_of include_targets (T "len + 1") = true
  /\ free_of rewrite_targets (T "p = ") = true
  /\ free_of rewrite_targets (T ";") = true
  /\ match_at sizeof_suffix (T ";") = None
  /\ returned (refactor_parser_memory (T "p = malloc(len + 1);"))
     = T "p = MEM_ALLOC(allocators_get(ALLOC_SYSTEM_PARSER), len + 1);".
Proof.
  assert (H1 : plain_arg (T "len + 1") = true) by reflexivity.
  assert (H2 : free_of include_targets (T "len + 1") = true) by reflexivity.
  assert (H3 : free_of rewrite_targets (T "p = ") = true) by reflexivity.
  assert (H4 : free_of rewrite_targets (T ";") = true) by reflexivity.
  assert (H5 : match_at sizeof_suffix (T ";") = None) by reflexivity.
  split; [exact H1|]. split; [exact H2|]. split; [exact H3|].
  split; [exact H4|]. split; [exact H5|].
  exact (arg_malloc_rewritten (T "p = ") (T "len + 1") (T ";")
           H1 H2 H3 H4 H5).
Defined.

(** X16: the strdup rule on [strdup(arg)], for any argument without
    parentheses that does not start with white space, between two texts
    without rewriting target: the call becomes
    [MEM_STRDUP(allocators_get(ALLOC_SYSTEM_PARSER), arg)]. *)
Theorem arg_strdup_rewritten (pre arg post : text) :
  plain_arg arg = true ->
  free_of include_targets arg = true ->
  free_of rewrite_targets pre = true ->
  free_of rewrite_targets post = true ->
  returned (refactor_parser_memory (pre ++ arg_strdup arg ++ post))
  = pre ++ strdup_result arg ++ post.
Proof.
  intros Ha Hinc Hpre Hpost.
  destruct (plain_arg_cases arg Ha) as (_ & Hp & _ & _).
  destruct (include_free arg Hinc) as [I1 I2].
  pose proof (free_of_calls _ Hpre) as Cpre.
  pose proof (free_of_calls _ Hpost) as Cpost.
  unfold refactor_parser_memory. cbn [returned].
  rewrite fix_includes_site;
    [ | now apply free_of_include | now apply free_of_include
      | reflexivity | reflexivity
      | now apply arg_site_quiet | now apply arg_site_quiet ].
  unfold apply_rules, replacements. cbn [fold_left fst snd].
  pass_site (T "malloc") malloc_sizeof pre (arg_strdup arg) post
    "s"%char (T "trdup(") arg Cpre Cpost Hp skip_other.
  pass_site (T "malloc") malloc_array pre (arg_strdup arg) post
    "s"%char (T "trdup(") arg Cpre Cpost Hp skip_other.
  pass_site (T "calloc") calloc_one pre (arg_strdup arg) post
    "s"%char (T "trdup(") arg Cpre Cpost Hp skip_other.
  pass_site (T "calloc") calloc_array pre (arg_strdup arg) post
    "s"%char (T "trdup(") arg Cpre Cpost Hp skip_other.
  pass_site (T "malloc") malloc_simple pre (arg_strdup arg) post
    "s"%char (T "trdup(") arg Cpre Cpost Hp skip_other.
  destruct (strdup_call_match arg post Ha) as (st & Em & Ex).
  rewrite (re_sub_site (T "strdup") strdup_call mem_strdup pre
             (arg_strdup arg) post (strdup_result arg));
    [ reflexivity
      | call_rule_of | name_of | exact Cpre | exact Cpost | reflexivity
      | apply (sub_go_head_matches _ _ _ _ _ st);
        [discriminate | exact Em | exact Ex] ].
Qed.

Lemma arg_strdup_rewritten_witness :
  plain_arg (T "token->lexeme") = true
  /\ free_of include_targets (T "token->lexeme") = true
  /\ free_of rewrite_targets (T "s = ") = true
  /\ free_of rewrite_targets (T ";") = true
  /\ returned (refactor_parser_memory (T "s = strdup(token->lexeme);"))
     = T "s = MEM_STRDUP(allocators_get(ALLOC_SYSTEM_PARSER), token->lexeme);".
Proof.
  assert (H1 : plain_arg (T "token->lexeme") = true) by reflexivity.
  assert (H2 : free_of include_targets (T "token->lexeme") = true)
    by reflexivity.
  assert (H3 : free_of rewrite_targets (T "s = ") = true) by reflexivity.
  assert (H4 : free_of rewrite_targets (T ";") = true) by reflexivity.
  split; [exact H1|]. split; [exact H2|]. split; [exact H3|].
  split; [exact H4|].
  exact (arg_strdup_rewritten (T "s = ") (T "token->lexeme") (T ";")
           H1 H2 H3 H4).
Defined.

Lemma space_not_word (c : ascii) : is_space c = true -> is_word c = false.
Proof.
  intros H. destruct (is_word c) eqn:E; [|reflexivity].
  apply word_not_space in E. congruence.
Qed.

Lemma hash_not_in_spaces (sp : text) :
  forallb is_space sp = true -> mem "#"%char sp = false.
Proof.
  induction sp as [|x sp IH]; cbn [forallb mem existsb]; [reflexivity|].
  intros H. apply andb_prop in H as [Hx Hsp].
  destruct (Ascii.eqb_spec "#"%char x) as [<-|]; [discriminate Hx|].
  now apply IH.
Qed.

Lemma mt_plus_run_sp (r : regex) (w sp : text) (c : ascii) (rest : text)
  (pos : nat) (st : caps) (res : text * caps) :
  w <> [] -> forallb is_word w = true -> forallb is_space sp = true ->
  is_word c = false ->
  mt r (sp ++ c :: rest) (pos + length w) st = Some res ->
  mt (Plus is_word r) (w ++ sp ++ c :: rest) pos st = Some res.
Proof.
  intros Hw Hp Hs Hc E. destruct sp as [|y sp].
  - now apply mt_plus_run.
  - cbn [forallb] in Hs. apply andb_prop in Hs as [Hy _].
    apply mt_plus_run; auto. now apply space_not_word.
Qed.

Lemma spaced_malloc_sizeof_match (s1 s2 s3 s4 s5 s6 ty post : text) :
  all_spaces [s1; s2; s3; s4; s5; s6] = true -> is_name ty = true ->
  exists st,
    match_at malloc_sizeof
      (spaced_sizeof_malloc s1 s2 s3 s4 s5 s6 ty ++ post) = Some (post, st)
    /\ expand mem_new st = new_call ty.
Proof.
  intros Hsp Hty.
  destruct (name_cases ty Hty) as (Hn & Hw & x & w' & E & Hx & Hs).
  unfold all_spaces in Hsp. cbn [forallb] in Hsp.
  apply andb_prop in Hsp as [H1 Hsp]. apply andb_prop in Hsp as [H2 Hsp].
  apply andb_prop in Hsp as [H3 Hsp]. apply andb_prop in Hsp as [H4 Hsp].
  apply andb_prop in Hsp as [H5 Hsp]. apply andb_prop in Hsp as [H6 _].
  unfold spaced_sizeof_malloc. rewrite <- !app_assoc.
  change (T "(" ++ ?s) with ("("%char :: s).
  change (T ")" ++ ?s) with (")"%char :: s).
  eexists. split.
  - unfold match_at, malloc_sizeof, pat, group_of. cbn [fold_right].
    rewrite mt_lit_app.
    apply mt_ws_run; [exact H1 | reflexivity |]. rewrite mt_chr.
    change (T "sizeof" ++ ?s) with ("s"%char :: T "izeof" ++ s).
    apply mt_ws_run; [exact H2 | reflexivity |].
    change ("s"%char :: T "izeof" ++ ?s) with (T "sizeof" ++ s).
    rewrite mt_lit_app.
    apply mt_ws_run; [exact H3 | reflexivity |]. rewrite mt_chr.
    rewrite E at 1. cbn [app].
    apply mt_ws_run; [exact H4 | exact Hs |].
    rewrite mt_open. change (x :: w' ++ ?s) with ((x :: w') ++ s).
    rewrite <- E.
    apply mt_plus_run_sp; [exact Hn | exact Hw | exact H5 | reflexivity |].
    rewrite mt_close.
    apply mt_ws_run; [exact H5 | reflexivity |]. rewrite mt_chr.
    apply mt_ws_run; [exact H6 | reflexivity |]. rewrite mt_chr.
    reflexivity.
  - unfold expand, mem_new, new_call.
    cbn [map concat group close_group open_group assoc opened closed Nat.eqb].
    rewrite firstn_run. now rewrite app_nil_r.
Qed.

(** X17: the first rule on [malloc(sizeof(T))], for any type name [T] of
    word characters and any white space at the six places where the
    pattern allows it, between two texts without rewriting target: the
    call becomes [MEM_NEW(allocators_get(ALLOC_SYSTEM_PARSER), T)],
    without the white space, and nothing else changes. *)
Theorem spaced_sizeof_malloc_rewritten
  (pre s1 s2 s3 s4 s5 s6 ty post : text) :
  all_spaces [s1; s2; s3; s4; s5; s6] = true ->
  is_name ty = true ->
  free_of rewrite_targets pre = true ->
  free_of rewrite_targets post = true ->
  returned (refactor_parser_memory
              (pre ++ spaced_sizeof_malloc s1 s2 s3 s4 s5 s6 ty ++ post))
  = pre ++ new_call ty ++ post.
Proof.
  intros Hsp Hty Hpre Hpost.
  destruct (name_cases ty Hty) as (Hn & Hw & _).
  pose proof (free_of_calls _ Hpre) as Cpre.
  pose proof (free_of_calls _ Hpost) as Cpost.
  destruct (spaced_malloc_sizeof_match s1 s2 s3 s4 s5 s6 ty post Hsp Hty)
    as (st & Em & Ex).
  assert (Hhash : mem "#"%char (spaced_sizeof_malloc s1 s2 s3 s4 s5 s6 ty)
                  = false).
  { unfold all_spaces in Hsp. cbn [forallb] in Hsp.
    apply andb_prop in Hsp as [H1 Hsp]. apply andb_prop in Hsp as [H2 Hsp].
    apply andb_prop in Hsp as [H3 Hsp]. apply andb_prop in Hsp as [H4 Hsp].
    apply andb_prop in Hsp as [H5 Hsp]. apply andb_prop in Hsp as [H6 _].
    unfold spaced_sizeof_malloc.
    rewrite !mem_app, (hash_not_in_name ty Hw), (hash_not_in_spaces s1 H1),
      (hash_not_in_spaces s2 H2), (hash_not_in_spaces s3 H3),
      (hash_not_in_spaces s4 H4), (hash_not_in_spaces s5 H5),
      (hash_not_in_spaces s6 H6).
    reflexivity. }
  unfold refactor_parser_memory. cbn [returned].
  rewrite fix_includes_site;
    [ | now apply free_of_include | now apply free_of_include
      | reflexivity | reflexivity
      | now apply site_quiet_hash | now apply site_quiet_hash ].
  unfold apply_rules, replacements. cbn [fold_left fst snd].
  rewrite (re_sub_site (T "malloc") malloc_sizeof mem_new pre
             (spaced_sizeof_malloc s1 s2 s3 s4 s5 s6 ty) post (new_call ty));
    [ | call_rule_of | name_of | exact Cpre | exact Cpost | reflexivity
      | apply (sub_go_head_matches _ _ _ _ _ st);
        [discriminate | exact Em | exact Ex] ].
  pass_new_call (T "malloc") malloc_array pre ty post Cpre Cpost Hw.
  pass_new_call (T "calloc") calloc_one pre ty post Cpre Cpost Hw.
  pass_new_call (T "calloc") calloc_array pre ty post Cpre Cpost Hw.
  pass_new_call (T "malloc") malloc_simple pre ty post Cpre Cpost Hw.
  pass_new_call (T "strdup") strdup_call pre ty post Cpre Cpost Hw.
  reflexivity.
Qed.

Lemma spaced_sizeof_malloc_rewritten_witness :
  all_spaces [[]; T " "; []; [nl]; T "  "; []] = true
  /\ is_name (T "Node") = true
  /\ free_of rewrite_targets (T "p = ") = true
  /\ free_of rewrite_targets (T ";") = true
  /\ returned (refactor_parser_memory
                 (T "p = malloc( sizeof(" ++ [nl] ++ T "Node  ));"))
     = T "p = MEM_NEW(allocators_get(ALLOC_SYSTEM_PARSER), Node);".
Proof.
  assert (H0 : all_spaces [[]; T " "; []; [nl]; T "  "; []] = true)
    by reflexivity.
  assert (H1 : is_name (T "Node") = true) by reflexivity.
  assert (H2 : free_of rewrite_targets (T "p = ") = true) by reflexivity.
  assert (H3 : free_of rewrite_targets (T ";") = true) by reflexivity.
  split; [exact H0|]. split; [exact H1|]. split; [exact H2|].
  split; [exact H3|].
  exact (spaced_sizeof_malloc_rewritten (T "p = ") [] (T " ") [] [nl]
           (T "  ") [] (T "Node") (T ";") H0 H1 H2 H3).
Defined.

(** A rule passes over a word between two literal texts in which it finds
    nothing. *)
Lemma rule_passes_word_site (name : text) (r : regex) (tp : template)
  (b w : text) (c : ascii) (z post : text) :
  call_rule name r -> In name call_names ->
  clean name b = true -> forallb is_word w = true ->
  word_or_space c = false -> c <> "("%char -> clean name (c :: z) = true ->
  sub_go r tp 0 (b ++ w ++ (c :: z) ++ post)
  = b ++ w ++ (c :: z) ++ sub_go r tp 0 post.
Proof.
  intros Hr Hn Hb Hw Hc Hp Hz.
  rewrite (sub_go_lit name) by assumption.
  cbn [app]. rewrite (sub_go_name name) by assumption.
  change (c :: z ++ post) with ((c :: z) ++ post).
  now rewrite (sub_go_lit name r tp (c :: z)) by assumption.
Qed.

Lemma word_neither (c d : ascii) (w : text) :
  is_word c = false -> is_word d = false ->
  forallb is_word w = true -> forallb (neither c d) w = true.
Proof.
  intros Hc Hd. apply forallb_weaken. intros x Hx.
  apply (class_neither is_word); [now rewrite Hc, Hd | exact Hx].
Qed.

(** Neither sized malloc rule matches at [malloc(sizeof(T))] when the type
    is followed by a star. *)
Lemma sized_rules_skip_pointer (w post : text) :
  forallb is_word w = true ->
  match_at malloc_sizeof (sizeof_malloc (w ++ T "*") ++ post) = None
  /\ match_at malloc_array (sizeof_malloc (w ++ T "*") ++ post) = None.
Proof.
  intros Hw. unfold sizeof_malloc. rewrite <- !app_assoc.
  change (T "malloc(sizeof(" ++ ?s)
    with (T "malloc" ++ "("%char :: "s"%char :: T "izeof(" ++ s).
  change (T "*" ++ T "))" ++ post)
    with ("*"%char :: ")"%char :: ")"%char :: post).
  unfold match_at, malloc_sizeof, malloc_array, pat, group_of.
  cbn [fold_right]. split.
  - rewrite mt_lit_app, mt_ws_stop, mt_chr, mt_ws_stop by reflexivity.
    change ("s"%char :: T "izeof(" ++ ?s)
      with (T "sizeof" ++ "("%char :: s).
    rewrite mt_lit_app, mt_ws_stop, mt_chr by reflexivity.
    apply (mt_reads_first ")"%char "*"%char);
      [discriminate | reflexivity | now apply word_neither].
  - rewrite mt_lit_app, mt_ws_stop, mt_chr by reflexivity.
    change ("s"%char :: T "izeof(" ++ ?s)
      with (T "sizeof" ++ "("%char :: s).
    apply (mt_reads_first "*"%char "("%char);
      [discriminate | reflexivity | reflexivity].
Qed.

(** A rule that does not match at such a call passes over it. *)
Lemma rule_passes_pointer (name : text) (r : regex) (tp : template)
  (w post : text) :
  call_rule name r -> In name call_names -> forallb is_word w = true ->
  match_at r (sizeof_malloc (w ++ T "*") ++ post) = None ->
  sub_go r tp 0 (sizeof_malloc (w ++ T "*") ++ post)
  = sizeof_malloc (w ++ T "*") ++ sub_go r tp 0 post.
Proof.
  intros Hr Hn Hw Hm. revert Hm.
  unfold sizeof_malloc. rewrite <- !app_assoc.
  change (T "malloc(sizeof(" ++ ?s)
    with ("m"%char :: T "alloc(sizeof(" ++ s).
  change (T "*" ++ T "))" ++ post) with (T "*))" ++ post).
  intros Hm. rewrite (sub_go_nomatch _ _ _ _ Hm). f_equal.
  apply (rule_passes_word_site name r tp (T "alloc(sizeof(") w
           "*"%char (T "))") post); auto;
    first [ destruct Hn as [<-|[<-|[<-|[]]]]; reflexivity
          | reflexivity | discriminate ].
Qed.

Lemma pointer_as_argument (w post : text) :
  sizeof_malloc (w ++ T "*") ++ post
  = arg_malloc (T "sizeof(" ++ w ++ T "*") ++ T ")" ++ post.
Proof.
  unfold sizeof_malloc, arg_malloc. now rewrite <- !app_assoc.
Qed.

(** X18: a star after the type keeps [malloc(sizeof(T))] from the first
    rule, which wants a closing parenthesis right after the word; the
    generic rule then takes the call, with [sizeof(] and the starred type
    as its argument, and writes a [MEM_ALLOC] call with that argument. *)
Theorem pointer_sizeof_goes_to_generic_rule (pre w post : text) :
  is_name w = true ->
  free_of rewrite_targets pre = true ->
  free_of rewrite_targets post = true ->
  returned (refactor_parser_memory
              (pre ++ sizeof_malloc (w ++ T "*") ++ post))
  = pre ++ alloc_call (T "sizeof(" ++ w ++ T "*") ++ T ")" ++ post.
Proof.
  intros Hty Hpre Hpost.
  destruct (name_cases w Hty) as (_ & Hw & _).
  destruct (sized_rules_skip_pointer w post Hw) as [S1 S2].
  pose proof (free_of_calls _ Hpre) as Cpre.
  pose proof (free_of_calls _ Hpost) as Cpost.
  assert (Hhash : mem "#"%char (sizeof_malloc (w ++ T "*")) = false).
  { unfold sizeof_malloc. rewrite !mem_app, (hash_not_in_name w Hw).
    reflexivity. }
  unfold refactor_parser_memory. cbn [returned].
  rewrite fix_includes_site;
    [ | now apply free_of_include | now apply free_of_include
      | reflexivity | reflexivity
      | now apply site_quiet_hash | now apply site_quiet_hash ].
  unfold apply_rules, replacements. cbn [fold_left fst snd].
  rewrite (re_sub_site (T "malloc") malloc_sizeof _ pre
             (sizeof_malloc (w ++ T "*")) post (sizeof_malloc (w ++ T "*")));
    [ | call_rule_of | name_of | exact Cpre | exact Cpost | reflexivity
      | apply (rule_passes_pointer (T "malloc"));
        [call_rule_of | name_of | exact Hw | exact S1] ].
  rewrite (re_sub_site (T "malloc") malloc_array _ pre
             (sizeof_malloc (w ++ T "*")) post (sizeof_malloc (w ++ T "*")));
    [ | call_rule_of | name_of | exact Cpre | exact Cpost | reflexivity
      | apply (rule_passes_pointer (T "malloc"));
        [call_rule_of | name_of | exact Hw | exact S2] ].
  rewrite (re_sub_site (T "calloc") calloc_one _ pre
             (sizeof_malloc (w ++ T "*")) post (sizeof_malloc (w ++ T "*")));
    [ | call_rule_of | name_of | exact Cpre | exact Cpost | reflexivity
      | apply (rule_passes_pointer (T "calloc"));
        [call_rule_of | name_of | exact Hw | skip_other] ].
  rewrite (re_sub_site (T "calloc") calloc_array _ pre
             (sizeof_malloc (w ++ T "*")) post (sizeof_malloc (w ++ T "*")));
    [ | call_rule_of | name_of | exact Cpre | exact Cpost | reflexivity
      | apply (rule_passes_pointer (T "calloc"));
        [call_rule_of | name_of | exact Hw | skip_other] ].
  assert (Hnr : forallb not_rparen (T "sizeof(" ++ w ++ T "*") = true).
  { rewrite !forallb_app. cbn [T list_ascii_of_string forallb].
    replace (forallb not_rparen w) with true; [reflexivity|].
    symmetry. revert Hw. apply forallb_weaken. intros c Hc.
    unfold not_rparen. now destruct (Ascii.eqb_spec c ")"%char) as [->|]. }
  destruct (malloc_simple_match (T "sizeof(" ++ w ++ T "*") (T ")" ++ post)
              Hnr ltac:(eexists _, _; split; reflexivity) eq_refl)
    as (st & Em & Ex).
  assert (Hne : arg_malloc (T "sizeof(" ++ w ++ T "*") <> [])
    by discriminate.
  rewrite (re_sub_site (T "malloc") malloc_simple mem_alloc pre
             (sizeof_malloc (w ++ T "*")) post
             (alloc_call (T "sizeof(" ++ w ++ T "*") ++ T ")"));
    [ | call_rule_of | name_of | exact Cpre | exact Cpost | reflexivity
      | rewrite pointer_as_argument,
          (sub_go_head_matches _ _ _ _ _ st Hne Em Ex);
        change (T ")" ++ post) with ([")"%char] ++ post);
        rewrite (sub_go_lit (T "malloc") malloc_simple _ [")"%char])
          by (first [call_rule_of | reflexivity]);
        now rewrite <- !app_assoc ].
  rewrite (re_sub_site (T "strdup") strdup_call _ pre
             (alloc_call (T "sizeof(" ++ w ++ T "*") ++ T ")") post
             (alloc_call (T "sizeof(" ++ w ++ T "*") ++ T ")"));
    [ now rewrite <- !app_assoc
      | call_rule_of | name_of | exact Cpre | exact Cpost | reflexivity
      | unfold alloc_call; rewrite <- !app_assoc;
        apply (rule_passes_word_site (T "strdup") strdup_call _
                 (T "MEM_ALLOC(allocators_get(ALLOC_SYSTEM_PARSER), sizeof(")
                 w "*"%char (T "))") post);
        first [ call_rule_of | name_of | exact Hw | reflexivity
              | discriminate ] ].
Qed.

Lemma pointer_sizeof_goes_to_generic_rule_witness :
  is_name (T "char") = true
  /\ free_of rewrite_targets (T "p = ") = true
  /\ free_of rewrite_targets (T ";") = true
  /\ returned (refactor_parser_memory (T "p = malloc(sizeof(char*));"))
     = T "p = MEM_ALLOC(allocators_get(ALLOC_SYSTEM_PARSER), sizeof(char*));".
Proof.
  assert (H1 : is_name (T "char") = true) by reflexivity.
  assert (H2 : free_of rewrite_targets (T "p = ") = true) by reflexivity.
  assert (H3 : free_of rewrite_targets (T ";") = true) by reflexivity.
  split; [exact H1|]. split; [exact H2|]. split; [exact H3|].
  exact (pointer_sizeof_goes_to_generic_rule (T "p = ") (T "char") (T ";")
           H1 H2 H3).
Defined.

Lemma new_call_stable (pre ty post : text) :
  is_name ty = true ->
  free_of rewrite_targets pre = true ->
  free_of rewrite_targets post = true ->
  returned (refactor_parser_memory (pre ++ new_call ty ++ post))
  = pre ++ new_call ty ++ post.
Proof.
  intros Hty Hpre Hpost.
  destruct (name_cases ty Hty) as (_ & Hw & _).
  pose proof (free_of_calls _ Hpre) as Cpre.
  pose proof (free_of_calls _ Hpost) as Cpost.
  assert (Hhash : mem "#"%char (new_call ty) = false).
  { unfold new_call. rewrite !mem_app, (hash_not_in_name ty Hw).
    reflexivity. }
  unfold refactor_parser_memory. cbn [returned].
  rewrite fix_includes_site;
    [ | now apply free_of_include | now apply free_of_include
      | reflexivity | reflexivity
      | now apply site_quiet_hash | now apply site_quiet_hash ].
  unfold apply_rules, replacements. cbn [fold_left fst snd].
  pass_new_call (T "malloc") malloc_sizeof pre ty post Cpre Cpost Hw.
  pass_new_call (T "malloc") malloc_array pre ty post Cpre Cpost Hw.
  pass_new_call (T "calloc") calloc_one pre ty post Cpre Cpost Hw.
  pass_new_call (T "calloc") calloc_array pre ty post Cpre Cpost Hw.
  pass_new_call (T "malloc") malloc_simple pre ty post Cpre Cpost Hw.
  pass_new_call (T "strdup") strdup_call pre ty post Cpre Cpost Hw.
  reflexivity.
Qed.

Lemma new_array_call_stable (pre w star n post : text) :
  is_name w = true -> star = [] \/ star = T "*" -> is_name n = true ->
  free_of rewrite_targets pre = true ->
  free_of rewrite_targets post = true ->
  returned (refactor_parser_memory
              (pre ++ new_array_call (w ++ star) n ++ post))
  = pre ++ new_array_call (w ++ star) n ++ post.
Proof.
  intros Hty Hstar Hn Hpre Hpost.
  destruct (name_cases n Hn) as (_ & Hnw & _).
  destruct (name_cases w Hty) as (_ & Hw & _).
  pose proof (free_of_calls _ Hpre) as Cpre.
  pose proof (free_of_calls _ Hpost) as Cpost.
  assert (Hhash : mem "#"%char (new_array_call (w ++ star) n) = false).
  { unfold new_array_call.
    rewrite !mem_app, (hash_not_in_name n Hnw), (hash_not_in_name w Hw).
    now destruct Hstar as [->| ->]. }
  unfold refactor_parser_memory. cbn [returned].
  rewrite fix_includes_site;
    [ | now apply free_of_include | now apply free_of_include
      | reflexivity | reflexivity
      | now apply site_quiet_hash | now apply site_quiet_hash ].
  unfold apply_rules, replacements. cbn [fold_left fst snd].
  pass_new_array_call (T "malloc") malloc_sizeof pre w star n post
    Cpre Cpost Hw Hstar Hnw.
  pass_new_array_call (T "malloc") malloc_array pre w star n post
    Cpre Cpost Hw Hstar Hnw.
  pass_new_array_call (T "calloc") calloc_one pre w star n post
    Cpre Cpost Hw Hstar Hnw.
  pass_new_array_call (T "calloc") calloc_array pre w star n post
    Cpre Cpost Hw Hstar Hnw.
  pass_new_array_call (T "malloc") malloc_simple pre w star n post
    Cpre Cpost Hw Hstar Hnw.
  pass_new_array_call (T "strdup") strdup_call pre w star n post
    Cpre Cpost Hw Hstar Hnw.
  reflexivity.
Qed.

Ltac pass_result r name pre site post b arg Cpre Cpost Hp :=
  pass_site name r pre site post "M"%char b arg Cpre Cpost Hp skip_other.

Lemma alloc_call_stable (pre arg post : text) :
  plain_arg arg = true -> free_of include_targets arg = true ->
  free_of rewrite_targets pre = true ->
  free_of rewrite_targets post = true ->
  returned (refactor_parser_memory (pre ++ alloc_call arg ++ post))
  = pre ++ alloc_call arg ++ post.
Proof.
  intros Ha Hinc Hpre Hpost.
  destruct (plain_arg_cases arg Ha) as (_ & Hp & _ & _).
  destruct (include_free arg Hinc) as [I1 I2].
  pose proof (free_of_calls _ Hpre) as Cpre.
  pose proof (free_of_calls _ Hpost) as Cpost.
  unfold refactor_parser_memory. cbn [returned].
  rewrite fix_includes_site;
    [ | now apply free_of_include | now apply free_of_include
      | reflexivity | reflexivity
      | now apply arg_site_quiet | now apply arg_site_quiet ].
  unfold apply_rules, replacements. cbn [fold_left fst snd].
  pass_result malloc_sizeof (T "malloc") pre (alloc_call arg) post
    (T "EM_ALLOC(allocators_get(ALLOC_SYSTEM_PARSER), ") arg Cpre Cpost Hp.
  pass_result malloc_array (T "malloc") pre (alloc_call arg) post
    (T "EM_ALLOC(allocators_get(ALLOC_SYSTEM_PARSER), ") arg Cpre Cpost Hp.
  pass_result calloc_one (T "calloc") pre (alloc_call arg) post
    (T "EM_ALLOC(allocators_get(ALLOC_SYSTEM_PARSER), ") arg Cpre Cpost Hp.
  pass_result calloc_array (T "calloc") pre (alloc_call arg) post
    (T "EM_ALLOC(allocators_get(ALLOC_SYSTEM_PARSER), ") arg Cpre Cpost Hp.
  pass_result malloc_simple (T "malloc") pre (alloc_call arg) post
    (T "EM_ALLOC(allocators_get(ALLOC_SYSTEM_PARSER), ") arg Cpre Cpost Hp.
  pass_result strdup_call (T "strdup") pre (alloc_call arg) post
    (T "EM_ALLOC(allocators_get(ALLOC_SYSTEM_PARSER), ") arg Cpre Cpost Hp.
  reflexivity.
Qed.

Lemma strdup_result_stable (pre arg post : text) :
  plain_arg arg = true -> free_of include_targets arg = true ->
  free_of rewrite_targets pre = true ->
  free_of rewrite_targets post = true ->
  returned (refactor_parser_memory (pre ++ strdup_result arg ++ post))
  = pre ++ strdup_result arg ++ post.
Proof.
  intros Ha Hinc Hpre Hpost.
  destruct (plain_arg_cases arg Ha) as (_ & Hp & _ & _).
  destruct (include_free arg Hinc) as [I1 I2].
  pose proof (free_of_calls _ Hpre) as Cpre.
  pose proof (free_of_calls _ Hpost) as Cpost.
  unfold refactor_parser_memory. cbn [returned].
  rewrite fix_includes_site;
    [ | now apply free_of_include | now apply free_of_include
      | reflexivity | reflexivity
      | now apply arg_site_quiet | now apply arg_site_quiet ].
  unfold apply_rules, replacements. cbn [fold_left fst snd].
  pass_result malloc_sizeof (T "malloc") pre (strdup_result arg) post
    (T "EM_STRDUP(allocators_get(ALLOC_SYSTEM_PARSER), ") arg Cpre Cpost Hp.
  pass_result malloc_array (T "malloc") pre (strdup_result arg) post
    (T "EM_STRDUP(allocators_get(ALLOC_SYSTEM_PARSER), ") arg Cpre Cpost Hp.
  pass_result calloc_one (T "calloc") pre (strdup_result arg) post
    (T "EM_STRDUP(allocators_get(ALLOC_SYSTEM_PARSER), ") arg Cpre Cpost Hp.
  pass_result calloc_array (T "calloc") pre (strdup_result arg) post
    (T "EM_STRDUP(allocators_get(ALLOC_SYSTEM_PARSER), ") arg Cpre Cpost Hp.
  pass_result malloc_simple (T "malloc") pre (strdup_result arg) post
    (T "EM_STRDUP(allocators_get(ALLOC_SYSTEM_PARSER), ") arg Cpre Cpost Hp.
  pass_result strdup_call (T "strdup") pre (strdup_result arg) post
    (T "EM_STRDUP(allocators_get(ALLOC_SYSTEM_PARSER), ") arg Cpre Cpost Hp.
  reflexivity.
Qed.

(** X19: a second run leaves the calls alone that the rules have
    written: each of the four macro calls, between two texts without
    rewriting target, is returned as it is, also when a type name, a
    count or an argument in it holds the name of a rule.  The type names
    and the count are words; the argument is not empty, holds no
    parenthesis, neither the anchor nor a stdlib.h line, and does not
    begin with white space. *)
Theorem rewritten_calls_stable (pre ty w star n arg post : text) :
  is_name ty = true -> is_name w = true -> star = [] \/ star = T "*" ->
  is_name n = true ->
  plain_arg arg = true -> free_of include_targets arg = true ->
  free_of rewrite_targets pre = true ->
  free_of rewrite_targets post = true ->
  Forall (fun site =>
            returned (refactor_parser_memory (pre ++ site ++ post))
            = pre ++ site ++ post)
         [new_call ty; new_array_call (w ++ star) n; alloc_call arg;
          strdup_result arg].
Proof.
  intros Hty Hw Hstar Hn Ha Hinc Hpre Hpost.
  repeat constructor.
  - now apply new_call_stable.
  - now apply new_array_call_stable.
  - now apply alloc_call_stable.
  - now apply strdup_result_stable.
Qed.

Lemma rewritten_calls_stable_witness :
  is_name (T "malloc_t") = true /\ is_name (T "char") = true
  /\ (T "*" = [] \/ T "*" = T "*") /\ is_name (T "count") = true
  /\ plain_arg (T "strdup_len + 1") = true
  /\ free_of include_targets (T "strdup_len + 1") = true
  /\ free_of rewrite_targets (T "p = ") = true
  /\ free_of rewrite_targets (T ";") = true
  /\ returned (refactor_parser_memory
       (T "p = MEM_NEW(allocators_get(ALLOC_SYSTEM_PARSER), malloc_t);"))
     = T "p = MEM_NEW(allocators_get(ALLOC_SYSTEM_PARSER), malloc_t);".
Proof.
  assert (H1 : is_name (T "malloc_t") = true) by reflexivity.
  assert (H2 : is_name (T "char") = true) by reflexivity.
  assert (H3 : T "*" = [] \/ T "*" = T "*") by (right; reflexivity).
  assert (H4 : is_name (T "count") = true) by reflexivity.
  assert (H5 : plain_arg (T "strdup_len + 1") = true) by reflexivity.
  assert (H6 : free_of include_targets (T "strdup_len + 1") = true)
    by reflexivity.
  assert (H7 : free_of rewrite_targets (T "p = ") = true) by reflexivity.
  assert (H8 : free_of rewrite_targets (T ";") = true) by reflexivity.
  repeat (split; [assumption|]).
  exact (Forall_inv (rewritten_calls_stable (T "p = ") (T "malloc_t")
           (T "char") (T "*") (T "count") (T "strdup_len + 1") (T ";")
           H1 H2 H3 H4 H5 H6 H7 H8)).
Defined.

Lemma finditer_go_silent (r : regex) (pos : nat) (pre rest : text) :
  (forall a1 a2, pre = a1 ++ a2 -> a2 <> [] ->
                 match_at r (a2 ++ rest) = None) ->
  finditer_go r 0 pos (pre ++ rest) = finditer_go r 0 (pos + length pre) rest.
Proof.
  revert pos; induction pre as [|x pre IH]; intros pos H.
  - now rewrite Nat.add_0_r.
  - pose proof (H [] (x :: pre) eq_refl ltac:(discriminate)) as E.
    cbn [app] in E. cbn [app finditer_go]. rewrite E.
    rewrite IH; [cbn [length]; now rewrite Nat.add_succ_r|].
    intros a1 a2 -> Ha. now apply (H (x :: a1) a2).
Qed.

Lemma finditer_go_plain (r : regex) (pos : nat) (s : text) :
  head_lit r <> [] -> contains (head_lit r) s = false ->
  finditer_go r 0 pos s = [].
Proof.
  intros Hl Hc. rewrite <- (app_nil_r s).
  now rewrite finditer_go_quiet by now apply quiet_nil.
Qed.

Lemma realloc_pattern_match (a b post : text) :
  plain_arg a = true -> forallb not_comma a = true -> plain_arg b = true ->
  exists st,
    match_at realloc_pattern (realloc_of a b ++ post) = Some (post, st).
Proof.
  intros Ha Hc Hb.
  destruct (plain_arg_cases a Ha) as (Hna & _ & _ & x & a' & Ea & Hx).
  destruct (plain_arg_cases b Hb) as (Hnb & _ & Hrb & y & b' & Eb & Hy).
  unfold realloc_of. rewrite <- !app_assoc.
  eexists.
  unfold match_at, realloc_pattern, pat, group_of. cbn [fold_right].
  change (T "realloc(" ++ ?s) with (T "realloc" ++ "("%char :: s).
  change (T ")" ++ post) with (")"%char :: post).
  change (T ", " ++ ?s) with (","%char :: " "%char :: s).
  rewrite mt_lit_app, mt_ws_stop, mt_chr by reflexivity.
  rewrite Ea at 1. cbn [app]. rewrite mt_ws_stop by exact Hx.
  rewrite mt_open. change (x :: a' ++ ?s) with ((x :: a') ++ s).
  rewrite <- Ea.
  apply mt_plus_run; [exact Hna | exact Hc | reflexivity |].
  rewrite mt_close, mt_ws_stop, mt_chr by reflexivity.
  rewrite Eb at 1. cbn [app].
  apply mt_ws_one; [reflexivity | exact Hy |].
  rewrite mt_open. change (y :: b' ++ ?s) with ((y :: b') ++ s).
  rewrite <- Eb.
  apply mt_plus_run; [exact Hnb | exact Hrb | reflexivity |].
  rewrite mt_close, mt_ws_stop, mt_chr by reflexivity.
  reflexivity.
Qed.

Lemma realloc_args_no_paren (a b : text) :
  plain_arg a = true -> plain_arg b = true ->
  no_paren (a ++ T ", " ++ b) = true.
Proof.
  intros Ha Hb.
  destruct (plain_arg_cases a Ha) as (_ & Hpa & _).
  destruct (plain_arg_cases b Hb) as (_ & Hpb & _).
  unfold no_paren in *. now rewrite !forallb_app, Hpa, Hpb.
Qed.

(** The free pattern finds nothing in a realloc call whose arguments hold
    no parenthesis. *)
Lemma free_pattern_passes_realloc (a b post : text) (pos : nat) :
  no_paren (a ++ T ", " ++ b) = true ->
  finditer_go free_pattern 0 pos (realloc_of a b ++ post)
  = finditer_go free_pattern 0 (pos + length (realloc_of a b)) post.
Proof.
  intros Hp. unfold realloc_of.
  remember (a ++ T ", " ++ b) as arg eqn:Earg.
  rewrite <- !app_assoc.
  rewrite finditer_go_quiet by (apply quiet_clean; reflexivity).
  change (T ")" ++ post) with (")"%char :: post).
  rewrite finditer_go_silent.
  - change (")"%char :: post) with ([")"%char] ++ post).
    rewrite finditer_go_quiet by (apply quiet_clean; reflexivity).
    f_equal. rewrite !length_app. change (length (T ")")) with 1.
    cbn [length]. lia.
  - intros a1 a2 -> Hne. unfold no_paren in Hp. rewrite forallb_app in Hp.
    apply andb_prop in Hp as [_ Hp].
    apply (mt_reads_first "("%char);
      [discriminate | reflexivity | exact Hp].
Qed.

(** X20: one realloc call with two arguments without parentheses that
    do not begin with white space and hold neither the anchor nor a
    stdlib.h line, the first without a comma, between two texts without
    rewriting target and without [free] and [realloc]: the text is
    returned as it is, no free call is reported, and the call is reported
    with the number of its line, which the function prints after a header
    line. *)
Theorem realloc_call_reported (pre a b post : text) :
  plain_arg a = true -> forallb not_comma a = true -> plain_arg b = true ->
  free_of include_targets (a ++ T ", " ++ b) = true ->
  free_of (report_targets ++ rewrite_targets) pre = true ->
  free_of (report_targets ++ rewrite_targets) post = true ->
  let o := refactor_parser_memory (pre ++ realloc_of a b ++ post) in
  returned o = pre ++ realloc_of a b ++ post
  /\ free_report o = []
  /\ realloc_report o = [(count_nl pre + 1, realloc_of a b)]
  /\ RefactorMain.printed o
     = realloc_lines (count_nl pre + 1) (realloc_of a b).
Proof.
  intros Ha Hc Hb Hinc Hpre Hpost.
  pose proof (realloc_args_no_paren a b Ha Hb) as Hp.
  destruct (realloc_pattern_match a b post Ha Hc Hb) as (st & Em).
  destruct (include_free _ Hinc) as [I1 I2].
  cbn [free_of forallb app report_targets] in Hpre, Hpost.
  apply andb_prop in Hpre as [Hf1 Hpre]. apply andb_prop in Hpre as [Hr1 Hpre].
  apply andb_prop in Hpost as [Hf2 Hpost].
  apply andb_prop in Hpost as [Hr2 Hpost].
  fold (free_of rewrite_targets pre) in Hpre.
  fold (free_of rewrite_targets post) in Hpost.
  apply negb_true_iff in Hf1, Hf2, Hr1, Hr2.
  pose proof (free_of_calls _ Hpre) as Cpre.
  pose proof (free_of_calls _ Hpost) as Cpost.
  assert (Eret : apply_rules replacements
                   (fix_includes (pre ++ realloc_of a b ++ post))
                 = pre ++ realloc_of a b ++ post).
  { rewrite fix_includes_site;
      [ | now apply free_of_include | now apply free_of_include
        | reflexivity | reflexivity
        | now apply arg_site_quiet | now apply arg_site_quiet ].
    unfold apply_rules, replacements. cbn [fold_left fst snd].
    remember (a ++ T ", " ++ b) as arg eqn:Earg.
    assert (Esite : realloc_of a b = T "realloc(" ++ arg ++ T ")")
      by (unfold realloc_of; now rewrite Earg).
    rewrite Esite.
    pass_site (T "malloc") malloc_sizeof pre (T "realloc(" ++ arg ++ T ")")
      post "r"%char (T "ealloc(") arg Cpre Cpost Hp skip_other.
    pass_site (T "malloc") malloc_array pre (T "realloc(" ++ arg ++ T ")")
      post "r"%char (T "ealloc(") arg Cpre Cpost Hp skip_other.
    pass_site (T "calloc") calloc_one pre (T "realloc(" ++ arg ++ T ")")
      post "r"%char (T "ealloc(") arg Cpre Cpost Hp skip_other.
    pass_site (T "calloc") calloc_array pre (T "realloc(" ++ arg ++ T ")")
      post "r"%char (T "ealloc(") arg Cpre Cpost Hp skip_other.
    pass_site (T "malloc") malloc_simple pre (T "realloc(" ++ arg ++ T ")")
      post "r"%char (T "ealloc(") arg Cpre Cpost Hp skip_other.
    pass_site (T "strdup") strdup_call pre (T "realloc(" ++ arg ++ T ")")
      post "r"%char (T "ealloc(") arg Cpre Cpost Hp skip_other.
    reflexivity. }
  assert (Efree : report free_pattern (pre ++ realloc_of a b ++ post) = []).
  { unfold report, finditer.
    rewrite finditer_go_quiet
      by (apply quiet_contains; [exact Hf1 | reflexivity]).
    rewrite free_pattern_passes_realloc by exact Hp.
    rewrite finditer_go_plain;
      [reflexivity | vm_compute; discriminate | exact Hf2]. }
  assert (Erealloc : report realloc_pattern (pre ++ realloc_of a b ++ post)
                     = [(count_nl pre + 1, realloc_of a b)]).
  { unfold report.
    rewrite (finditer_around realloc_pattern pre (realloc_of a b) post st);
      [ | vm_compute; discriminate | discriminate | exact Hr1
        | reflexivity | exact Hr2 | exact Em ].
    cbn [map]. unfold report_line. cbn [fst snd].
    now rewrite count_nl_prefix. }
  cbv zeta. unfold RefactorMain.printed, refactor_parser_memory.
  cbn [returned free_report realloc_report].
  rewrite Eret, Efree, Erealloc. repeat split.
Qed.

Lemma realloc_call_reported_witness :
  let pre := T "int f() {" ++ [nl] ++ T "  p = " in
  plain_arg (T "p") = true /\ forallb not_comma (T "p") = true
  /\ plain_arg (T "n * 2") = true
  /\ free_of include_targets (T "p" ++ T ", " ++ T "n * 2") = true
  /\ free_of (report_targets ++ rewrite_targets) pre = true
  /\ free_of (report_targets ++ rewrite_targets) (T ";") = true
  /\ RefactorMain.printed
       (refactor_parser_memory (pre ++ T "realloc(p, n * 2)" ++ T ";"))
     = [ [nl] ++ T "Found 1 realloc() calls that need special handling:";
         T "  Line ~2: realloc(p, n * 2)" ].
Proof.
  intros pre.
  assert (H1 : plain_arg (T "p") = true) by reflexivity.
  assert (H2 : forallb not_comma (T "p") = true) by reflexivity.
  assert (H3 : plain_arg (T "n * 2") = true) by reflexivity.
  assert (H4 : free_of include_targets (T "p" ++ T ", " ++ T "n * 2") = true)
    by reflexivity.
  assert (H5 : free_of (report_targets ++ rewrite_targets) pre = true)
    by reflexivity.
  assert (H6 : free_of (report_targets ++ rewrite_targets) (T ";") = true)
    by reflexivity.
  repeat (split; [assumption|]).
  exact (proj2 (proj2 (proj2 (realloc_call_reported pre (T "p") (T "n * 2")
                                (T ";") H1 H2 H3 H4 H5 H6)))).
Defined.

(** The generic rule does not match where its lookahead finds
    [\s*\*\s*sizeof] after the first closing parenthesis. *)
Lemma generic_rule_guarded (arg rest : text) (pos : nat) (st : caps) :
  forallb not_rparen arg = true ->
  match_at sizeof_suffix rest <> None ->
  mt (Plus not_rparen (Close 1 (ws (Chr ")"%char
        (NotAhead sizeof_suffix Done)))))
     (arg ++ ")"%char :: rest) pos st = None.
Proof.
  intros Ha Hg.
  destruct (mt _ _ pos st) as [res|] eqn:E; [exfalso|reflexivity].
  cbn [mt] in E. destruct (arg ++ ")"%char :: rest) as [|x s'] eqn:Es;
    [discriminate|].
  destruct (not_rparen x) eqn:Hx; [|discriminate].
  apply greedy_inv in E as (w & s2 & -> & Hw & E).
  cbn [mt] in E. unfold ws in E. cbn [mt] in E.
  apply greedy_inv in E as (sp & s3 & -> & Hsp & E).
  destruct s3 as [|y s4]; [discriminate|]. cbn [mt] in E.
  destruct (Ascii.eqb_spec y ")"%char) as [->|]; [|discriminate].
  destruct (mt sizeof_suffix s4 _ _) eqn:Eq; [discriminate|].
  assert (Ep : arg ++ ")"%char :: rest
               = (x :: w ++ sp) ++ ")"%char :: s4)
    by (rewrite Es; cbn [app]; now rewrite <- app_assoc).
  apply first_rparen in Ep as [_ ->]; [ | exact Ha | ].
  - apply Hg. unfold match_at.
    exact (mt_none_indep sizeof_suffix _ _ _ _ _ Eq).
  - cbn [forallb]. rewrite Hx, forallb_app, Hw.
    now rewrite (spaces_not_rparen _ Hsp).
Qed.

Lemma no_paren_not_rparen (a : text) :
  no_paren a = true -> forallb not_rparen a = true.
Proof.
  apply forallb_weaken. intros c. unfold neither, not_rparen.
  now destruct (Ascii.eqb c "("%char), (Ascii.eqb c ")"%char).
Qed.

(** No rule matches at [malloc((inner) * sizeof(T))]. *)
Lemma rules_skip_grouped (inner ty post : text) :
  no_paren inner = true ->
  match_at malloc_sizeof (grouped_malloc inner ty ++ post) = None
  /\ match_at malloc_array (grouped_malloc inner ty ++ post) = None
  /\ match_at malloc_simple (grouped_malloc inner ty ++ post) = None.
Proof.
  intros Hp. unfold grouped_malloc. rewrite <- !app_assoc.
  repeat split; try reflexivity.
  unfold match_at, malloc_simple, pat, group_of. cbn [fold_right].
  change (T "malloc((" ++ ?s) with (T "malloc" ++ "("%char :: "("%char :: s).
  rewrite mt_lit_app, mt_ws_stop, mt_chr, mt_ws_stop, mt_open by reflexivity.
  change (T ") * sizeof(" ++ ?s) with (")"%char :: T " * sizeof(" ++ s).
  change ("("%char :: inner ++ ?s) with (("("%char :: inner) ++ s).
  apply generic_rule_guarded.
  - cbn [forallb]. now rewrite (no_paren_not_rparen _ Hp).
  - discriminate.
Qed.

(** A rule that does not match at such a call passes over it. *)
Lemma rule_passes_grouped (name : text) (r : regex) (tp : template)
  (inner ty post : text) :
  call_rule name r -> In name call_names ->
  no_paren inner = true -> forallb is_word ty = true ->
  match_at r (grouped_malloc inner ty ++ post) = None ->
  sub_go r tp 0 (grouped_malloc inner ty ++ post)
  = grouped_malloc inner ty ++ sub_go r tp 0 post.
Proof.
  intros Hr Hn Hp Hw Hm. revert Hm.
  unfold grouped_malloc. rewrite <- !app_assoc.
  change (T "malloc((" ++ ?s) with ("m"%char :: T "alloc((" ++ s).
  change (T ") * sizeof(" ++ ?s) with (")"%char :: T " * sizeof(" ++ s).
  intros Hm. rewrite (sub_go_nomatch _ _ _ _ Hm). f_equal.
  rewrite (sub_go_lit name) by lit_side Hr Hn.
  rewrite (sub_go_arg name) by assumption.
  change (")"%char :: T " * sizeof(" ++ ?s) with (T ") * sizeof(" ++ s).
  change (T "))" ++ post) with ((")"%char :: T ")") ++ post).
  now rewrite (rule_passes_word_site name r tp (T ") * sizeof(") ty
                 ")"%char (T ")") post)
    by (first [ assumption | lit_side Hr Hn | reflexivity | discriminate ]).
Qed.

(** X21: an array allocation whose count is an expression in parentheses,
    [malloc((inner) * sizeof(T))], between two texts without rewriting
    target, is returned as it is: the second rule wants a single word as
    the count, and the generic rule, which would take [(inner] as its
    argument, is stopped by its lookahead.  The expression [inner] holds
    no parenthesis and neither the anchor nor a stdlib.h line; [T] is a
    word. *)
Theorem grouped_count_not_rewritten (pre inner ty post : text) :
  no_paren inner = true -> free_of include_targets inner = true ->
  is_name ty = true ->
  free_of rewrite_targets pre = true ->
  free_of rewrite_targets post = true ->
  returned (refactor_parser_memory (pre ++ grouped_malloc inner ty ++ post))
  = pre ++ grouped_malloc inner ty ++ post.
Proof.
  intros Hp Hinc Hty Hpre Hpost.
  destruct (name_cases ty Hty) as (_ & Hw & _).
  destruct (include_free inner Hinc) as [I1 I2].
  destruct (rules_skip_grouped inner ty post Hp) as (S1 & S2 & S5).
  pose proof (free_of_calls _ Hpre) as Cpre.
  pose proof (free_of_calls _ Hpost) as Cpost.
  assert (Q : forall l' : text,
             contains ("#"%char :: l') inner = false ->
             no_overhang ("#"%char :: l') (T ") * sizeof(") = true ->
             quiet ("#"%char :: l') (grouped_malloc inner ty) post).
  { intros l' Hc Ho. unfold grouped_malloc.
    apply quiet_app; [now apply site_quiet_hash|].
    apply quiet_app; [rewrite <- app_assoc; now apply quiet_contains|].
    apply site_quiet_hash.
    rewrite !mem_app, (hash_not_in_name ty Hw). reflexivity. }
  unfold refactor_parser_memory. cbn [returned].
  rewrite fix_includes_site;
    [ | now apply free_of_include | now apply free_of_include
      | reflexivity | reflexivity
      | now apply Q | now apply Q ].
  unfold apply_rules, replacements. cbn [fold_left fst snd].
  rewrite (re_sub_site (T "malloc") malloc_sizeof _ pre
             (grouped_malloc inner ty) post (grouped_malloc inner ty));
    [ | call_rule_of | name_of | exact Cpre | exact Cpost | reflexivity
      | apply (rule_passes_grouped (T "malloc"));
        [call_rule_of | name_of | exact Hp | exact Hw | exact S1] ].
  rewrite (re_sub_site (T "malloc") malloc_array _ pre
             (grouped_malloc inner ty) post (grouped_malloc inner ty));
    [ | call_rule_of | name_of | exact Cpre | exact Cpost | reflexivity
      | apply (rule_passes_grouped (T "malloc"));
        [call_rule_of | name_of | exact Hp | exact Hw | exact S2] ].
  rewrite (re_sub_site (T "calloc") calloc_one _ pre
             (grouped_malloc inner ty) post (grouped_malloc inner ty));
    [ | call_rule_of | name_of | exact Cpre | exact Cpost | reflexivity
      | apply (rule_passes_grouped (T "calloc"));
        [call_rule_of | name_of | exact Hp | exact Hw | skip_other] ].
  rewrite (re_sub_site (T "calloc") calloc_array _ pre
             (grouped_malloc inner ty) post (grouped_malloc inner ty));
    [ | call_rule_of | name_of | exact Cpre | exact Cpost | reflexivity
      | apply (rule_passes_grouped (T "calloc"));
        [call_rule_of | name_of | exact Hp | exact Hw | skip_other] ].
  rewrite (re_sub_site (T "malloc") malloc_simple _ pre
             (grouped_malloc inner ty) post (grouped_malloc inner ty));
    [ | call_rule_of | name_of | exact Cpre | exact Cpost | reflexivity
      | apply (rule_passes_grouped (T "malloc"));
        [call_rule_of | name_of | exact Hp | exact Hw | exact S5] ].
  rewrite (re_sub_site (T "strdup") strdup_call _ pre
             (grouped_malloc inner ty) post (grouped_malloc inner ty));
    [ reflexivity
      | call_rule_of | name_of | exact Cpre | exact Cpost | reflexivity
      | apply (rule_passes_grouped (T "strdup"));
        [call_rule_of | name_of | exact Hp | exact Hw | skip_other] ].
Qed.

Lemma grouped_count_not_rewritten_witness :
  no_paren (T "n + 1") = true
  /\ free_of include_targets (T "n + 1") = true
  /\ is_name (T "Token") = true
  /\ free_of rewrite_targets (T "p = ") = true
  /\ free_of rewrite_targets (T ";") = true
  /\ returned (refactor_parser_memory
                 (T "p = malloc((n + 1) * sizeof(Token));"))
     = T "p = malloc((n + 1) * sizeof(Token));".
Proof.
  assert (H1 : no_paren (T "n + 1") = true) by reflexivity.
  assert (H2 : free_of include_targets (T "n + 1") = true) by reflexivity.
  assert (H3 : is_name (T "Token") = true) by reflexivity.
  assert (H4 : free_of rewrite_targets (T "p = ") = true) by reflexivity.
  assert (H5 : free_of rewrite_targets (T ";") = true) by reflexivity.
  repeat (split; [assumption|]).
  exact (grouped_count_not_rewritten (T "p = ") (T "n + 1") (T "Token")
           (T ";") H1 H2 H3 H4 H5).
Defined.

Lemma free_pattern_match (arg post : text) :
  plain_arg arg = true ->
  exists st,
    match_at free_pattern (free_of_arg arg ++ post) = Some (post, st).
Proof.
  intros Ha.
  destruct (plain_arg_cases arg Ha) as (Hne & _ & Hr & x & a' & E & Hx).
  unfold free_of_arg. rewrite <- !app_assoc.
  eexists.
  unfold match_at, free_pattern, pat, group_of. cbn [fold_right].
  change (T "free(" ++ ?s) with (T "free" ++ "("%char :: s).
  change (T ")" ++ post) with (")"%char :: post).
  rewrite mt_lit_app, mt_ws_stop, mt_chr by reflexivity.
  rewrite E at 1. cbn [app]. rewrite mt_ws_stop by exact Hx.
  rewrite mt_open. change (x :: a' ++ ?s) with ((x :: a') ++ s).
  rewrite <- E.
  apply mt_plus_run; [exact Hne | exact Hr | reflexivity |].
  rewrite mt_close, mt_ws_stop, mt_chr by reflexivity.
  reflexivity.
Qed.

(** The realloc pattern finds nothing in a free call whose argument holds
    no parenthesis. *)
Lemma realloc_pattern_passes_free (arg post : text) (pos : nat) :
  no_paren arg = true ->
  finditer_go realloc_pattern 0 pos (free_of_arg arg ++ post)
  = finditer_go realloc_pattern 0 (pos + length (free_of_arg arg)) post.
Proof.
  intros Hp. unfold free_of_arg. rewrite <- !app_assoc.
  rewrite finditer_go_quiet by (apply quiet_clean; reflexivity).
  change (T ")" ++ post) with (")"%char :: post).
  rewrite finditer_go_silent.
  - change (")"%char :: post) with ([")"%char] ++ post).
    rewrite finditer_go_quiet by (apply quiet_clean; reflexivity).
    f_equal. rewrite !length_app. change (length (T ")")) with 1.
    cbn [length]. lia.
  - intros a1 a2 -> Hne. unfold no_paren in Hp. rewrite forallb_app in Hp.
    apply andb_prop in Hp as [_ Hp].
    apply (mt_reads_first "("%char);
      [discriminate | reflexivity | exact Hp].
Qed.

(** X22: one call [free(arg)], for any argument without parentheses that
    is not empty, does not start with white space and holds neither the
    anchor nor a stdlib.h line, between two texts without rewriting
    target and without [free] and [realloc]: the text is returned as it
    is, the call is reported with the number of its line, which the
    function prints after a header line, and no realloc call is
    reported. *)
Theorem free_call_reported_and_printed (pre arg post : text) :
  plain_arg arg = true -> free_of include_targets arg = true ->
  free_of (report_targets ++ rewrite_targets) pre = true ->
  free_of (report_targets ++ rewrite_targets) post = true ->
  let o := refactor_parser_memory (pre ++ free_of_arg arg ++ post) in
  returned o = pre ++ free_of_arg arg ++ post
  /\ free_report o = [(count_nl pre + 1, free_of_arg arg)]
  /\ realloc_report o = []
  /\ RefactorMain.printed o = free_lines (count_nl pre + 1) (free_of_arg arg).
Proof.
  intros Ha Hinc Hpre Hpost.
  destruct (plain_arg_cases arg Ha) as (_ & Hp & _ & _).
  destruct (free_pattern_match arg post Ha) as (st & Em).
  destruct (include_free _ Hinc) as [I1 I2].
  cbn [free_of forallb app report_targets] in Hpre, Hpost.
  apply andb_prop in Hpre as [Hf1 Hpre]. apply andb_prop in Hpre as [Hr1 Hpre].
  apply andb_prop in Hpost as [Hf2 Hpost].
  apply andb_prop in Hpost as [Hr2 Hpost].
  fold (free_of rewrite_targets pre) in Hpre.
  fold (free_of rewrite_targets post) in Hpost.
  apply negb_true_iff in Hf1, Hf2, Hr1, Hr2.
  pose proof (free_of_calls _ Hpre) as Cpre.
  pose proof (free_of_calls _ Hpost) as Cpost.
  assert (Eret : apply_rules replacements
                   (fix_includes (pre ++ free_of_arg arg ++ post))
                 = pre ++ free_of_arg arg ++ post).
  { rewrite fix_includes_site;
      [ | now apply free_of_include | now apply free_of_include
        | reflexivity | reflexivity
        | now apply arg_site_quiet | now apply arg_site_quiet ].
    unfold apply_rules, replacements. cbn [fold_left fst snd].
    pass_site (T "malloc") malloc_sizeof pre (free_of_arg arg)
      post "f"%char (T "ree(") arg Cpre Cpost Hp skip_other.
    pass_site (T "malloc") malloc_array pre (free_of_arg arg)
      post "f"%char (T "ree(") arg Cpre Cpost Hp skip_other.
    pass_site (T "calloc") calloc_one pre (free_of_arg arg)
      post "f"%char (T "ree(") arg Cpre Cpost Hp skip_other.
    pass_site (T "calloc") calloc_array pre (free_of_arg arg)
      post "f"%char (T "ree(") arg Cpre Cpost Hp skip_other.
    pass_site (T "malloc") malloc_simple pre (free_of_arg arg)
      post "f"%char (T "ree(") arg Cpre Cpost Hp skip_other.
    pass_site (T "strdup") strdup_call pre (free_of_arg arg)
      post "f"%char (T "ree(") arg Cpre Cpost Hp skip_other.
    reflexivity. }
  assert (Efree : report free_pattern (pre ++ free_of_arg arg ++ post)
                  = [(count_nl pre + 1, free_of_arg arg)]).
  { unfold report.
    rewrite (finditer_around free_pattern pre (free_of_arg arg) post st);
      [ | vm_compute; discriminate | discriminate | exact Hf1
        | reflexivity | exact Hf2 | exact Em ].
    cbn [map]. unfold report_line. cbn [fst snd].
    now rewrite count_nl_prefix. }
  assert (Erealloc : report realloc_pattern
                       (pre ++ free_of_arg arg ++ post) = []).
  { unfold report, finditer.
    rewrite finditer_go_quiet
      by (apply quiet_contains; [exact Hr1 | reflexivity]).
    rewrite realloc_pattern_passes_free by exact Hp.
    rewrite finditer_go_plain;
      [reflexivity | vm_compute; discriminate | exact Hr2]. }
  cbv zeta. unfold RefactorMain.printed, refactor_parser_memory.
  cbn [returned free_report realloc_report].
  rewrite Eret, Efree, Erealloc. repeat split.
Qed.

Lemma free_call_reported_and_printed_witness :
  let pre := T "void f() {" ++ [nl] ++ [nl] ++ T "  " in
  plain_arg (T "node->name") = true
  /\ free_of include_targets (T "node->name") = true
  /\ free_of (report_targets ++ rewrite_targets) pre = true
  /\ free_of (report_targets ++ rewrite_targets) (T ";") = true
  /\ RefactorMain.printed
       (refactor_parser_memory (pre ++ T "free(node->name)" ++ T ";"))
     = [ T "Found 1 free() calls that need manual size tracking:";
         T "  Line ~3: free(node->name)" ].
Proof.
  intros pre.
  assert (H1 : plain_arg (T "node->name") = true) by reflexivity.
  assert (H2 : free_of include_targets (T "node->name") = true)
    by reflexivity.
  assert (H3 : free_of (report_targets ++ rewrite_targets) pre = true)
    by reflexivity.
  assert (H4 : free_of (report_targets ++ rewrite_targets) (T ";") = true)
    by reflexivity.
  repeat (split; [assumption|]).
  exact (proj2 (proj2 (proj2 (free_call_reported_and_printed pre
                                (T "node->name") (T ";") H1 H2 H3 H4)))).
Defined.

End RuleExtras.

(** ** Call sites in any text

    The lemmas above follow a call through the rewriter between two
    texts without rewrite target.  The ones below do without that: they
    follow a call site in any text, where matches can begin before it
    and run into it. *)

Module SiteFacts.

Import Refactor RefactorFacts RuleExtras.

(** ** The longest run of a class *)

Lemma greedy_none_k {A : Type} (p : ascii -> bool)
  (k : text -> nat -> option A) (s : text) (pos : nat) :
  greedy p k s pos = None -> k s pos = None.
Proof.
  destruct s as [|x s]; simpl; [auto|].
  destruct (p x); [|auto].
  destruct (greedy p k s (S pos)); [discriminate | auto].
Qed.

Lemma greedy_none_all {A : Type} (p : ascii -> bool)
  (k : text -> nat -> option A) (v : text) :
  forall s2 pos, forallb p v = true ->
    greedy p k (v ++ s2) pos = None -> k s2 (pos + length v) = None.
Proof.
  induction v as [|y v IH]; intros s2 pos Hv H.
  - rewrite Nat.add_0_r. now apply (greedy_none_k p).
  - simpl in Hv. apply andb_prop in Hv as [Hy Hv].
    simpl in H. rewrite Hy in H.
    destruct (greedy p k (v ++ s2) (S pos)) eqn:E; [discriminate|].
    cbn [length]. rewrite Nat.add_succ_r. now apply (IH s2 (S pos)).
Qed.

(** A greedy loop stops after the longest run from which the rest of the
    pattern matches. *)
Lemma greedy_inv_max {A : Type} (p : ascii -> bool)
  (k : text -> nat -> option A) (s : text) (pos : nat) (res : A) :
  greedy p k s pos = Some res ->
  exists w s', s = w ++ s' /\ forallb p w = true
               /\ k s' (pos + length w) = Some res
               /\ forall v s2, s' = v ++ s2 -> v <> [] ->
                    forallb p v = true ->
                    k s2 (pos + length w + length v) = None.
Proof.
  revert pos; induction s as [|x s IH]; intros pos; simpl.
  - intros H. exists [], []. rewrite Nat.add_0_r. repeat split; auto.
    intros v s2 E Hv. destruct v; [congruence | discriminate].
  - destruct (p x) eqn:Hp.
    + destruct (greedy p k s (S pos)) as [res'|] eqn:E.
      * intros [= <-].
        destruct (IH _ E) as (w & s' & -> & Hw & Hk & Hmax).
        exists (x :: w), s'. simpl. rewrite Hp, Hw, Nat.add_succ_r.
        repeat split; auto.
      * intros H. exists [], (x :: s). rewrite Nat.add_0_r.
        repeat split; auto.
        intros v s2 Ev Hv Hpv. destruct v as [|y v]; [congruence|].
        simpl in Ev. injection Ev as <- ->.
        simpl in Hpv. apply andb_prop in Hpv as [_ Hpv].
        cbn [length]. rewrite Nat.add_succ_r.
        now apply (greedy_none_all p k v s2 (S pos)).
    + intros H. exists [], (x :: s). rewrite Nat.add_0_r.
      repeat split; auto.
      intros v s2 Ev Hv Hpv. destruct v as [|y v]; [congruence|].
      simpl in Ev. injection Ev as <- ->.
      simpl in Hpv. rewrite Hp in Hpv. discriminate.
Qed.

(** A match of [call_re name tail], for a [tail] that reads nothing: the
    argument runs up to the closing parenthesis. *)
Lemma call_re_inv_max (name : text) (tail : regex) (s rest : text)
  (st : caps) :
  (forall s0 pos0 st0 res,
      mt tail s0 pos0 st0 = Some res -> res = (s0, st0)) ->
  match_at (call_re name tail) s = Some (rest, st) ->
  exists w1 w2 g,
    s = (name ++ w1 ++ "("%char :: w2) ++ g ++ ")"%char :: rest
    /\ forallb is_space w1 = true /\ forallb is_space w2 = true
    /\ forallb not_rparen g = true
    /\ g <> [] /\ group 1 st = g.
Proof.
  intros Htail H. unfold match_at, call_re, ws in H.
  apply mt_lit in H as (s1 & -> & H). cbn [mt] in H.
  apply greedy_inv in H as (w1 & s2 & -> & Hw1 & H).
  destruct s2 as [|x s2]; [discriminate|].
  destruct (Ascii.eqb_spec x "("%char) as [->|]; [|discriminate].
  apply greedy_inv in H as (w2 & s3 & -> & Hw2 & H).
  destruct s3 as [|y s3]; [discriminate|].
  destruct (not_rparen y) eqn:Hy; [|discriminate].
  apply greedy_inv_max in H as (g & s4 & -> & Hg & H & Hmax).
  pose proof H as H0.
  apply greedy_inv in H as (w3 & s5 & -> & Hw3 & H).
  destruct s5 as [|z s5]; [discriminate|].
  destruct (Ascii.eqb_spec z ")"%char) as [->|]; [|discriminate].
  assert (w3 = []) as ->.
  { destruct w3 as [|a w3]; [reflexivity|]. exfalso.
    specialize (Hmax (a :: w3) (")"%char :: s5) eq_refl
                  ltac:(discriminate) (spaces_not_rparen _ Hw3)).
    cbn [mt greedy] in Hmax.
    change (is_space ")"%char) with false in Hmax. cbn iota in Hmax.
    rewrite Ascii.eqb_refl in Hmax.
    match type of H with
    | mt tail ?s0 ?p0 ?c0 = _ =>
        apply (mt_none_indep tail s0 _ _ p0 c0) in Hmax
    end.
    rewrite Hmax in H. discriminate. }
  cbn [app length] in H. apply Htail in H. injection H as <- ->.
  exists w1, w2, (y :: g). repeat split; auto.
  - now rewrite <- !app_assoc.
  - simpl. now rewrite Hy, Hg.
  - discriminate.
  - unfold group, close_group, open_group. cbn [opened closed assoc Nat.eqb].
    match goal with
    | |- firstn (?a - ?b) _ = _ =>
        replace (a - b) with (length (y :: g)) by (cbn [length]; lia)
    end.
    change (y :: g ++ ")"%char :: rest)
      with ((y :: g) ++ ")"%char :: rest).
    now rewrite firstn_app, Nat.sub_diag, firstn_all, app_nil_r.
Qed.

(** ** A call pattern and a text it can run into *)

(** How a match of a call pattern lies on a text that it runs into and
    whose beginning is not in the head of the call. *)
Lemma call_align (hd g rest pre t1 t2p : text) :
  hd ++ g ++ ")"%char :: rest = pre ++ t1 ++ ")"%char :: t2p ->
  (forall l z, l <> [] -> hd = pre ++ l ->
               l ++ z = t1 ++ ")"%char :: t2p -> False) ->
  forallb not_rparen g = true -> forallb not_rparen t1 = true ->
  length rest < length (t1 ++ ")"%char :: t2p) ->
  exists l, pre = hd ++ l /\ g = l ++ t1 /\ rest = t2p.
Proof.
  intros E Hhd Hg Ht Hl.
  apply app_eq_app in E as [l [[E1 E2]|[E1 E2]]].
  - destruct l as [|c l].
    + rewrite app_nil_r in E1. cbn [app] in E2.
      symmetry in E2. destruct (first_rparen _ _ _ _ E2 Hg Ht) as [-> ->].
      exists []. rewrite app_nil_r. auto.
    + exfalso. apply (Hhd (c :: l) (g ++ ")"%char :: rest));
        [discriminate | exact E1 | now symmetry].
  - apply app_eq_app in E2 as [l2 [[E3 E4]|[E3 E4]]].
    + assert (Hl2 : forallb not_rparen l2 = true).
      { rewrite E3, forallb_app in Hg. now apply andb_prop in Hg as [_ ?]. }
      destruct (first_rparen _ _ _ _ E4 Ht Hl2) as [-> ->].
      exists l. auto.
    + destruct l2 as [|c l2].
      * cbn [app] in E4. destruct t1 as [|c0 t1'].
        -- cbn [app] in E4. injection E4 as ->.
           rewrite app_nil_r in E3. subst l. exists g.
           rewrite app_nil_r. auto.
        -- exfalso. simpl in E4, Ht. injection E4 as <- _. discriminate.
      * exfalso. apply (f_equal (@length ascii)) in E4.
        simpl in E4. rewrite !length_app in *. simpl in *. lia.
Qed.

(** A match of a call pattern that begins before a text [t1)] either
    ends before it or ends with its closing parenthesis and holds it at
    the end of the argument. *)
Lemma call_match_cases (name : text) (tail : regex)
  (pre t1 t2p rest : text) (st : caps) :
  (forall s0 pos0 st0 res,
      mt tail s0 pos0 st0 = Some res -> res = (s0, st0)) ->
  name <> [] ->
  forallb not_rparen t1 = true ->
  (forall w1 w2 l z,
      forallb is_space w1 = true -> forallb is_space w2 = true ->
      l <> [] -> name ++ w1 ++ "("%char :: w2 = pre ++ l ->
      l ++ z = t1 ++ ")"%char :: t2p -> False) ->
  match_at (call_re name tail) (pre ++ t1 ++ ")"%char :: t2p)
  = Some (rest, st) ->
  (exists x pre2, pre = x ++ pre2 /\ length pre2 < length pre
                  /\ rest = pre2 ++ t1 ++ ")"%char :: t2p)
  \/ (exists w1 w2 l,
         pre = (name ++ w1 ++ "("%char :: w2) ++ l
         /\ forallb is_space w1 = true /\ forallb is_space w2 = true
         /\ forallb not_rparen l = true
         /\ group 1 st = l ++ t1 /\ rest = t2p).
Proof.
  intros Htail Hname Ht Hhd E.
  assert (Hh : head_lit (call_re name tail) <> [])
    by now rewrite head_lit_call.
  destruct (Nat.lt_ge_cases (length rest) (length (t1 ++ ")"%char :: t2p)))
    as [Hov|Hno].
  - right.
    destruct (call_re_inv_max _ _ _ _ _ Htail E)
      as (w1 & w2 & g & Es & Hw1 & Hw2 & Hg & _ & Hgrp).
    destruct (call_align _ g rest pre t1 t2p (eq_sym Es))
      as (l & Ep & -> & ->); auto.
    + intros l z Hl. now apply Hhd.
    + exists w1, w2, l. repeat split; auto.
      rewrite forallb_app in Hg. now apply andb_prop in Hg as [? _].
  - left. pose proof E as HM. apply mt_M, M_suffix in HM as [m Em].
    cbn [fst] in Em.
    apply (mt_shorter _ _ _ _ _ _ Hh) in E.
    apply app_eq_app in Em as [l [[E1 E2]|[E1 E2]]].
    + exists m, l. repeat split; auto.
      apply (f_equal (@length ascii)) in E1, E2.
      rewrite !length_app in *. cbn [length] in *. lia.
    + assert (l = []) as ->.
      { apply (f_equal (@length ascii)) in E2.
        destruct l; [reflexivity|].
        rewrite !length_app in *. cbn [length] in *. lia. }
      rewrite app_nil_r in E1. cbn [app] in E2. subst m.
      exists pre, []. rewrite app_nil_r. repeat split; auto.
      apply (f_equal (@length ascii)) in E2.
      rewrite !length_app in *. cbn [length] in *. lia.
Qed.

(** The beginning of a text that is no character of a call's head
    cannot stand in that head. *)
Lemma head_misses (name pre : text) (c0 : ascii) (u t2p : text)
  (w1 w2 l z : text) :
  mem c0 name = false -> is_space c0 = false -> c0 <> "("%char ->
  forallb is_space w1 = true -> forallb is_space w2 = true ->
  l <> [] -> name ++ w1 ++ "("%char :: w2 = pre ++ l ->
  l ++ z = (c0 :: u) ++ ")"%char :: t2p -> False.
Proof.
  intros Hmem Hsp Hpar Hw1 Hw2 Hl E1 E2.
  destruct l as [|c l]; [congruence|].
  simpl in E2. injection E2 as -> _.
  assert (Hin : In c0 (name ++ w1 ++ "("%char :: w2)).
  { rewrite E1. apply in_or_app. right. now left. }
  apply in_app_or in Hin as [Hin|Hin].
  { apply mem_In in Hmem. contradiction. }
  apply in_app_or in Hin as [Hin|[<-|Hin]].
  - rewrite (spaces_In _ _ Hw1 Hin) in Hsp. discriminate.
  - congruence.
  - rewrite (spaces_In _ _ Hw2 Hin) in Hsp. discriminate.
Qed.

(** A call pattern leaves in the result every occurrence of a text
    [c0 u)t2] whose first character cannot be read by the head of the
    call, whose part before the parenthesis holds no closing
    parenthesis, and in which no match begins: a match that runs into
    it copies it with the argument. *)
Lemma re_sub_call_carries (name : text) (tail : regex) (pfx : text)
  (c0 : ascii) (u t2 s : text) :
  name <> [] ->
  (forall s0 pos0 st0 res,
      mt tail s0 pos0 st0 = Some res -> res = (s0, st0)) ->
  mem c0 name = false -> is_space c0 = false -> c0 <> "("%char ->
  forallb not_rparen (c0 :: u) = true ->
  (forall post,
      sub_go (call_re name tail) [TLit pfx; TGrp 1; TLit (T ")")] 0
        (((c0 :: u) ++ ")"%char :: t2) ++ post)
      = ((c0 :: u) ++ ")"%char :: t2)
        ++ sub_go (call_re name tail) [TLit pfx; TGrp 1; TLit (T ")")] 0
             post) ->
  (forall post,
      sub_go (call_re name tail) [TLit pfx; TGrp 1; TLit (T ")")] 0
        (t2 ++ post)
      = t2 ++ sub_go (call_re name tail) [TLit pfx; TGrp 1; TLit (T ")")] 0
                post) ->
  contains ((c0 :: u) ++ ")"%char :: t2) s = true ->
  contains ((c0 :: u) ++ ")"%char :: t2)
    (re_sub (call_re name tail) [TLit pfx; TGrp 1; TLit (T ")")] s) = true.
Proof.
  intros Hname Htail Hmem Hsp Hpar Ht Hpass Hpass2.
  apply re_sub_preserves.
  - intros pre post rest st E.
    rewrite <- app_assoc in E.
    change ((")"%char :: t2) ++ post) with (")"%char :: t2 ++ post) in E.
    destruct (call_match_cases name tail pre (c0 :: u) (t2 ++ post) rest st
                Htail Hname Ht) as [(x & pre2 & Ex & Hlen & ->)
                                   |(w1 & w2 & l & Ep & _ & _ & _ & Hgrp
                                     & ->)];
      [ | exact E | | ].
    + intros w1 w2 l z Hw1 Hw2 Hl E1 E2.
      exact (head_misses name pre c0 u (t2 ++ post) w1 w2 l z
               Hmem Hsp Hpar Hw1 Hw2 Hl E1 E2).
    + left. exists x, pre2. repeat split; auto.
      now rewrite <- app_assoc.
    + right. split.
      * rewrite Ep, !length_app. simpl.
        destruct name; [congruence | simpl; lia].
      * unfold expand. cbn [map concat]. rewrite Hgrp, Hpass2.
        rewrite app_nil_r, <- !app_assoc.
        apply contains_app_r, contains_app_r.
        cbn [T list_ascii_of_string app].
        match goal with
        | |- contains _ (c0 :: u ++ ")"%char :: t2 ++ ?x) = true =>
            change (c0 :: u ++ ")"%char :: t2 ++ x)
              with ((c0 :: u) ++ (")"%char :: t2) ++ x)
        end.
        rewrite app_assoc. apply contains_prefix.
  - intros post _. rewrite Hpass. apply contains_prefix.
Qed.

(** A pattern leaves in the result every occurrence of a text that no
    match beginning before it reaches and in which no match begins. *)
Lemma re_sub_stays (r : regex) (tp : template) (t s : text) :
  t <> [] -> head_lit r <> [] -> apart r t = true ->
  (forall post, match_at r (t ++ post) = None) ->
  (forall post, sub_go r tp 0 (t ++ post) = t ++ sub_go r tp 0 post) ->
  contains t s = true -> contains t (re_sub r tp s) = true.
Proof.
  intros Ht Hh Ha Hnone Hpass. apply re_sub_preserves.
  - intros pre post rest st E. destruct pre as [|c pre].
    + cbn [app] in E. rewrite Hnone in E. discriminate.
    + left. destruct r; simpl in Hh; try congruence.
      destruct (apart_match _ _ t (c :: pre) post rest st Ht
                  ltac:(discriminate) Ha E) as (x & pre2 & Ex & ->).
      exists x, pre2. repeat split; [exact Ex|].
      apply mt_shorter in E; [|simpl; discriminate].
      rewrite Ex in *. rewrite !length_app in *. lia.
  - intros post _. rewrite Hpass. apply contains_prefix.
Qed.

(** ** Call sites through the include steps and the rules *)

(** The injected include line does not break a text that holds no
    anchor and does not begin inside one. *)
Lemma inject_keeps_site (c : ascii) (u s : text) :
  mem c anchor = false -> quiet anchor (c :: u) [] ->
  contains (c :: u) s = true ->
  contains (c :: u) (py_replace_n s anchor (anchor ++ [nl] ++ includes) 1)
  = true.
Proof.
  intros Hc Hq Hs.
  destruct (replace_first anchor (anchor ++ [nl] ++ includes) s
              ltac:(discriminate)) as [->|(a & b & -> & ->)]; [exact Hs|].
  rewrite <- app_assoc, app_assoc. rewrite app_assoc in Hs.
  apply insert_keeps; [|exact Hs].
  intros t1 t2 pre Et Hn1 Hn2 E.
  apply app_eq_app in E as [l [[E1 E2]|[E1 E2]]].
  - (* the anchor lies in the text *)
    rewrite E2, <- app_assoc in Et.
    assert (F : starts_with anchor ((anchor ++ t2) ++ []) = true)
      by (rewrite <- app_assoc; apply starts_with_app).
    rewrite (Hq l (anchor ++ t2)) in F; [discriminate | | ].
    + now rewrite Et.
    + discriminate.
  - (* the text begins inside the anchor *)
    destruct t1 as [|x t1]; [congruence|].
    simpl in Et. injection Et as <- _.
    apply mem_In in Hc. apply Hc. rewrite E2.
    apply in_or_app. right. now left.
Qed.

Lemma head_lit_stdlib : head_lit stdlib_pattern = stdlib_line.
Proof. reflexivity. Qed.

(** The two include steps leave in the text every occurrence of such a
    text. *)
Lemma fix_includes_keeps_site (c : ascii) (u s : text) :
  mem c anchor = false -> c <> "#"%char ->
  apart stdlib_pattern (c :: u) = true ->
  (forall post, quiet anchor (c :: u) post) ->
  (forall post, quiet stdlib_line (c :: u) post) ->
  contains (c :: u) s = true -> contains (c :: u) (fix_includes s) = true.
Proof.
  intros Hc Hh Ha Hqa Hqs Hs. unfold fix_includes.
  apply re_sub_stays; [discriminate | discriminate | exact Ha | | | ].
  - intros post. apply mt_head_lit. rewrite head_lit_stdlib.
    cbn. destruct (Ascii.eqb_spec c "#"%char); [contradiction|reflexivity].
  - intros post. apply sub_go_quiet. rewrite head_lit_stdlib. apply Hqs.
  - apply inject_keeps_site; [exact Hc | apply Hqa | exact Hs].
Qed.

Lemma hash_not_in_times (n w star : text) :
  forallb is_word n = true -> forallb is_word w = true ->
  star = [] \/ star = T "*" ->
  mem "#"%char (times_malloc n (w ++ star)) = false.
Proof.
  intros Hn Hw Hstar. unfold times_malloc.
  rewrite !mem_app, (hash_not_in_name n Hn), (hash_not_in_name w Hw).
  destruct Hstar as [->| ->]; reflexivity.
Qed.

(** The rest of an array call after its first closing parenthesis. *)
Lemma rule_passes_array_tail (name : text) (r : regex) (tp : template)
  (w star n post : text) :
  call_rule name r -> In name call_names ->
  forallb is_word w = true -> star = [] \/ star = T "*" ->
  forallb is_word n = true ->
  sub_go r tp 0 ((T ", " ++ (w ++ star) ++ T ", " ++ n ++ T ")") ++ post)
  = (T ", " ++ (w ++ star) ++ T ", " ++ n ++ T ")") ++ sub_go r tp 0 post.
Proof.
  intros Hr Hn Hw Hstar Hnw. rewrite <- !app_assoc.
  rewrite (sub_go_lit name) by lit_side Hr Hn.
  destruct Hstar as [->| ->]; cbn [T list_ascii_of_string app].
  - rewrite (sub_go_name name) by name_side.
    change (","%char :: " "%char :: n ++ ")"%char :: post)
      with (T ", " ++ n ++ ")"%char :: post).
    rewrite (sub_go_lit name r tp (T ", ")) by lit_side Hr Hn.
    rewrite (sub_go_name name) by name_side.
    change (")"%char :: post) with ([")"%char] ++ post).
    rewrite (sub_go_lit name r tp [")"%char]) by lit_side Hr Hn.
    reflexivity.
  - rewrite (sub_go_name name) by name_side.
    change ("*"%char :: ","%char :: " "%char :: n ++ ")"%char :: post)
      with (T "*, " ++ n ++ ")"%char :: post).
    rewrite (sub_go_lit name r tp (T "*, ")) by lit_side Hr Hn.
    rewrite (sub_go_name name) by name_side.
    change (")"%char :: post) with ([")"%char] ++ post).
    rewrite (sub_go_lit name r tp [")"%char]) by lit_side Hr Hn.
    reflexivity.
Qed.

Lemma array_call_parts (ty n : text) :
  new_array_call ty n
  = ("M"%char :: T "EM_NEW_ARRAY(allocators_get(ALLOC_SYSTEM_PARSER")
    ++ ")"%char :: (T ", " ++ ty ++ T ", " ++ n ++ T ")").
Proof. reflexivity. Qed.

(** A call rule leaves the array call in the text, also when a match
    runs over it. *)
Lemma call_rule_carries_array_call (name : text) (tail : regex)
  (pfx w star n s : text) :
  In name call_names ->
  (forall s0 pos0 st0 res,
      mt tail s0 pos0 st0 = Some res -> res = (s0, st0)) ->
  forallb is_word w = true -> star = [] \/ star = T "*" ->
  forallb is_word n = true ->
  contains (new_array_call (w ++ star) n) s = true ->
  contains (new_array_call (w ++ star) n)
    (re_sub (call_re name tail) [TLit pfx; TGrp 1; TLit (T ")")] s) = true.
Proof.
  intros Hn Htail Hw Hstar Hnw.
  assert (Hr : call_rule name (call_re name tail))
    by (unfold call_rule, call_re, ws; eexists; reflexivity).
  rewrite array_call_parts.
  apply re_sub_call_carries; try exact Htail.
  - destruct Hn as [<-|[<-|[<-|[]]]]; discriminate.
  - destruct Hn as [<-|[<-|[<-|[]]]]; reflexivity.
  - reflexivity.
  - discriminate.
  - reflexivity.
  - intros post. rewrite <- array_call_parts.
    now apply (rule_passes_new_array_call name).
  - intros post. now apply (rule_passes_array_tail name).
Qed.

(** The rules turn every array allocation with a bare count into the
    array call: the second rule writes it, and the rules after it leave
    it in the text. *)
Lemma rules_on_times_malloc (n w star s : text) :
  is_name n = true -> is_name w = true -> star = [] \/ star = T "*" ->
  contains (times_malloc n (w ++ star)) s = true ->
  let sized := apply_rules (firstn 4 replacements) s in
  contains (new_array_call (w ++ star) n) sized = true
  /\ contains (new_array_call (w ++ star) n)
       (re_sub malloc_simple mem_alloc sized) = true
  /\ contains (new_array_call (w ++ star) n) (apply_rules replacements s)
     = true.
Proof.
  intros Hn Hw Hstar Hs sized.
  destruct (name_cases n Hn) as (_ & Hnw & _).
  destruct (name_cases w Hw) as (_ & Hww & _).
  assert (H1 : contains (times_malloc n (w ++ star))
                 (re_sub malloc_sizeof mem_new s) = true).
  { apply re_sub_stays; [discriminate | discriminate | | | | exact Hs].
    - vm_compute. reflexivity.
    - intros post. now apply malloc_sizeof_skips_times.
    - intros post. apply malloc_rule_passes_times; auto.
      + call_rule_of.
      + now apply malloc_sizeof_skips_times. }
  assert (H2 : contains (new_array_call (w ++ star) n)
                 (re_sub malloc_array mem_new_array
                    (re_sub malloc_sizeof mem_new s)) = true).
  { apply (re_sub_rewrites _ _ (times_malloc n (w ++ star)));
      [discriminate | discriminate | | | exact H1].
    - vm_compute. reflexivity.
    - intros post. now apply malloc_array_match. }
  assert (H3 : contains (new_array_call (w ++ star) n)
                 (re_sub calloc_one mem_new
                    (re_sub malloc_array mem_new_array
                       (re_sub malloc_sizeof mem_new s))) = true).
  { apply re_sub_stays; [discriminate | discriminate | | | | exact H2].
    - vm_compute. reflexivity.
    - intros post. eapply other_rule_skips; [call_rule_of | reflexivity].
    - intros post. apply (rule_passes_new_array_call (T "calloc")); auto.
      + call_rule_of.
      + name_of. }
  assert (H4 : contains (new_array_call (w ++ star) n) sized = true).
  { unfold sized, apply_rules. cbn [firstn replacements fold_left fst snd].
    apply re_sub_stays; [discriminate | discriminate | | | | exact H3].
    - vm_compute. reflexivity.
    - intros post. eapply other_rule_skips; [call_rule_of | reflexivity].
    - intros post. apply (rule_passes_new_array_call (T "calloc")); auto.
      + call_rule_of.
      + name_of. }
  assert (H5 : contains (new_array_call (w ++ star) n)
                 (re_sub malloc_simple mem_alloc sized) = true).
  { rewrite malloc_simple_call.
    apply call_rule_carries_array_call; auto.
    - name_of.
    - intros s0 pos0 st0 res. apply tail_not_ahead. }
  split; [exact H4|]. split; [exact H5|].
  rewrite rules_split. fold sized. rewrite strdup_call_call.
  apply call_rule_carries_array_call; auto.
  - name_of.
  - intros s0 pos0 st0 res. apply tail_done.
Qed.

(** ** The text after the last closing parenthesis *)

Lemma has_rparen_app (x y : text) :
  has_rparen (x ++ y) = has_rparen x || has_rparen y.
Proof. apply existsb_app. Qed.

Lemma open_tail_closed (y z : text) :
  open_tail (y ++ ")"%char :: z) = open_tail z.
Proof.
  induction y as [|c y IH].
  - reflexivity.
  - cbn [app open_tail].
    change (c :: y ++ ")"%char :: z) with ((c :: y) ++ ")"%char :: z).
    rewrite has_rparen_app.
    change (has_rparen (")"%char :: z)) with true.
    rewrite orb_true_r. exact IH.
Qed.

Lemma open_tail_plain (a : text) : has_rparen a = false -> open_tail a = a.
Proof. destruct a as [|c a]; simpl; [reflexivity|]. now intros ->. Qed.

(** A suffix without closing parenthesis lies in the open tail. *)
Lemma open_tail_suffix (a1 a2 : text) :
  has_rparen a2 = false -> exists x, open_tail (a1 ++ a2) = x ++ a2.
Proof.
  intros H2. induction a1 as [|c a1 [x IH]].
  - exists []. now apply open_tail_plain.
  - cbn [app open_tail].
    destruct (has_rparen (c :: a1 ++ a2)).
    + now exists x.
    + now exists (c :: a1).
Qed.

Lemma any_suffix_app (f : text -> bool) (x y : text) :
  any_suffix f (x ++ y) = false -> f y = false.
Proof.
  induction x as [|c x IH]; cbn [app].
  - destruct y; simpl; intros H; now apply orb_false_elim in H as [? _].
  - simpl. intros H. apply orb_false_elim in H as [_ H]. auto.
Qed.

Lemma drop_spaces_run (w : text) (c : ascii) (z : text) :
  forallb is_space w = true -> is_space c = false ->
  drop_spaces (w ++ c :: z) = c :: z.
Proof.
  intros Hw Hc. induction w as [|x w IH]; simpl.
  - now rewrite Hc.
  - simpl in Hw. apply andb_prop in Hw as [-> Hw]. auto.
Qed.


(** ** Deallocation call sites *)

Lemma free_call_parts (arg : text) :
  free_of_arg arg = ("f"%char :: T "ree(" ++ arg) ++ [")"%char].
Proof. reflexivity. Qed.

Lemma any_suffix_app_r (f : text -> bool) (x y : text) :
  any_suffix f (x ++ y) = false -> any_suffix f y = false.
Proof.
  induction x as [|c x IH]; cbn [app]; [auto|].
  simpl. intros H. apply orb_false_elim in H as [_ H]. auto.
Qed.

Lemma any_suffix_head (f : text -> bool) (y : text) :
  any_suffix f y = false -> f y = false.
Proof. destruct y; simpl; intros H; now apply orb_false_elim in H as [? _]. Qed.

Lemma no_call_name (name arg : text) :
  no_call arg = true -> In name call_names ->
  any_suffix (calls name) arg = false.
Proof.
  unfold no_call. rewrite forallb_forall. intros H Hn.
  apply negb_true_iff. now apply H.
Qed.

(** No match of a call rule begins in a text in which no call of its
    name begins, when a closing parenthesis follows the text. *)
Lemma sub_go_no_call (name : text) (r : regex) (tp : template)
  (arg rest : text) :
  call_rule name r -> forallb not_rparen name = true ->
  any_suffix (calls name) arg = false ->
  sub_go r tp 0 (arg ++ ")"%char :: rest)
  = arg ++ sub_go r tp 0 (")"%char :: rest).
Proof.
  intros [r' ->] Hname Hno. apply sub_go_silent. intros a1 a2 -> Hne.
  destruct (match_at (lit name (ws (Chr "("%char r')))
              (a2 ++ ")"%char :: rest)) as [res|] eqn:E; [exfalso|reflexivity].
  unfold match_at in E. apply mt_lit in E as (s1 & E1 & E).
  unfold ws in E. cbn [mt] in E.
  apply greedy_inv in E as (w1 & s2 & -> & Hw1 & E).
  destruct s2 as [|x s2]; [discriminate|].
  destruct (Ascii.eqb_spec x "("%char) as [->|]; [|discriminate].
  clear E.
  assert (Hh : forallb not_rparen (name ++ w1 ++ ["("%char]) = true).
  { rewrite !forallb_app, Hname, (spaces_not_rparen _ Hw1). reflexivity. }
  assert (E2 : a2 ++ ")"%char :: rest
               = (name ++ w1 ++ ["("%char]) ++ s2)
    by (rewrite E1, <- !app_assoc; reflexivity).
  apply any_suffix_app_r, any_suffix_head in Hno.
  apply app_eq_app in E2 as [l [[E3 E4]|[E3 E4]]].
  - (* the head of the call lies in [a2] *)
    unfold calls in Hno.
    rewrite E3, <- !app_assoc, starts_with_app in Hno.
    rewrite skipn_app, skipn_all, Nat.sub_diag in Hno. cbn [skipn app] in Hno.
    rewrite drop_spaces_run in Hno by (exact Hw1 || reflexivity).
    discriminate.
  - destruct l as [|y l].
    + rewrite app_nil_r in E3. unfold calls in Hno.
      rewrite <- E3, starts_with_app in Hno.
      rewrite skipn_app, skipn_all, Nat.sub_diag in Hno.
      cbn [skipn app] in Hno.
      rewrite drop_spaces_run in Hno by (exact Hw1 || reflexivity).
      discriminate.
    + simpl in E4. injection E4 as <- _.
      rewrite E3, forallb_app in Hh. apply andb_prop in Hh as [_ Hh].
      discriminate.
Qed.

Lemma call_names_not_rparen (name : text) :
  In name call_names -> forallb not_rparen name = true.
Proof. intros [<-|[<-|[<-|[]]]]; reflexivity. Qed.

(** A rule of the rewriter passes over a deallocation call. *)
Lemma rule_passes_free_call (name : text) (r : regex) (tp : template)
  (arg post : text) :
  call_rule name r -> In name call_names -> no_call arg = true ->
  match_at r (free_of_arg arg ++ post) = None
  /\ sub_go r tp 0 (free_of_arg arg ++ post)
     = free_of_arg arg ++ sub_go r tp 0 post.
Proof.
  intros Hr Hn Ha.
  assert (Hm : match_at r (free_of_arg arg ++ post) = None).
  { apply (other_rule_skips name); [exact Hr|].
    destruct Hn as [<-|[<-|[<-|[]]]]; reflexivity. }
  split; [exact Hm|].
  unfold free_of_arg in *. rewrite <- !app_assoc in Hm.
  rewrite <- !app_assoc. cbn [T list_ascii_of_string app] in Hm |- *.
  rewrite (sub_go_nomatch _ _ _ _ Hm).
  change ("r"%char :: "e"%char :: "e"%char :: "("%char :: ?x)
    with (T "ree(" ++ x).
  rewrite (sub_go_lit name) by lit_side Hr Hn.
  rewrite (sub_go_no_call name);
    [ | exact Hr | now apply call_names_not_rparen
      | now apply no_call_name ].
  change (")"%char :: post) with ([")"%char] ++ post).
  rewrite (sub_go_lit name r tp [")"%char]) by lit_side Hr Hn.
  reflexivity.
Qed.

(** What follows the first closing parenthesis of [arg)]. *)
Lemma rest_of_argument (arg g1 t2 : text) :
  arg ++ [")"%char] = g1 ++ ")"%char :: t2 ->
  t2 = [] \/ exists a1 t2', arg = a1 ++ t2' /\ t2 = t2' ++ [")"%char].
Proof.
  intros E. destruct t2 as [|c t2]; [now left | right].
  destruct (exists_last (l:=c :: t2) ltac:(discriminate)) as (t2' & z & Et).
  rewrite Et in E |- *.
  change (g1 ++ ")"%char :: t2' ++ [z])
    with (g1 ++ (")"%char :: t2') ++ [z]) in E.
  rewrite app_assoc in E. apply app_inj_tail in E as [-> <-].
  exists (g1 ++ [")"%char]), t2'. rewrite <- app_assoc. auto.
Qed.

Lemma call_rule_carries_free_call (name : text) (tail : regex)
  (pfx arg s : text) :
  In name call_names ->
  (forall s0 pos0 st0 res,
      mt tail s0 pos0 st0 = Some res -> res = (s0, st0)) ->
  no_call arg = true ->
  contains (free_of_arg arg) s = true ->
  contains (free_of_arg arg)
    (re_sub (call_re name tail) [TLit pfx; TGrp 1; TLit (T ")")] s) = true.
Proof.
  intros Hn Htail Ha.
  assert (Hr : call_rule name (call_re name tail))
    by (unfold call_rule, call_re, ws; eexists; reflexivity).
  assert (Hrp : has_rparen (arg ++ [")"%char]) = true).
  { rewrite has_rparen_app. cbn. apply orb_true_r. }
  destruct (cut_rparen_spec _ Hrp) as [Ecut Hg1].
  destruct (cut_rparen (arg ++ [")"%char])) as [g1 t2]. cbn [fst snd] in *.
  assert (Et : free_of_arg arg
               = ("f"%char :: T "ree(" ++ g1) ++ ")"%char :: t2).
  { rewrite free_call_parts. cbn [app T list_ascii_of_string].
    now rewrite Ecut. }
  rewrite Et.
  apply re_sub_call_carries; try exact Htail.
  - destruct Hn as [<-|[<-|[<-|[]]]]; discriminate.
  - destruct Hn as [<-|[<-|[<-|[]]]]; reflexivity.
  - reflexivity.
  - discriminate.
  - change ("f"%char :: T "ree(" ++ g1) with (T "free(" ++ g1).
    rewrite forallb_app, Hg1. reflexivity.
  - intros post. rewrite <- Et.
    now apply (rule_passes_free_call name).
  - intros post.
    destruct (rest_of_argument _ _ _ Ecut) as [->|(a1 & t2' & Ea & ->)];
      [reflexivity|].
    rewrite <- app_assoc. cbn [app].
    rewrite (sub_go_no_call name);
      [ | exact Hr | now apply call_names_not_rparen | ].
    + change (")"%char :: post) with ([")"%char] ++ post).
      rewrite (sub_go_lit name _ _ [")"%char]) by lit_side Hr Hn.
      now rewrite <- app_assoc.
    + apply (any_suffix_app_r _ a1). rewrite <- Ea.
      now apply no_call_name.
Qed.

(** The rules leave in the text every deallocation call in whose
    argument no call of [malloc], [calloc] or [strdup] begins. *)
Lemma rules_keep_free_call (arg s : text) :
  no_call arg = true ->
  contains (free_of_arg arg) s = true ->
  contains (free_of_arg arg) (apply_rules replacements s) = true.
Proof.
  intros Ha Hs.
  assert (Hstay : forall name r tp u,
             call_rule name r -> In name call_names ->
             apart r (free_of_arg arg) = true ->
             contains (free_of_arg arg) u = true ->
             contains (free_of_arg arg) (re_sub r tp u) = true).
  { intros name r tp u Hr Hn Hap Hu.
    apply re_sub_stays; [discriminate | | exact Hap | | | exact Hu].
    - destruct Hr as [r' ->]. rewrite head_lit_rule.
      destruct Hn as [<-|[<-|[<-|[]]]]; discriminate.
    - intros post. now apply (rule_passes_free_call name r tp).
    - intros post. now apply (rule_passes_free_call name r tp). }
  rewrite rules_split. unfold apply_rules.
  cbn [firstn replacements fold_left fst snd].
  rewrite strdup_call_call.
  apply call_rule_carries_free_call;
    [name_of | intros s0 pos0 st0 res; apply tail_done | exact Ha |].
  rewrite malloc_simple_call.
  apply call_rule_carries_free_call;
    [name_of | intros s0 pos0 st0 res; apply tail_not_ahead | exact Ha |].
  apply (Hstay (T "calloc")); [call_rule_of | name_of | by_computation |].
  apply (Hstay (T "calloc")); [call_rule_of | name_of | by_computation |].
  apply (Hstay (T "malloc")); [call_rule_of | name_of | by_computation |].
  apply (Hstay (T "malloc")); [call_rule_of | name_of | by_computation |].
  exact Hs.
Qed.

(** The include steps leave it in the text when its argument holds
    neither the anchor nor a stdlib.h line. *)
Lemma fix_includes_keeps_free_call (arg s : text) :
  free_of include_targets arg = true ->
  contains (free_of_arg arg) s = true ->
  contains (free_of_arg arg) (fix_includes s) = true.
Proof.
  intros Hi Hs. destruct (include_free arg Hi) as [Hia His].
  apply (fix_includes_keeps_site "f"%char (T "ree(" ++ arg ++ T ")"));
    [reflexivity | discriminate | by_computation | | | exact Hs].
  - intros post.
    apply (arg_site_quiet anchor (T "free(") arg post);
      [reflexivity | exact Hia | reflexivity | reflexivity].
  - intros post.
    apply (arg_site_quiet stdlib_line (T "free(") arg post);
      [reflexivity | exact His | reflexivity | reflexivity].
Qed.

Lemma span_spaces (s : text) :
  exists sp rest,
    s = sp ++ rest /\ forallb is_space sp = true
    /\ (rest = [] \/ exists x r', rest = x :: r' /\ is_space x = false).
Proof.
  induction s as [|c s (sp & rest & -> & Hsp & Hr)].
  - exists [], []. auto.
  - destruct (is_space c) eqn:Hc.
    + exists (c :: sp), rest. cbn. rewrite Hc, Hsp. auto.
    + exists [], (c :: sp ++ rest). repeat split.
      right. eexists _, _. split; [reflexivity | exact Hc].
Qed.

(** The free pattern matches a call whose argument is not empty and
    holds no closing parenthesis, up to its closing parenthesis. *)
Lemma free_pattern_matches_call (arg post : text) :
  arg <> [] -> forallb not_rparen arg = true ->
  exists st,
    match_at free_pattern (free_of_arg arg ++ post) = Some (post, st).
Proof.
  intros Hne Hr.
  destruct (span_spaces arg) as (sp & rest & E & Hsp & Hrest).
  assert (Hwalk : forall s st res,
             mt (ws (Open 1 (Plus not_rparen (Close 1 (ws (Chr ")"%char
                   Done)))))) (s ++ ")"%char :: post) 5 no_caps
             = Some (post, st) ->
             s = arg -> res = st ->
             match_at free_pattern (free_of_arg arg ++ post)
             = Some (post, res)).
  { intros s st res H -> ->. unfold free_of_arg. rewrite <- !app_assoc.
    unfold match_at, free_pattern, pat, group_of. cbn [fold_right].
    change (T "free(" ++ ?s) with (T "free" ++ "("%char :: s).
    change (T ")" ++ post) with (")"%char :: post).
    rewrite mt_lit_app, mt_ws_stop, mt_chr by reflexivity.
    exact H. }
  destruct Hrest as [->|(x & r' & -> & Hx)].
  - (* an argument of white space: the last of it is the argument *)
    rewrite app_nil_r in E. subst sp.
    destruct (exists_last Hne) as (sp' & y & ->).
    rewrite forallb_app in Hsp. apply andb_prop in Hsp as [Hsp' Hy].
    cbn [forallb] in Hy. apply andb_prop in Hy as [Hy _].
    eexists. eapply Hwalk; [|reflexivity|reflexivity].
    rewrite <- app_assoc. cbn [app]. unfold ws. cbn [mt].
    apply greedy_run; [exact Hsp'|].
    cbn [greedy]. rewrite Hy.
    change (is_space ")"%char) with false. cbn iota.
    change (not_rparen ")"%char) with false. cbn iota.
    rewrite (is_space_not_rparen y Hy).
    change (is_space ")"%char) with false. cbn iota.
    rewrite Ascii.eqb_refl. reflexivity.
  - subst arg. rewrite forallb_app in Hr. apply andb_prop in Hr as [_ Hr].
    eexists. eapply Hwalk; [|reflexivity|reflexivity].
    rewrite <- app_assoc. cbn [app].
    apply mt_ws_run; [exact Hsp | exact Hx |].
    rewrite mt_open. change (x :: r' ++ ?s) with ((x :: r') ++ s).
    apply mt_plus_run; [discriminate | exact Hr | reflexivity |].
    rewrite mt_close, mt_ws_stop, mt_chr by reflexivity.
    reflexivity.
Qed.

Lemma finditer_go_nomatch (r : regex) (pos : nat) (c : ascii) (s : text) :
  match_at r (c :: s) = None ->
  finditer_go r 0 pos (c :: s) = finditer_go r 0 (S pos) s.
Proof. intros H. cbn [finditer_go]. now rewrite H. Qed.

(** The head of a [free] call that begins before a deallocation call
    does not reach into it. *)
Lemma free_head_misses (pre u t2p w1 w2 l z : text) :
  pre <> [] ->
  forallb is_space w1 = true -> forallb is_space w2 = true ->
  l <> [] -> T "free" ++ w1 ++ "("%char :: w2 = pre ++ l ->
  l ++ z = ("f"%char :: u) ++ ")"%char :: t2p -> False.
Proof.
  intros Hpre Hw1 Hw2 Hl E1 E2.
  destruct l as [|x l]; [congruence|].
  simpl in E2. injection E2 as -> _.
  assert (Hout : ~ In "f"%char (w1 ++ "("%char :: w2)).
  { intros Hin. apply in_app_or in Hin as [Hin|[Hin|Hin]].
    - apply (spaces_In _ _ Hw1) in Hin. discriminate.
    - discriminate.
    - apply (spaces_In _ _ Hw2) in Hin. discriminate. }
  apply app_eq_app in E1 as [l2 [[E3 E4]|[E3 E4]]].
  - destruct l2 as [|y l2].
    + cbn [app] in E4. apply Hout. rewrite <- E4. now left.
    + simpl in E4. injection E4 as <- _.
      destruct pre as [|a [|b [|c [|d [|e pre]]]]];
        try congruence; discriminate.
  - apply Hout. rewrite E4. apply in_or_app. right. now left.
Qed.

(** Every deallocation call in a text is found by the free pattern: as
    a match of its own or, inside the argument of another [free(], at
    the end of that match. *)
Lemma finditer_covers_free_call (arg post : text) :
  arg <> [] -> forallb not_rparen arg = true ->
  forall n pre pos, length pre <= n ->
  exists p0 l,
    pre = p0 ++ l
    /\ In (pos + length p0, l ++ free_of_arg arg)
         (finditer_go free_pattern 0 pos (pre ++ free_of_arg arg ++ post))
    /\ (l = [] \/ starts_with (T "free") l = true).
Proof.
  intros Hne Hr.
  destruct (free_pattern_matches_call arg post Hne Hr) as [st0 Hm].
  induction n as [|n IH]; intros pre pos Hlen.
  - destruct pre; [|simpl in Hlen; lia].
    exists [], []. cbn [app length]. rewrite Nat.add_0_r.
    split; [reflexivity|]. split; [|now left].
    rewrite (finditer_go_match _ _ _ _ st0); [now left | discriminate|].
    exact Hm.
  - destruct pre as [|c pre].
    { apply IH. simpl. lia. }
    destruct (match_at free_pattern ((c :: pre) ++ free_of_arg arg ++ post))
      as [[rest st]|] eqn:E.
    + pose proof E as E'. rewrite free_pattern_call in E'.
      unfold free_of_arg in E'. rewrite <- !app_assoc in E'.
      destruct (call_match_cases (T "free") Done (c :: pre)
                  ("f"%char :: T "ree(" ++ arg) post rest st)
        as [(x & pre2 & Ex & Hl2 & Erest)
           |(w1 & w2 & l & Ep & _ & _ & _ & _ & Erest)].
      * apply tail_done.
      * discriminate.
      * change ("f"%char :: T "ree(" ++ arg) with (T "free(" ++ arg).
        rewrite forallb_app, Hr. reflexivity.
      * intros w1 w2 l z Hw1 Hw2 Hl E1 E2.
        apply (free_head_misses (c :: pre) (T "ree(" ++ arg) post w1 w2 l z);
          auto. discriminate.
      * exact E'.
      * assert (Hx : x <> []).
        { intros ->. cbn [app] in Ex. rewrite <- Ex in Hl2. lia. }
        assert (Et : rest = pre2 ++ free_of_arg arg ++ post).
        { rewrite Erest. unfold free_of_arg. now rewrite <- !app_assoc. }
        rewrite Ex, <- app_assoc, <- Et in E |- *.
        rewrite (finditer_go_match _ _ _ _ st Hx E).
        destruct (IH pre2 (pos + length x)) as (p0 & l & Ep & Hin & Hl).
        { cbn [length] in Hlen, Hl2. lia. }
        exists (x ++ p0), l. rewrite Ep, <- app_assoc.
        split; [reflexivity|]. split; [|exact Hl].
        right. rewrite length_app, Nat.add_assoc. rewrite Et.
        exact Hin.
      * exists [], (c :: pre). cbn [length]. rewrite Nat.add_0_r.
        split; [reflexivity|]. split.
        -- assert (Em : (c :: pre) ++ free_of_arg arg ++ post
                        = ((c :: pre) ++ free_of_arg arg) ++ rest)
             by (rewrite Erest; now rewrite <- app_assoc).
           rewrite Em in E |- *.
           rewrite (finditer_go_match _ _ _ _ st); [now left | | exact E].
           discriminate.
        -- right. rewrite Ep, <- app_assoc. apply starts_with_app.
    + cbn [app] in E |- *. rewrite (finditer_go_nomatch _ _ _ _ E).
      destruct (IH pre (S pos)) as (p0 & l & Ep & Hin & Hl).
      { simpl in Hlen. lia. }
      exists (c :: p0), l. rewrite Ep. split; [reflexivity|].
      split; [|exact Hl].
      cbn [length]. rewrite Nat.add_succ_r. rewrite Ep in Hin. exact Hin.
Qed.

(** The report of a text lists every deallocation call of the text:
    the call itself or, for a call inside the argument of another
    [free(], the match that ends with it; the line is the one on which
    the reported text begins. *)
Lemma report_covers_free_call (arg pre post : text) :
  arg <> [] -> forallb not_rparen arg = true ->
  exists before l,
    pre = before ++ l
    /\ In (count_nl before + 1, l ++ free_of_arg arg)
         (report free_pattern (pre ++ free_of_arg arg ++ post))
    /\ (l = [] \/ starts_with (T "free") l = true).
Proof.
  intros Hne Hr.
  destruct (finditer_covers_free_call arg post Hne Hr (length pre) pre 0
              (Nat.le_refl _)) as (p0 & l & Ep & Hin & Hl).
  exists p0, l. split; [exact Ep|]. split; [|exact Hl].
  unfold report, finditer.
  apply (in_map (report_line (pre ++ free_of_arg arg ++ post))) in Hin.
  unfold report_line in Hin at 1. cbn [fst snd Nat.add] in Hin.
  rewrite Ep, <- app_assoc, count_nl_prefix in Hin.
  rewrite Ep, <- app_assoc. exact Hin.
Qed.

(** Every match of the free pattern begins with [free], white space and
    an opening parenthesis. *)
Lemma free_match_calls (s : text) :
  match_at free_pattern s <> None ->
  exists w1 z, s = (T "free" ++ w1 ++ ["("%char]) ++ z
               /\ forallb is_space w1 = true.
Proof.
  intros H. destruct (match_at free_pattern s) as [res|] eqn:E;
    [clear H | congruence].
  unfold match_at, free_pattern, pat, ws in E. cbn [fold_right] in E.
  apply mt_lit in E as (s1 & -> & E). cbn [mt] in E.
  apply greedy_inv in E as (w1 & s2 & -> & Hw1 & E).
  destruct s2 as [|x s2]; [discriminate|].
  destruct (Ascii.eqb_spec x "("%char) as [->|]; [|discriminate].
  exists w1, s2. split; [|exact Hw1].
  rewrite <- !app_assoc. reflexivity.
Qed.

Lemma calls_head (name w1 z : text) :
  forallb is_space w1 = true ->
  calls name ((name ++ w1 ++ ["("%char]) ++ z) = true.
Proof.
  intros Hw1. unfold calls.
  rewrite <- !app_assoc, starts_with_app.
  rewrite skipn_app, skipn_all, Nat.sub_diag. cbn [skipn app].
  now rewrite drop_spaces_run by (exact Hw1 || reflexivity).
Qed.

Lemma finditer_go_none (r : regex) (pos : nat) (s : text) :
  (forall a1 a2, s = a1 ++ a2 -> a2 <> [] -> match_at r a2 = None) ->
  finditer_go r 0 pos s = [].
Proof.
  intros H.
  assert (E : finditer_go r 0 pos (s ++ [])
              = finditer_go r 0 (pos + length s) []).
  { apply finditer_go_silent. intros a1 a2 Ea Hne.
    rewrite app_nil_r. now apply (H a1). }
  rewrite app_nil_r in E. now rewrite E.
Qed.

(** When no other call of [free] begins in the text, the report is that
    one call. *)
Lemma report_single_free_call (arg before rest : text) :
  arg <> [] -> forallb not_rparen arg = true ->
  any_suffix (calls (T "free")) before = false ->
  any_suffix (calls (T "free")) rest = false ->
  report free_pattern (before ++ free_of_arg arg ++ rest)
  = [(count_nl before + 1, free_of_arg arg)].
Proof.
  intros Hne Hr H1 H2.
  destruct (free_pattern_matches_call arg rest Hne Hr) as [st Hm].
  unfold report, finditer.
  rewrite finditer_go_silent.
  - rewrite (finditer_go_match _ _ _ _ st); [ | discriminate | exact Hm].
    rewrite (finditer_go_none free_pattern _ rest).
    + cbn [map Nat.add]. unfold report_line. cbn [fst snd].
      now rewrite count_nl_prefix.
    + intros a1 a2 -> Hne2.
      destruct (match_at free_pattern a2) as [res|] eqn:E; [exfalso|easy].
      destruct (free_match_calls a2) as (w1 & z & Ea & Hw1); [congruence|].
      apply any_suffix_app_r, any_suffix_head in H2.
      rewrite Ea, calls_head in H2 by exact Hw1. discriminate.
  - intros a1 a2 -> Hne2.
    destruct (match_at free_pattern (a2 ++ free_of_arg arg ++ rest))
      as [res|] eqn:E; [exfalso|easy].
    destruct (free_match_calls (a2 ++ free_of_arg arg ++ rest))
      as (w1 & z & Ea & Hw1); [congruence|].
    apply any_suffix_app_r, any_suffix_head in H1.
    apply app_eq_app in Ea as [l [[E3 E4]|[E3 E4]]].
    + rewrite E3, calls_head in H1 by exact Hw1. discriminate.
    + destruct l as [|y l].
      * rewrite app_nil_r in E3. rewrite <- E3 in H1.
        rewrite <- (app_nil_r (T "free" ++ w1 ++ ["("%char])) in H1.
        rewrite calls_head in H1 by exact Hw1. discriminate.
      * apply (free_head_misses a2 (T "ree(" ++ arg) rest w1 [] (y :: l) z);
          [exact Hne2 | exact Hw1 | reflexivity | discriminate | exact E3 |].
        rewrite <- E4. unfold free_of_arg. now rewrite <- !app_assoc.
Qed.

(** ** Patterns that end with a closing parenthesis *)

Lemma M_silent (r : regex) (s rest : text) :
  M r s rest -> silent r = true -> s = rest.
Proof. induction 1; simpl; intros Hs; try discriminate; auto. Qed.

Lemma M_ends_rparen (r : regex) (s rest : text) :
  M r s rest -> ends_rparen r = true ->
  exists m, s = m ++ ")"%char :: rest.
Proof.
  induction 1 as [s| c r s rest HM IH | p r s rest _ IH
                 | p r x s rest _ _ IH | p r x s rest _ _ IH
                 | c r s rest _ IH | c r s rest _ IH
                 | n r s rest _ IH | n r s rest _ IH
                 | q r s rest _ IH]; cbn [ends_rparen]; intros He;
    try discriminate; auto.
  - destruct (silent r) eqn:Hs.
    + apply (M_silent _ _ _ HM) in Hs as ->.
      apply Ascii.eqb_eq in He as ->. now exists [].
    + destruct (IH He) as [m ->]. now exists (c :: m).
  - destruct (IH He) as [m ->]. now exists (x :: m).
  - destruct (IH He) as [m ->]. now exists (x :: m).
  - destruct (IH He) as [m ->]. now exists (c :: m).
Qed.

(** ** Scanning the text before a call site

    When every match that begins in [a] ends in [a], the substitution
    works on [a] and on what follows it apart; with a pattern and a
    template that end with a closing parenthesis, the text after the
    last closing parenthesis of [a] stays as it is. *)
Lemma sub_go_scan (r : regex) (tp : template) (u : text) :
  ends_rparen r = true ->
  (forall st, exists e, expand tp st = e ++ [")"%char]) ->
  forall n a, length a <= n ->
  (forall a1 a2 rest st, a = a1 ++ a2 -> a2 <> [] ->
     match_at r (a2 ++ u) = Some (rest, st) ->
     exists m a3, a2 = m ++ a3 /\ rest = a3 ++ u) ->
  exists a',
    sub_go r tp 0 (a ++ u) = a' ++ sub_go r tp 0 u
    /\ forall x, open_tail (x ++ a') = open_tail (x ++ a).
Proof.
  intros Hr Htp. induction n as [|n IH]; intros a Hlen E.
  - destruct a; [|simpl in Hlen; lia]. now exists [].
  - destruct a as [|c a]; [now exists []|].
    destruct (match_at r ((c :: a) ++ u)) as [[rest st]|] eqn:Em.
    + destruct (E [] (c :: a) rest st eq_refl ltac:(discriminate) Em)
        as (m & a3 & Ea & ->).
      pose proof (mt_M _ _ _ _ _ Em) as HM. cbn [fst] in HM.
      destruct (M_ends_rparen _ _ _ HM Hr) as [m' Em'].
      rewrite Ea, <- app_assoc in Em'.
      assert (m = m' ++ [")"%char]) as ->.
      { change (m' ++ ")"%char :: a3 ++ u)
          with (m' ++ [")"%char] ++ a3 ++ u) in Em'.
        rewrite (app_assoc m') in Em'. now apply app_inv_tail in Em'. }
      destruct (IH a3) as (a' & Es & Ht).
      { apply (f_equal (@length ascii)) in Ea.
        rewrite !length_app in Ea. cbn [length] in *. lia. }
      { intros a1 a2 rest st' -> Hne.
        apply (E ((m' ++ [")"%char]) ++ a1)); [|exact Hne].
        rewrite Ea. apply app_assoc. }
      destruct (Htp st) as [e He].
      exists (expand tp st ++ a'). split.
      * rewrite (sub_go_match _ _ _ _ _ Em).
        -- now rewrite Es, <- app_assoc.
        -- apply (f_equal (@length ascii)) in Ea.
           rewrite !length_app in *. cbn [length] in *. lia.
      * intros x. rewrite Ea, He, <- !app_assoc. cbn [app].
        rewrite (app_assoc x e), (app_assoc x m'), !open_tail_closed.
        apply (Ht []).
    + cbn [app] in Em |- *. rewrite (sub_go_nomatch _ _ _ _ Em).
      destruct (IH a) as (a' & Es & Ht).
      { simpl in Hlen. lia. }
      { intros a1 a2 rest st -> Hne. now apply (E (c :: a1)). }
      exists (c :: a'). split; [now rewrite Es|].
      intros x.
      change (x ++ c :: a') with (x ++ [c] ++ a').
      change (x ++ c :: a) with (x ++ [c] ++ a).
      rewrite !app_assoc. apply Ht.
Qed.

Lemma templates_end_rparen (tp : template) :
  In tp (map snd replacements) ->
  forall st, exists e, expand tp st = e ++ [")"%char].
Proof.
  intros H st. cbn in H.
  destruct H as [<-|[<-|[<-|[<-|[<-|[<-|[]]]]]]];
    unfold expand; cbn [map concat mem_new mem_new_array mem_alloc mem_strdup];
    rewrite app_nil_r, ?app_assoc; eexists; reflexivity.
Qed.

Lemma templates_begin (tp : template) :
  In tp (map snd replacements) ->
  forall st, exists e, expand tp st = "M"%char :: e.
Proof.
  intros H st. cbn in H.
  destruct H as [<-|[<-|[<-|[<-|[<-|[<-|[]]]]]]];
    eexists; reflexivity.
Qed.

(** One rule on a text [a t b] in which no match that begins in [a]
    reaches the text [t] and none begins in [t]. *)
Lemma rule_step (r : regex) (tp : template) (a t b : text) :
  head_lit r <> [] -> ends_rparen r = true ->
  (forall st, exists e, expand tp st = e ++ [")"%char]) ->
  t <> [] -> apart r t = true ->
  sub_go r tp 0 (t ++ b) = t ++ sub_go r tp 0 b ->
  exists a',
    re_sub r tp (a ++ t ++ b) = a' ++ t ++ sub_go r tp 0 b
    /\ open_tail a' = open_tail a.
Proof.
  intros Hh Hr Htp Ht Ha Hpass.
  destruct (sub_go_scan r tp (t ++ b) Hr Htp (length a) a (Nat.le_refl _))
    as (a' & Es & Hta).
  - intros a1 a2 rest st _ Hne Em.
    destruct r; simpl in Hh; try congruence.
    destruct (apart_match _ _ t a2 b rest st Ht Hne Ha Em)
      as (x & pre2 & Ex & ->).
    now exists x, pre2.
  - exists a'. split; [|apply (Hta [])].
    unfold re_sub. now rewrite Es, Hpass.
Qed.

(** ** The multiply-sizeof suffix *)

Lemma class_not_mem (p : ascii -> bool) (c : ascii) (w : text) :
  forallb p w = true -> p c = false -> mem c w = false.
Proof.
  intros Hw Hc. unfold mem. induction w as [|x w IH]; [reflexivity|].
  simpl in Hw |- *. apply andb_prop in Hw as [Hx Hw].
  rewrite (IH Hw), orb_false_r.
  destruct (Ascii.eqb_spec c x) as [->|]; [congruence | reflexivity].
Qed.

(** What the look-ahead of the generic rule reads. *)
Lemma sizeof_suffix_reads (b : text) :
  match_at sizeof_suffix b <> None ->
  exists sp1 sp2 z,
    b = (sp1 ++ "*"%char :: sp2 ++ T "sizeof") ++ z
    /\ forallb is_space sp1 = true /\ forallb is_space sp2 = true.
Proof.
  intros H. destruct (match_at sizeof_suffix b) as [res|] eqn:E;
    [clear H | congruence].
  unfold match_at, sizeof_suffix, pat, ws in E. cbn [fold_right mt] in E.
  apply greedy_inv in E as (sp1 & s1 & -> & H1 & E).
  destruct s1 as [|x s1]; [discriminate|].
  destruct (Ascii.eqb_spec x "*"%char) as [->|]; [|discriminate].
  apply greedy_inv in E as (sp2 & s2 & -> & H2 & E).
  apply (mt_lit (T "sizeof") Done) in E as (z & -> & _).
  exists sp1, sp2, z. rewrite <- !app_assoc. cbn [app].
  now rewrite <- !app_assoc.
Qed.

Lemma sizeof_suffix_read (sp1 sp2 z : text) :
  forallb is_space sp1 = true -> forallb is_space sp2 = true ->
  match_at sizeof_suffix ((sp1 ++ "*"%char :: sp2 ++ T "sizeof") ++ z)
  <> None.
Proof.
  intros H1 H2. rewrite <- !app_assoc. cbn [app]. rewrite <- !app_assoc.
  unfold match_at, sizeof_suffix, pat. cbn [fold_right].
  erewrite mt_ws_run; [discriminate | exact H1 | reflexivity |].
  rewrite mt_chr.
  change (T "sizeof" ++ z) with ("s"%char :: T "izeof" ++ z).
  erewrite mt_ws_run; [reflexivity | exact H2 | reflexivity |].
  change ("s"%char :: T "izeof" ++ z) with (T "sizeof" ++ z).
  rewrite mt_lit_app. reflexivity.
Qed.

Lemma starts_with_app_l (w a b : text) :
  starts_with w a = true -> starts_with w (a ++ b) = true.
Proof.
  revert a; induction w as [|c w IH]; intros a; [reflexivity|].
  destruct a as [|x a]; simpl; [discriminate|].
  intros H. apply andb_prop in H as [-> H]. simpl. auto.
Qed.

(** A substitution whose template begins with [M] writes nothing
    into a beginning of the text that holds no [M]. *)
Lemma sub_go_prefix (r : regex) (tp : template) :
  (forall st, exists e, expand tp st = "M"%char :: e) ->
  forall w b, mem "M"%char w = false ->
  starts_with w (sub_go r tp 0 b) = true -> starts_with w b = true.
Proof.
  intros Htp. induction w as [|c w IH]; intros b Hw; [reflexivity|].
  unfold mem in Hw. cbn [existsb] in Hw.
  apply orb_false_elim in Hw as [Hc Hw].
  destruct b as [|x b]; [discriminate|].
  destruct (match_at r (x :: b)) as [[rest st]|] eqn:Em.
  - cbn [sub_go]. rewrite Em. destruct (Htp st) as [e ->].
    cbn [app starts_with]. rewrite Hc. discriminate.
  - rewrite (sub_go_nomatch _ _ _ _ Em). simpl.
    intros H. apply andb_prop in H as [-> H]. simpl. auto.
Qed.

(** So a rule of the rewriter does not bring about a multiply-sizeof
    suffix at the beginning of a text. *)
Lemma lookahead_kept (r : regex) (tp : template) (b : text) :
  (forall st, exists e, expand tp st = "M"%char :: e) ->
  match_at sizeof_suffix b = None ->
  match_at sizeof_suffix (sub_go r tp 0 b) = None.
Proof.
  intros Htp Hb.
  destruct (match_at sizeof_suffix (sub_go r tp 0 b)) as [res|] eqn:E;
    [exfalso | reflexivity].
  destruct (sizeof_suffix_reads (sub_go r tp 0 b)) as
    (sp1 & sp2 & z & Ez & H1 & H2); [congruence|].
  assert (Hs : starts_with (sp1 ++ "*"%char :: sp2 ++ T "sizeof") b = true).
  { apply (sub_go_prefix r tp Htp).
    - change (sp1 ++ "*"%char :: sp2 ++ T "sizeof")
        with (sp1 ++ T "*" ++ sp2 ++ T "sizeof").
      rewrite !mem_app.
      rewrite (class_not_mem is_space "M"%char sp1 H1 eq_refl).
      rewrite (class_not_mem is_space "M"%char sp2 H2 eq_refl).
      reflexivity.
    - rewrite Ez. apply starts_with_app. }
  apply starts_with_split in Hs.
  apply (sizeof_suffix_read sp1 sp2
           (skipn (length (sp1 ++ "*"%char :: sp2 ++ T "sizeof")) b) H1 H2).
  now rewrite <- Hs.
Qed.

(** ** The include steps around a call site *)

Lemma no_overhang_short (l a2 u : text) :
  no_overhang l u = true -> a2 <> [] -> length a2 < length l ->
  starts_with l (a2 ++ u) = false.
Proof.
  intros Ho Hne Hlen.
  destruct (starts_with l (a2 ++ u)) eqn:E; [exfalso | reflexivity].
  destruct (starts_with_overhang _ _ _ E Hlen) as (l2 & -> & Hl2 & Hs).
  unfold no_overhang in Ho. rewrite forallb_forall in Ho.
  specialize (Ho l2 (proper_suffixes_In a2 l2 Hne Hl2)).
  rewrite <- (app_nil_r u) in Hs.
  rewrite (compat_starts_with _ _ _ Hs) in Ho. discriminate.
Qed.

Lemma starts_with_cut (l a u : text) :
  no_overhang l u = true -> a <> [] ->
  starts_with l (a ++ u) = starts_with l a.
Proof.
  intros Ho Hne.
  destruct (Nat.le_gt_cases (length l) (length a)) as [Hle|Hgt].
  - now apply starts_with_long.
  - rewrite (no_overhang_short l a u Ho Hne Hgt).
    symmetry. now apply starts_with_short.
Qed.

(** Replacing the occurrences of [old] works on [a] and on [u] apart
    when no occurrence can begin in [a] and end in [u]. *)
Lemma replace_go_app (old new u : text) :
  old <> [] -> no_overhang old u = true ->
  forall n a lim, length a <= n ->
  exists lim',
    replace_go old new lim 0 (a ++ u)
    = replace_go old new lim 0 a ++ replace_go old new lim' 0 u.
Proof.
  intros Hold Ho. induction n as [|n IH]; intros a lim Hlen.
  - destruct a; [|simpl in Hlen; lia]. now exists lim.
  - destruct a as [|c a]; [now exists lim|].
    cbn [app replace_go].
    change (c :: a ++ u) with ((c :: a) ++ u).
    rewrite (starts_with_cut old (c :: a) u Ho) by discriminate.
    destruct ((match lim with Some 0 => false | _ => true end)
              && starts_with old (c :: a)) eqn:Hit.
    + apply andb_prop in Hit as [_ Hs].
      apply starts_with_split in Hs.
      destruct old as [|o old']; [congruence|].
      cbn [app length Nat.pred] in Hs |- *. injection Hs as _ Ea.
      rewrite Ea, <- app_assoc, !replace_go_skip.
      destruct (IH (skipn (length old') a) (option_map Nat.pred lim))
        as [lim' E].
      { rewrite length_skipn. simpl in Hlen. lia. }
      exists lim'. now rewrite E, <- app_assoc.
    + destruct (IH a lim) as [lim' E]; [simpl in Hlen; lia|].
      exists lim'. now rewrite E.
Qed.

Lemma match_stdlib_line (s : text) :
  match_at stdlib_pattern s
  = if starts_with stdlib_line s
    then Some (skipn (length stdlib_line) s, no_caps) else None.
Proof.
  destruct (starts_with stdlib_line s) eqn:E.
  - apply starts_with_split in E. rewrite E at 1.
    unfold match_at, stdlib_pattern, pat, stdlib_line. cbn [fold_right].
    rewrite <- app_assoc, mt_lit_app. cbn [app]. now rewrite mt_chr.
  - apply mt_head_lit. now rewrite head_lit_stdlib.
Qed.

(** Removing the stdlib.h lines works on [a] and on [u] apart when no
    such line can begin in [a] and end in [u]. *)
Lemma without_stdlib_app (u : text) :
  no_overhang stdlib_line u = true ->
  forall n a, length a <= n ->
  without_stdlib (a ++ u) = without_stdlib a ++ without_stdlib u.
Proof.
  intros Ho. unfold without_stdlib, re_sub.
  induction n as [|n IH]; intros a Hlen.
  - destruct a; [reflexivity | simpl in Hlen; lia].
  - destruct a as [|c a]; [reflexivity|].
    destruct (starts_with stdlib_line (c :: a)) eqn:Hs.
    + pose proof (starts_with_split _ _ Hs) as Ea.
      set (a3 := skipn (length stdlib_line) (c :: a)) in *.
      assert (Hl3 : length a3 <= n).
      { apply (f_equal (@length ascii)) in Ea.
        rewrite length_app in Ea. cbn [length] in *. simpl in Ea. lia. }
      rewrite Ea, <- app_assoc.
      rewrite (sub_go_head_matches stdlib_pattern [] stdlib_line
                 (a3 ++ u) [] no_caps);
        [ | discriminate | | reflexivity ].
      * rewrite (sub_go_head_matches stdlib_pattern [] stdlib_line
                   a3 [] no_caps);
          [ | discriminate | | reflexivity ].
        -- cbn [app]. now apply IH.
        -- rewrite match_stdlib_line, starts_with_app.
           now rewrite skipn_app, skipn_all, Nat.sub_diag.
      * rewrite match_stdlib_line, starts_with_app.
        now rewrite skipn_app, skipn_all, Nat.sub_diag.
    + assert (Hm : match_at stdlib_pattern ((c :: a) ++ u) = None).
      { rewrite match_stdlib_line, (starts_with_cut _ _ _ Ho), Hs;
          [reflexivity | discriminate]. }
      assert (Hm' : match_at stdlib_pattern (c :: a) = None)
        by now rewrite match_stdlib_line, Hs.
      cbn [app] in Hm |- *.
      rewrite (sub_go_nomatch _ _ _ _ Hm), (sub_go_nomatch _ _ _ _ Hm').
      cbn [app]. f_equal. apply IH. simpl in Hlen. lia.
Qed.

(** The include steps on a text [pre t post] whose middle holds neither
    the anchor nor a stdlib.h line: they work on the three parts. *)
Lemma fix_includes_around (pre t post : text) :
  (forall x, no_overhang anchor (t ++ x) = true) ->
  (forall x, no_overhang stdlib_line (t ++ x) = true) ->
  (forall x, quiet anchor t x) -> (forall x, quiet stdlib_line t x) ->
  exists lim,
    fix_includes (pre ++ t ++ post)
    = fix_includes pre ++ t
      ++ without_stdlib
           (replace_go anchor (anchor ++ [nl] ++ includes) lim 0 post).
Proof.
  intros Hoa Hos Hqa Hqs. unfold fix_includes, py_replace_n.
  destruct (replace_go_app anchor (anchor ++ [nl] ++ includes) (t ++ post)
              ltac:(discriminate) (Hoa post) (length pre) pre (Some 1)
              (Nat.le_refl _)) as [lim E].
  exists lim. rewrite E, (replace_go_quiet _ _ _ _ _ (Hqa _)).
  fold (without_stdlib
          (replace_go anchor (anchor ++ [nl] ++ includes) (Some 1) 0 pre
           ++ t ++ replace_go anchor (anchor ++ [nl] ++ includes) lim 0 post)).
  rewrite (without_stdlib_app _ (Hos _) _ _ (Nat.le_refl _)).
  f_equal. unfold without_stdlib, re_sub.
  apply sub_go_quiet. rewrite head_lit_stdlib. apply Hqs.
Qed.

Lemma replace_go_prefix (w : text) :
  forall b lim, mem "#"%char w = false ->
  starts_with w (replace_go anchor (anchor ++ [nl] ++ includes) lim 0 b)
  = true ->
  starts_with w b = true.
Proof.
  induction w as [|c w IH]; intros b lim' Hw; [reflexivity|].
  unfold mem in Hw. cbn [existsb] in Hw.
  apply orb_false_elim in Hw as [Hc Hw].
  destruct b as [|x b]; [discriminate|].
  cbn [replace_go].
  destruct ((match lim' with Some 0 => false | _ => true end)
            && starts_with anchor (x :: b)).
  - change (anchor ++ [nl] ++ includes)
      with ("#"%char :: tl anchor ++ [nl] ++ includes).
    cbn [app starts_with]. rewrite Hc. discriminate.
  - simpl. intros H. apply andb_prop in H as [-> H]. simpl.
    now apply (IH b lim').
Qed.

Lemma starts_with_same (c : ascii) (p s : text) :
  starts_with (c :: p) (c :: s) = starts_with p s.
Proof. simpl. now rewrite Ascii.eqb_refl. Qed.

Lemma without_stdlib_cons (x : ascii) (s : text) :
  starts_with stdlib_line (x :: s) = false ->
  without_stdlib (x :: s) = x :: without_stdlib s.
Proof.
  intros H. unfold without_stdlib, re_sub. apply sub_go_nomatch.
  now rewrite match_stdlib_line, H.
Qed.

Lemma without_stdlib_line (s : text) :
  without_stdlib (stdlib_line ++ s) = without_stdlib s.
Proof.
  unfold without_stdlib, re_sub.
  rewrite (sub_go_head_matches stdlib_pattern [] stdlib_line s [] no_caps);
    [reflexivity | discriminate | | reflexivity].
  rewrite match_stdlib_line, starts_with_app.
  now rewrite skipn_app, skipn_all, Nat.sub_diag.
Qed.

(** The injected line does not change how the text without its
    stdlib.h lines begins, up to its first [#]. *)
Lemma include_steps_prefix :
  forall n post w lim, length post <= n -> mem "#"%char w = false ->
  starts_with w
    (without_stdlib
       (replace_go anchor (anchor ++ [nl] ++ includes) lim 0 post)) = true ->
  starts_with w (without_stdlib post) = true.
Proof.
  induction n as [|n IH]; intros post w lim Hlen Hw H.
  - destruct post; [exact H | simpl in Hlen; lia].
  - destruct w as [|c w]; [reflexivity|].
    destruct post as [|x p0]; [exact H|].
    pose proof Hw as Hw0. unfold mem in Hw. cbn [existsb] in Hw.
    apply orb_false_elim in Hw as [Hc Hw].
    destruct (starts_with stdlib_line (x :: p0)) eqn:Hs.
    + (* a stdlib.h line: it goes, with or without the injection *)
      pose proof (starts_with_split _ _ Hs) as Ep.
      set (z := skipn (length stdlib_line) (x :: p0)) in *.
      rewrite Ep in H |- *.
      rewrite (replace_go_quiet anchor _ lim stdlib_line z) in H
        by (apply quiet_clean; reflexivity).
      rewrite without_stdlib_line in H |- *.
      apply (IH z (c :: w) lim); [|exact Hw0 | exact H].
      apply (f_equal (@length ascii)) in Ep.
      rewrite length_app in Ep. cbn [length] in *. simpl in Ep. lia.
    + rewrite (without_stdlib_cons _ _ Hs).
      destruct (Ascii.eqb_spec x "#"%char) as [->|Hx].
      * (* another directive: the text begins with [#] *)
        exfalso. revert H. cbn [replace_go].
        destruct ((match lim with Some 0 => false | _ => true end)
                  && starts_with anchor ("#"%char :: p0)).
        -- change (anchor ++ [nl] ++ includes)
             with ("#"%char :: tl anchor ++ [nl] ++ includes).
           cbn [app]. rewrite without_stdlib_cons by reflexivity.
           cbn [starts_with]. rewrite Hc. discriminate.
        -- rewrite without_stdlib_cons.
           ++ cbn [starts_with]. rewrite Hc. discriminate.
           ++ destruct (starts_with stdlib_line
                          ("#"%char
                           :: replace_go anchor (anchor ++ [nl] ++ includes)
                                lim 0 p0)) eqn:F; [|reflexivity].
              change stdlib_line with ("#"%char :: tl stdlib_line) in F, Hs.
              rewrite starts_with_same in F, Hs.
              apply replace_go_prefix in F; [congruence | reflexivity].
      * revert H. cbn [replace_go].
        assert (Ha : starts_with anchor (x :: p0) = false).
        { change anchor with ("#"%char :: tl anchor). cbn [starts_with].
          destruct (Ascii.eqb_spec x "#"%char); [contradiction|reflexivity]. }
        rewrite Ha, andb_false_r.
        rewrite without_stdlib_cons.
        -- cbn [starts_with]. intros H. apply andb_prop in H as [-> H].
           cbn [andb]. apply (IH p0 w lim); [simpl in Hlen; lia| exact Hw |].
           exact H.
        -- change stdlib_line with ("#"%char :: tl stdlib_line).
           cbn [starts_with].
           destruct (Ascii.eqb_spec x "#"%char); [contradiction|reflexivity].
Qed.

(** So the include steps do not bring about a multiply-sizeof suffix at
    the beginning of a text that has none when its stdlib.h lines are
    removed. *)
Lemma lookahead_after_includes (post : text) (lim : option nat) :
  match_at sizeof_suffix (without_stdlib post) = None ->
  match_at sizeof_suffix
    (without_stdlib
       (replace_go anchor (anchor ++ [nl] ++ includes) lim 0 post)) = None.
Proof.
  intros Hb.
  match goal with
  | |- match_at sizeof_suffix ?y = None =>
      destruct (match_at sizeof_suffix y) as [res|] eqn:E;
        [exfalso | reflexivity];
      destruct (sizeof_suffix_reads y) as (sp1 & sp2 & z & Ez & H1 & H2);
        [congruence|]
  end.
  assert (Hs : starts_with (sp1 ++ "*"%char :: sp2 ++ T "sizeof")
                 (without_stdlib post) = true).
  { apply (include_steps_prefix (length post) post _ lim (Nat.le_refl _)).
    - change (sp1 ++ "*"%char :: sp2 ++ T "sizeof")
        with (sp1 ++ T "*" ++ sp2 ++ T "sizeof").
      rewrite !mem_app.
      rewrite (class_not_mem is_space "#"%char sp1 H1 eq_refl).
      rewrite (class_not_mem is_space "#"%char sp2 H2 eq_refl).
      reflexivity.
    - rewrite Ez. apply starts_with_app. }
  apply starts_with_split in Hs.
  apply (sizeof_suffix_read sp1 sp2
           (skipn (length (sp1 ++ "*"%char :: sp2 ++ T "sizeof"))
              (without_stdlib post)) H1 H2).
  now rewrite <- Hs.
Qed.

(** ** Generic allocation calls *)

Lemma not_rparen_has (x : text) :
  forallb not_rparen x = true -> has_rparen x = false.
Proof.
  unfold has_rparen, not_rparen. induction x as [|c x IH]; [reflexivity|].
  cbn [existsb forallb]. intros H. apply andb_prop in H as [Hc H].
  rewrite (IH H), Ascii.eqb_sym. apply negb_true_iff in Hc.
  now rewrite Hc.
Qed.

(** The head of a [malloc] call that begins before an allocation call
    does not reach into it. *)
Lemma malloc_head_misses (pre u t2p w1 w2 l z : text) :
  pre <> [] ->
  forallb is_space w1 = true -> forallb is_space w2 = true ->
  l <> [] -> T "malloc" ++ w1 ++ "("%char :: w2 = pre ++ l ->
  l ++ z = ("m"%char :: u) ++ ")"%char :: t2p -> False.
Proof.
  intros Hpre Hw1 Hw2 Hl E1 E2.
  destruct l as [|x l]; [congruence|].
  simpl in E2. injection E2 as -> _.
  assert (Hout : ~ In "m"%char (w1 ++ "("%char :: w2)).
  { intros Hin. apply in_app_or in Hin as [Hin|[Hin|Hin]].
    - apply (spaces_In _ _ Hw1) in Hin. discriminate.
    - discriminate.
    - apply (spaces_In _ _ Hw2) in Hin. discriminate. }
  apply app_eq_app in E1 as [l2 [[E3 E4]|[E3 E4]]].
  - destruct l2 as [|y l2].
    + cbn [app] in E4. apply Hout. rewrite <- E4. now left.
    + simpl in E4. injection E4 as <- _.
      destruct pre as [|a [|b [|c [|d [|e [|f [|g pre]]]]]]];
        try congruence; discriminate.
  - apply Hout. rewrite E4. apply in_or_app. right. now left.
Qed.

(** A match of the generic rule that begins before an allocation call
    ends before it, unless a [malloc(] is open there. *)
Lemma open_call_blocks (a arg b a1 a2 rest : text) (st : caps) :
  open_call (T "malloc") a = false ->
  forallb not_rparen arg = true ->
  a = a1 ++ a2 -> a2 <> [] ->
  match_at malloc_simple (a2 ++ arg_malloc arg ++ b) = Some (rest, st) ->
  exists m a3, a2 = m ++ a3 /\ rest = a3 ++ arg_malloc arg ++ b.
Proof.
  intros Ho Hr Ea Hne E. rewrite malloc_simple_call in E.
  unfold arg_malloc in E |- *. rewrite <- !app_assoc in E |- *.
  destruct (call_match_cases (T "malloc")
              (NotAhead (pat [ws; Chr "*"%char; ws; lit (T "sizeof")]) Done)
              a2 ("m"%char :: T "alloc(" ++ arg) b rest st)
    as [(x & pre2 & Ex & _ & Erest)
       |(w1 & w2 & l & Ep & Hw1 & Hw2 & Hl & _ & _)].
  - intros s0 pos0 st0 res. apply tail_not_ahead.
  - discriminate.
  - change ("m"%char :: T "alloc(" ++ arg) with (T "malloc(" ++ arg).
    rewrite forallb_app, Hr. reflexivity.
  - intros w1 w2 l z Hw1 Hw2 Hl E1 E2.
    apply (malloc_head_misses a2 (T "alloc(" ++ arg) b w1 w2 l z); auto.
  - exact E.
  - exists x, pre2. split; [exact Ex | exact Erest].
  - exfalso.
    assert (Hn : has_rparen a2 = false).
    { apply not_rparen_has. rewrite Ep, !forallb_app. cbn [forallb].
      rewrite (spaces_not_rparen _ Hw1), (spaces_not_rparen _ Hw2), Hl.
      reflexivity. }
    destruct (open_tail_suffix a1 a2 Hn) as [x Ex].
    unfold open_call in Ho. rewrite Ea, Ex in Ho.
    apply any_suffix_app in Ho. unfold calls in Ho.
    rewrite Ep, <- !app_assoc, starts_with_app in Ho.
    rewrite skipn_app, skipn_all, Nat.sub_diag in Ho. cbn [skipn app] in Ho.
    rewrite drop_spaces_run in Ho by (exact Hw1 || reflexivity).
    discriminate.
Qed.

(** The generic rule rewrites an allocation call before which no
    [malloc(] is open and after which no multiply-sizeof suffix
    stands. *)
Lemma generic_rule_step (a arg b : text) :
  plain_arg arg = true ->
  open_call (T "malloc") a = false ->
  match_at sizeof_suffix b = None ->
  exists a',
    re_sub malloc_simple mem_alloc (a ++ arg_malloc arg ++ b)
    = a' ++ alloc_call arg ++ sub_go malloc_simple mem_alloc 0 b.
Proof.
  intros Hp Ho Hb.
  destruct (plain_arg_cases arg Hp) as (_ & _ & Hr & Hx).
  destruct (sub_go_scan malloc_simple mem_alloc (arg_malloc arg ++ b)
              eq_refl (templates_end_rparen mem_alloc ltac:(cbn; tauto))
              (length a) a (Nat.le_refl _)) as (a' & Es & _).
  - intros a1 a2 rest st Ea Hne E.
    exact (open_call_blocks a arg b a1 a2 rest st Ho Hr Ea Hne E).
  - exists a'. unfold re_sub. rewrite Es. f_equal.
    destruct (malloc_simple_match arg b Hr Hx Hb) as (st & Em & Ee).
    apply (sub_go_head_matches _ _ _ _ _ st); [discriminate | exact Em|].
    exact Ee.
Qed.

(** A sized rule leaves the allocation call where it is, and with it
    what stands open before it and the absence of a suffix after it. *)
Lemma sized_rule_step (name : text) (r : regex) (tp : template)
  (a arg b : text) :
  call_rule name r -> In name call_names ->
  In tp (map snd replacements) -> ends_rparen r = true ->
  plain_arg arg = true -> apart r (arg_malloc arg) = true ->
  match_at r (arg_malloc arg ++ b) = None ->
  match_at sizeof_suffix b = None ->
  exists a' b',
    re_sub r tp (a ++ arg_malloc arg ++ b) = a' ++ arg_malloc arg ++ b'
    /\ open_tail a' = open_tail a
    /\ match_at sizeof_suffix b' = None.
Proof.
  intros Hr Hn Htp He Hp Ha Hm Hb.
  destruct (plain_arg_cases arg Hp) as (_ & Hnp & _ & _).
  destruct (rule_step r tp a (arg_malloc arg) b) as (a' & E & Ht).
  - destruct Hr as [r' ->]. rewrite head_lit_rule.
    destruct Hn as [<-|[<-|[<-|[]]]]; discriminate.
  - exact He.
  - now apply templates_end_rparen.
  - discriminate.
  - exact Ha.
  - unfold arg_malloc in Hm |- *. rewrite <- !app_assoc in Hm.
    rewrite <- !app_assoc.
    apply (rule_passes_arg_site name r tp "m"%char (T "alloc(") arg b);
      auto.
    destruct Hn as [<-|[<-|[<-|[]]]]; reflexivity.
  - exists a', (sub_go r tp 0 b). split; [exact E|]. split; [exact Ht|].
    apply lookahead_kept; [now apply templates_begin | exact Hb].
Qed.

Lemma alloc_call_parts (arg : text) :
  alloc_call arg
  = ("M"%char :: T "EM_ALLOC(allocators_get(ALLOC_SYSTEM_PARSER")
    ++ ")"%char :: (T ", " ++ arg ++ T ")").
Proof. reflexivity. Qed.

(** The strdup rule leaves the generic call in the text. *)
Lemma strdup_rule_carries_alloc_call (arg s : text) :
  no_paren arg = true ->
  contains (alloc_call arg) s = true ->
  contains (alloc_call arg) (re_sub strdup_call mem_strdup s) = true.
Proof.
  intros Ha. rewrite strdup_call_call.
  assert (Hr : call_rule (T "strdup") (call_re (T "strdup") Done))
    by (unfold call_rule, call_re, ws; eexists; reflexivity).
  assert (Hn : In (T "strdup") call_names) by name_of.
  rewrite alloc_call_parts.
  apply re_sub_call_carries;
    [discriminate | apply tail_done | reflexivity | reflexivity
     | discriminate | reflexivity | | ].
  - intros post. rewrite <- alloc_call_parts. unfold alloc_call.
    rewrite <- !app_assoc.
    apply (rule_passes_arg_site (T "strdup") _ _ "M"%char
             (T "EM_ALLOC(allocators_get(ALLOC_SYSTEM_PARSER), ") arg post);
      auto.
  - intros post. rewrite <- !app_assoc.
    rewrite (sub_go_lit (T "strdup")) by (exact Hr || reflexivity).
    change (T ")" ++ post) with (")"%char :: post).
    rewrite (sub_go_arg (T "strdup")) by assumption.
    change (")"%char :: post) with ([")"%char] ++ post).
    rewrite (sub_go_lit (T "strdup") _ _ [")"%char])
      by (exact Hr || reflexivity).
    reflexivity.
Qed.

(** An allocation call [malloc(arg)] before which no [malloc(] is open
    once the include steps are done, and after which no multiply-sizeof
    suffix stands once the stdlib.h lines are removed, is in the
    returned text as the generic call. *)
Lemma generic_allocation_rewritten (pre arg post : text) :
  plain_arg arg = true ->
  free_of include_targets arg = true ->
  open_call (T "malloc") (fix_includes pre) = false ->
  match_at sizeof_suffix (without_stdlib post) = None ->
  contains (alloc_call arg)
    (returned (refactor_parser_memory (pre ++ arg_malloc arg ++ post)))
  = true.
Proof.
  intros Hp Hi Ho Hb.
  destruct (plain_arg_cases arg Hp) as (_ & Hnp & _ & _).
  destruct (include_free arg Hi) as [Hia His].
  destruct (fix_includes_around pre (arg_malloc arg) post)
    as [lim E0].
  { intros x. by_computation. }
  { intros x. by_computation. }
  { intros x. apply (arg_site_quiet anchor (T "malloc(") arg x);
      [reflexivity | exact Hia | reflexivity | reflexivity]. }
  { intros x. apply (arg_site_quiet stdlib_line (T "malloc(") arg x);
      [reflexivity | exact His | reflexivity | reflexivity]. }
  pose proof (lookahead_after_includes post lim Hb) as Hb0.
  unfold refactor_parser_memory. cbn [returned].
  rewrite rules_split, E0. unfold apply_rules.
  cbn [firstn replacements fold_left fst snd].
  destruct (sized_rules_skip_arg arg
              (without_stdlib
                 (replace_go anchor (anchor ++ [nl] ++ includes) lim 0 post))
              Hp) as [Hm1 _].
  destruct (sized_rule_step (T "malloc") malloc_sizeof mem_new
              (fix_includes pre) arg _ ltac:(call_rule_of) ltac:(name_of)
              ltac:(cbn; tauto) eq_refl Hp ltac:(by_computation) Hm1 Hb0)
    as (a1 & b1 & E1 & T1 & Hb1).
  rewrite E1.
  destruct (sized_rules_skip_arg arg b1 Hp) as [_ Hm2].
  destruct (sized_rule_step (T "malloc") malloc_array mem_new_array
              a1 arg b1 ltac:(call_rule_of) ltac:(name_of)
              ltac:(cbn; tauto) eq_refl Hp ltac:(by_computation) Hm2 Hb1)
    as (a2 & b2 & E2 & T2 & Hb2).
  rewrite E2.
  destruct (sized_rule_step (T "calloc") calloc_one mem_new
              a2 arg b2 ltac:(call_rule_of) ltac:(name_of)
              ltac:(cbn; tauto) eq_refl Hp ltac:(by_computation)
              ltac:(eapply other_rule_skips; [call_rule_of | reflexivity])
              Hb2)
    as (a3 & b3 & E3 & T3 & Hb3).
  rewrite E3.
  destruct (sized_rule_step (T "calloc") calloc_array mem_new_array
              a3 arg b3 ltac:(call_rule_of) ltac:(name_of)
              ltac:(cbn; tauto) eq_refl Hp ltac:(by_computation)
              ltac:(eapply other_rule_skips; [call_rule_of | reflexivity])
              Hb3)
    as (a4 & b4 & E4 & T4 & Hb4).
  rewrite E4.
  assert (Ho4 : open_call (T "malloc") a4 = false).
  { unfold open_call in Ho |- *. now rewrite T4, T3, T2, T1. }
  destruct (generic_rule_step a4 arg b4 Hp Ho4 Hb4) as [a5 E5].
  rewrite E5.
  apply strdup_rule_carries_alloc_call; [exact Hnp|].
  apply contains_middle.
Qed.

Lemma quiet_not_contains (l t : text) :
  l <> [] -> quiet l t [] -> contains l t = false.
Proof.
  intros Hl. induction t as [|c t IH]; intros Hq.
  - destruct l; [congruence | reflexivity].
  - cbn [contains]. rewrite (IH (quiet_tail _ _ _ _ Hq)), orb_false_r.
    rewrite <- (app_nil_r (c :: t)). apply (Hq [] (c :: t));
      [reflexivity | discriminate].
Qed.

(** The generic call is no array call. *)
Lemma alloc_call_no_array (arg : text) :
  contains (T "MEM_NEW_ARRAY") arg = false ->
  contains (T "MEM_NEW_ARRAY") (alloc_call arg) = false.
Proof.
  intros H. apply quiet_not_contains; [discriminate|].
  apply (arg_site_quiet (T "MEM_NEW_ARRAY")
           (T "MEM_ALLOC(allocators_get(ALLOC_SYSTEM_PARSER), ") arg []);
    [reflexivity | exact H | reflexivity | reflexivity].
Qed.

(** The include steps leave an array allocation in the text. *)
Lemma fix_includes_keeps_times_malloc (n w star s : text) :
  forallb is_word n = true -> forallb is_word w = true ->
  star = [] \/ star = T "*" ->
  contains (times_malloc n (w ++ star)) s = true ->
  contains (times_malloc n (w ++ star)) (fix_includes s) = true.
Proof.
  intros Hn Hw Hstar Hs.
  pose proof (hash_not_in_times n w star Hn Hw Hstar) as Hh.
  apply (fix_includes_keeps_site "m"%char
           (T "alloc(" ++ n ++ T " * sizeof(" ++ (w ++ star) ++ T "))"));
    [reflexivity | discriminate | by_computation | | | exact Hs].
  - intros post. now apply quiet_no_head.
  - intros post. now apply quiet_no_head.
Qed.

End SiteFacts.

(** ** The statements about the rewriter *)

Module RefactorClaims.

Import Refactor RefactorFacts RuleExtras SiteFacts.

(** C1, as amended: the two reports are made on the rewritten text.
    Every reported pair is a match of the free or realloc pattern in the
    text that [refactor_parser_memory] returns, with the text the match
    has read there and the line number counted in that returned text. *)
Theorem reports_on_rewritten_text (content : text) (line : nat) (m : text) :
  In (line, m) (free_report (refactor_parser_memory content))
  \/ In (line, m) (realloc_report (refactor_parser_memory content)) ->
  let out := returned (refactor_parser_memory content) in
  exists i rest,
    occurs_at m out i /\ line = count_nl (firstn i out) + 1
    /\ skipn i out = m ++ rest
    /\ ((exists st, match_at free_pattern (skipn i out) = Some (rest, st))
        \/ (exists st,
               match_at realloc_pattern (skipn i out) = Some (rest, st))).
Proof.
  unfold refactor_parser_memory. cbn [free_report realloc_report returned].
  intros [H|H]; apply report_sound in H as (i & rest & st & Ho & El & E & F);
    exists i, rest; repeat split; try assumption; try apply Ho;
    [left | right]; now exists st.
Qed.

Lemma reports_on_rewritten_text_witness :
  let content := T "#include <stdlib.h>
free(p);
" in
  In (1, T "free(p)") (free_report (refactor_parser_memory content))
  /\ exists i rest,
       occurs_at (T "free(p)") (returned (refactor_parser_memory content)) i
       /\ 1 = count_nl (firstn i (returned (refactor_parser_memory content)))
              + 1
       /\ skipn i (returned (refactor_parser_memory content))
          = T "free(p)" ++ rest.
Proof.
  intros content.
  assert (H : In (1, T "free(p)")
                (free_report (refactor_parser_memory content)))
    by (left; reflexivity).
  split; [exact H|].
  destruct (reports_on_rewritten_text content 1 (T "free(p)") (or_introl H))
    as (i & rest & Ho & El & F & _).
  exists i, rest. auto.
Defined.

(** C1, as stated, fails: with a stdlib.h line above it, a call on line 2
    of the input is reported on line 1. *)
Lemma reports_on_original_text_counterexample :
  ~ (forall content,
        free_report (refactor_parser_memory content)
        = report free_pattern content).
Proof.
  intros H. specialize (H (T "#include <stdlib.h>
free(p);
")).
  vm_compute in H. discriminate.
Qed.

(** C2: the output name comes from replacing every [.c] of the file name,
    not the trailing one only; the two agree when [.c] occurs once, at
    the end. *)
Theorem output_filename_replaces_every_dot_c :
  output_filename (T "src.core/parser.c")
  = T "src_refactored.core/parser_refactored.c"
  /\ output_filename (T "parser.config.c")
     = T "parser_refactored.config_refactored.c"
  /\ output_filename (T "parser.h") = T "parser.h"
  /\ output_filename (T "parser.c") = T "parser_refactored.c".
Proof. repeat split; by_computation. Qed.

(** Where the two agree: a name in which [.c] occurs once, at the end. *)
Lemma output_filename_single_dot_c (stem : text) :
  contains (T ".c") stem = false ->
  output_filename (stem ++ T ".c") = stem ++ T "_refactored.c".
Proof.
  intros H. unfold output_filename, py_replace.
  rewrite <- (app_nil_r (T ".c")) at 2.
  rewrite replace_go_quiet; [reflexivity|].
  now apply quiet_contains.
Qed.

(** C9: the patterns are not anchored at word boundaries: the generic
    rule rewrites the end of [xmalloc(n)] and the free report lists the
    end of [my_free(p)]. *)
Theorem patterns_match_inside_identifiers :
  returned (refactor_parser_memory (T "xmalloc(n)"))
  = T "xMEM_ALLOC(allocators_get(ALLOC_SYSTEM_PARSER), n)"
  /\ free_report (refactor_parser_memory (T "my_free(p)"))
     = [(1, T "free(p)")].
Proof. split; by_computation. Qed.

(** C4, as amended: every input with an array allocation
    [malloc(n * sizeof(ty))], for any bare count [n] and any type name
    [ty] with or without a final star, gives an output with the array
    call [MEM_NEW_ARRAY(alloc, ty, n)]: the call is in the text after
    the four sized rules and stays there when a match of the generic
    rule runs over it.  An allocation [malloc(arg)] whose argument holds
    no parenthesis and does not begin with white space, as in
    [malloc(100)], is in the output as the generic call
    [MEM_ALLOC(alloc, arg)], whatever else the input holds, when no
    [malloc(] is open before it (none stands after the last closing
    parenthesis of the text before it, taken after the include steps)
    and no multiply-sizeof suffix follows it (none begins the text after
    it, taken without its stdlib.h lines).  The generic call is no array
    call. *)
Theorem array_and_generic_allocation
  (s n w star pre arg post : text) :
  (is_name n = true -> is_name w = true -> star = [] \/ star = T "*" ->
   contains (times_malloc n (w ++ star)) s = true ->
   contains (new_array_call (w ++ star) n)
     (returned (refactor_parser_memory s)) = true
   /\ let sized := apply_rules (firstn 4 replacements) (fix_includes s) in
      contains (new_array_call (w ++ star) n) sized = true
      /\ contains (new_array_call (w ++ star) n)
           (re_sub malloc_simple mem_alloc sized) = true)
  /\ (plain_arg arg = true -> free_of include_targets arg = true ->
      open_call (T "malloc") (fix_includes pre) = false ->
      match_at sizeof_suffix (without_stdlib post) = None ->
      contains (alloc_call arg)
        (returned (refactor_parser_memory (pre ++ arg_malloc arg ++ post)))
      = true)
  /\ (contains (T "MEM_NEW_ARRAY") arg = false ->
      contains (T "MEM_NEW_ARRAY") (alloc_call arg) = false)
  /\ returned (refactor_parser_memory plain_malloc) = plain_call.
Proof.
  split; [|split; [|split]].
  - intros Hn Hw Hstar Hs.
    destruct (name_cases n Hn) as (_ & Hnw & _).
    destruct (name_cases w Hw) as (_ & Hww & _).
    pose proof (fix_includes_keeps_times_malloc n w star s Hnw Hww Hstar Hs)
      as Hf.
    destruct (rules_on_times_malloc n w star (fix_includes s) Hn Hw Hstar Hf)
      as (H4 & H5 & H6).
    split; [exact H6|]. split; [exact H4 | exact H5].
  - intros Hp Hi Ho Hb. now apply generic_allocation_rewritten.
  - apply alloc_call_no_array.
  - by_computation.
Qed.

Lemma array_and_generic_allocation_witness :
  let s := T "x = malloc(len + malloc(n * sizeof(Bar)));" in
  let pre := T "a = malloc(8); b = " in
  let post := T ";
" in
  is_name (T "n") = true /\ is_name (T "Bar") = true
  /\ (@nil ascii = [] \/ [] = T "*")
  /\ contains (T "malloc(n * sizeof(Bar))") s = true
  /\ plain_arg (T "100") = true
  /\ free_of include_targets (T "100") = true
  /\ open_call (T "malloc") (fix_includes pre) = false
  /\ match_at sizeof_suffix (without_stdlib post) = None
  /\ contains (T "MEM_NEW_ARRAY") (T "100") = false
  /\ contains
       (T "MEM_NEW_ARRAY(allocators_get(ALLOC_SYSTEM_PARSER), Bar, n)")
       (returned (refactor_parser_memory s)) = true
  /\ contains (T "MEM_ALLOC(allocators_get(ALLOC_SYSTEM_PARSER), 100)")
       (returned (refactor_parser_memory
                    (pre ++ T "malloc(100)" ++ post))) = true
  /\ contains (T "MEM_NEW_ARRAY")
       (T "MEM_ALLOC(allocators_get(ALLOC_SYSTEM_PARSER), 100)") = false.
Proof.
  intros s pre post.
  assert (H1 : is_name (T "n") = true) by reflexivity.
  assert (H2 : is_name (T "Bar") = true) by reflexivity.
  assert (H3 : @nil ascii = [] \/ [] = T "*") by (left; reflexivity).
  assert (H4 : contains (times_malloc (T "n") (T "Bar" ++ [])) s = true)
    by reflexivity.
  assert (H5 : plain_arg (T "100") = true) by reflexivity.
  assert (H6 : free_of include_targets (T "100") = true) by reflexivity.
  assert (H7 : open_call (T "malloc") (fix_includes pre) = false)
    by reflexivity.
  assert (H8 : match_at sizeof_suffix (without_stdlib post) = None)
    by reflexivity.
  assert (H9 : contains (T "MEM_NEW_ARRAY") (T "100") = false)
    by reflexivity.
  destruct (array_and_generic_allocation s (T "n") (T "Bar") []
              pre (T "100") post) as (A & B & C & _).
  destruct (A H1 H2 H3 H4) as [A' _].
  pose proof (B H5 H6 H7 H8) as B'. pose proof (C H9) as C'.
  repeat split; assumption.
Defined.

(** C4, as stated, fails: a [malloc(100)] inside the argument of another
    [malloc(] is not rewritten. *)
Lemma generic_allocation_counterexample :
  ~ (forall pre post,
        match_at sizeof_suffix post = None ->
        contains plain_call
          (returned (refactor_parser_memory (pre ++ plain_malloc ++ post)))
        = true).
Proof.
  intros H. specialize (H (T "malloc(") (T ")") eq_refl).
  vm_compute in H. discriminate.
Qed.

(** The generic rule can match over text the sized rules have written:
    here its match runs from the outer [malloc(] to the first closing
    parenthesis inside the array call. *)
Lemma generic_rule_runs_over_rewritten_text :
  let sized := apply_rules (firstn 4 replacements)
                 (T "malloc(x + malloc(n * sizeof(Bar)))") in
  sized
  = T "malloc(x + MEM_NEW_ARRAY(allocators_get(ALLOC_SYSTEM_PARSER), Bar, n))"
  /\ option_map fst (match_at malloc_simple sized) = Some (T ", Bar, n))")
  /\ returned (refactor_parser_memory
                 (T "malloc(x + malloc(n * sizeof(Bar)))"))
     = T "MEM_ALLOC(allocators_get(ALLOC_SYSTEM_PARSER), x + " ++ array_call
       ++ T ")".
Proof. repeat split; by_computation. Qed.

(** C7, as amended: every input with a deallocation call [free(arg)] in
    whose argument no call of [malloc], [calloc] or [strdup] begins and
    which holds neither the anchor nor a stdlib.h line gives a returned
    text with [free(arg)].  When the argument is not empty and holds no
    closing parenthesis, every place of the call in the returned text is
    reported: the report holds the call with its line or, for a call
    inside the argument of another [free(], the match that ends with
    it, with the line on which that match begins; and when the returned
    text holds no other call of [free] ([free], white space and an
    opening parenthesis), the report is that one call with its line. *)
Theorem free_call_kept_and_reported (s arg : text) :
  no_call arg = true -> free_of include_targets arg = true ->
  contains (free_of_arg arg) s = true ->
  let o := refactor_parser_memory s in
  contains (free_of_arg arg) (returned o) = true
  /\ (arg <> [] -> forallb not_rparen arg = true ->
      (forall pre post,
          returned o = pre ++ free_of_arg arg ++ post ->
          exists before l,
            pre = before ++ l
            /\ In (count_nl before + 1, l ++ free_of_arg arg) (free_report o)
            /\ (l = [] \/ starts_with (T "free") l = true))
      /\ (forall pre post,
             returned o = pre ++ free_of_arg arg ++ post ->
             any_suffix (calls (T "free")) pre = false ->
             any_suffix (calls (T "free")) post = false ->
             free_report o = [(count_nl pre + 1, free_of_arg arg)])).
Proof.
  intros Hc Hi Hs o.
  subst o. unfold refactor_parser_memory. cbn [returned free_report].
  split; [|intros Hne Hr; split].
  - apply rules_keep_free_call; [exact Hc|].
    now apply fix_includes_keeps_free_call.
  - intros pre post ->. now apply report_covers_free_call.
  - intros pre post -> H1 H2. now apply report_single_free_call.
Qed.

Lemma free_call_kept_and_reported_witness :
  let s := T "p = malloc(4);
free(ptr);" in
  no_call (T "ptr") = true
  /\ free_of include_targets (T "ptr") = true
  /\ contains (T "free(ptr)") s = true
  /\ contains (T "free(ptr)") (returned (refactor_parser_memory s)) = true
  /\ free_report (refactor_parser_memory s) = [(2, T "free(ptr)")].
Proof.
  intros s.
  assert (H1 : no_call (T "ptr") = true) by reflexivity.
  assert (H2 : free_of include_targets (T "ptr") = true) by reflexivity.
  assert (H3 : contains (free_of_arg (T "ptr")) s = true) by reflexivity.
  destruct (free_call_kept_and_reported s (T "ptr") H1 H2 H3)
    as (A & B).
  split; [exact H1|]. split; [exact H2|]. split; [exact H3|].
  split; [exact A|].
  destruct (B ltac:(discriminate) eq_refl) as [_ B'].
  exact (B' (T "p = MEM_ALLOC(allocators_get(ALLOC_SYSTEM_PARSER), 4);
") (T ";") eq_refl eq_refl eq_refl).
Defined.

(** C7, as stated, fails: the argument of [free(strdup(s))] is
    rewritten, so the text of that call site is not in the output. *)
Lemma free_call_site_counterexample :
  ~ (forall content i m,
        In (i, m) (finditer free_pattern content) ->
        contains m (returned (refactor_parser_memory content)) = true).
Proof.
  intros H.
  specialize (H (T "free(strdup(s));") 0 (T "free(strdup(s)")
                ltac:(left; reflexivity)).
  vm_compute in H. discriminate.
Qed.

(** C8, as amended: for an input without target pattern in which the
    anchor first occurs after [a], the rewriting puts the include line
    (with the newline before it) right after that anchor, changes
    nothing else and reports nothing.  With [q] the place of the first
    include directive of that text (it is in [a] or is the anchor), the
    pipeline returns that text with the helper block put right after the
    first blank line at or after [q] and nothing else changed, when there
    is such a blank line, and returns that text itself when there is
    none; when a newline follows the anchor there is one, no later than
    the end of the injected line. *)
Theorem pipeline_without_target (a b : text) :
  (forall j, j < length a -> ~ occurs_at anchor (a ++ anchor ++ b) j) ->
  free_of all_targets (a ++ anchor ++ b) = true ->
  let out := a ++ anchor ++ injected ++ b in
  refactor_parser_memory (a ++ anchor ++ b) = mkOutcome out [] []
  /\ exists q,
       first_from (T "#include") out 0 q /\ q <= length a
       /\ (forall p, first_from [nl; nl] out q p ->
             pipeline (a ++ anchor ++ b)
             = firstn (p + 2) out ++ helper_block ++ skipn (p + 2) out)
       /\ ((forall p, q <= p -> ~ occurs_at [nl; nl] out p) ->
           pipeline (a ++ anchor ++ b) = out)
       /\ (forall b', b = nl :: b' ->
           exists p,
             first_from [nl; nl] out q p
             /\ p + 2 <= length (a ++ anchor ++ injected) + 1
             /\ pipeline (a ++ anchor ++ b)
                = firstn (p + 2) out ++ helper_block ++ skipn (p + 2) out).
Proof.
  intros Hfirst Hfree out.
  pose proof (refactor_without_target a b Hfirst Hfree) as E. fold out in E.
  unfold pipeline. rewrite E. cbn [returned].
  assert (Hinc : occurs_at (T "#include") out (length a)).
  { split; [unfold out; rewrite length_app; lia|].
    unfold out. now rewrite skipn_app, skipn_all, Nat.sub_diag. }
  destruct (first_from_exists _ _ 0 _ (Nat.le_0_l _) Hinc) as (q & Hq & Hqa).
  destruct (helpers_inserted out q Hq) as [Hput Hnot].
  split; [reflexivity|]. exists q.
  split; [exact Hq|]. split; [exact Hqa|].
  split; [exact Hput|]. split; [exact Hnot|].
  intros b' ->.
  assert (Eout : out = (a ++ anchor ++ removelast injected)
                       ++ [nl; nl] ++ b').
  { unfold out. rewrite <- !app_assoc. reflexivity. }
  assert (Hnn : occurs_at [nl; nl] out
                  (length (a ++ anchor ++ removelast injected))).
  { rewrite Eout. split.
    - rewrite (length_app (a ++ anchor ++ removelast injected)). lia.
    - now rewrite skipn_app, skipn_all, Nat.sub_diag. }
  assert (Hqj : q <= length (a ++ anchor ++ removelast injected))
    by (rewrite length_app; lia).
  destruct (first_from_exists _ _ q _ Hqj Hnn) as (p & Hp & Hle).
  exists p. split; [exact Hp|]. split; [|now apply Hput].
  revert Hle. rewrite !length_app. cbn. lia.
Qed.

Lemma pipeline_without_target_witness :
  let a := T "#include <stdio.h>
" in
  let b := T "
int x;
" in
  let out := a ++ anchor ++ injected ++ b in
  (forall j, j < length a -> ~ occurs_at anchor (a ++ anchor ++ b) j)
  /\ free_of all_targets (a ++ anchor ++ b) = true
  /\ refactor_parser_memory (a ++ anchor ++ b) = mkOutcome out [] []
  /\ exists q p,
       first_from (T "#include") out 0 q
       /\ first_from [nl; nl] out q p
       /\ pipeline (a ++ anchor ++ b)
          = firstn (p + 2) out ++ helper_block ++ skipn (p + 2) out.
Proof.
  intros a b out.
  assert (H1 : forall j, j < length a ->
                         ~ occurs_at anchor (a ++ anchor ++ b) j).
  { intros j Hj Ho.
    assert (F : first_from anchor (a ++ anchor ++ b) 0 (length a))
      by (apply first_from_find; [simpl; lia | reflexivity]).
    destruct F as (_ & _ & Hm). apply (Hm j); [lia | exact Ho]. }
  assert (H2 : free_of all_targets (a ++ anchor ++ b) = true) by reflexivity.
  destruct (pipeline_without_target a b H1 H2) as (A & q & Hq & _ & _ & _ & B).
  destruct (B (T "int x;
") eq_refl) as (p & Hp & _ & Ep).
  split; [exact H1|]. split; [exact H2|]. split; [exact A|].
  exists q, p. auto.
Defined.

(** C8, as stated, fails: for the anchor line alone, without a newline
    after it, no helper block goes into the output. *)
Lemma pipeline_without_target_counterexample :
  ~ (forall s,
        free_of all_targets s = true -> contains anchor s = true ->
        contains (T "parser_strdup_lexeme") (pipeline s) = true).
Proof.
  intros H. specialize (H anchor eq_refl eq_refl).
  vm_compute in H. discriminate.
Qed.

End RefactorClaims.
